(** * go-ddddocr: post-processing core of [ddddocr/ddddocr.go]

    A shallow embedding of the sequence decoder, the detection
    post-processor, the column-scan gap locator and the range selector,
    together with the properties the specification states about them.

    Conventions.
    - Go's [int] is the 64-bit two's-complement integer; it is modelled as
      [Z] and every arithmetic result that may leave the range is passed
      through [wrap].
    - Go's [float32] is IEEE-754 binary32; it is modelled with the
      standard library's [spec_float] at precision 24 and [emax = 128].
    - A slice is a [list]; indexing by an [int] out of range panics, which
      the model renders as [None]. *)

From Stdlib Require Import ZArith Lia Floats.SpecFloat.
From stdpp Require Import base option list list_numbers strings gmap sorting.

Local Open Scope Z_scope.

(** ** Machine integers *)

Module GoInt.

Definition min_int : Z := - 2 ^ 63.
Definition max_int : Z := 2 ^ 63 - 1.

Definition wrap (z : Z) : Z := (z + 2 ^ 63) mod 2 ^ 64 - 2 ^ 63.

Definition add (a b : Z) : Z := wrap (a + b).
Definition sub (a b : Z) : Z := wrap (a - b).
Definition mul (a b : Z) : Z := wrap (a * b).

Definition in_range (z : Z) : Prop := min_int <= z <= max_int.

End GoInt.

(** ** Slices *)

(** [s[i]] for an [int] index: [None] stands for the run-time panic. *)
Definition slice_at {A} (s : list A) (i : Z) : option A :=
  if bool_decide (0 <= i) then s !! Z.to_nat i else None.

Definition len {A} (s : list A) : Z := Z.of_nat (length s).

(** ** binary32 *)

Module F32.

Definition prec : Z := 24.
Definition emax : Z := 128.

Definition t := spec_float.

Definition is_nan (x : t) : bool :=
    match x with S754_nan => true | _ => false end.

(** Go's [a < b] and [a > b] on floats: false as soon as one side is NaN. *)
Definition lt (a b : t) : bool := SFltb a b.
Definition gt (a b : t) : bool := SFltb b a.
(** Go's [a == b] on floats. *)
Definition eq (a b : t) : bool := SFeqb a b.

Definition add : t -> t -> t := SFadd prec emax.
Definition sub : t -> t -> t := SFsub prec emax.
Definition mul : t -> t -> t := SFmul prec emax.
Definition div : t -> t -> t := SFdiv prec emax.

(** [float32(n)] for an integer [n], rounding to nearest even. *)
Definition of_int (n : Z) : t := binary_normalize prec emax n 0 false.

Definition zero : t := S754_zero false.
Definition one : t := S754_finite false 8388608 (-23).
Definition two : t := S754_finite false 8388608 (-22).

(** The constant [float32(-1e9)]. *)
Definition neg_1e9 : t := S754_finite true 15625000 6.

End F32.

(** ** binary64 and the conversions between floats and integers *)

Module F64.

Definition prec : Z := 53.
Definition emax : Z := 1024.

Definition t := spec_float.

Definition one : t := S754_finite false 4503599627370496 (-52).
Definition two : t := S754_finite false 4503599627370496 (-51).

End F64.

(** [float32(x)] for a [float64] [x]: rounding to nearest even. *)
Definition float32_of_float64 (x : F64.t) : F32.t :=
  match x with
  | S754_finite s m e => binary_round F32.prec F32.emax s m e
  | _ => x
  end.

(** [int(x)] for a [float32] [x]: truncation toward zero.  Go leaves the
    result implementation-dependent when the value is NaN, infinite or
    outside the range of [int]: that is [None]. *)
Definition int_of_float32 (x : F32.t) : option Z :=
  match x with
  | S754_zero _ => Some 0
  | S754_finite s m e =>
      let v := cond_Zopp s (Z.shiftl (Z.pos m) e) in
      if bool_decide (GoInt.min_int <= v <= GoInt.max_int) then Some v else None
  | _ => None
  end.

(** The second half of [binary_round_aux]: the rounded mantissa [m1] is
    shifted once more if rounding carried, and the result is built. *)
Definition roundFinish (s : bool) (m1 e1 : Z) : spec_float :=
  let '(mrs2, e2) := shr_fexp F32.prec F32.emax m1 e1 loc_Exact in
  match shr_m mrs2 with
  | Z0 => S754_zero s
  | Zpos m => if e2 <=? F32.emax - F32.prec then S754_finite s m e2 else S754_infinity s
  | Zneg _ => S754_nan
  end.

(** ** Sequence decoder ([decodeOutputFloatFast]) *)

(** The restricted scan [for _, c := range allowedIndices]. *)
Fixpoint scanAllowed (output : list F32.t) (offset numClasses : Z)
    (allowedIndices : list Z) (maxIdx : Z) (maxVal : F32.t) : option (Z * F32.t) :=
  match allowedIndices with
  | [] => Some (maxIdx, maxVal)
  | c :: rest =>
      if bool_decide (numClasses <= c) then
        scanAllowed output offset numClasses rest maxIdx maxVal
      else
        val ← slice_at output (GoInt.add offset c);
        if F32.gt val maxVal then scanAllowed output offset numClasses rest c val
        else scanAllowed output offset numClasses rest maxIdx maxVal
  end.

(** The unrestricted scan [for c := 1; c < numClasses; c++], over the list
    of the values [c] takes. *)
Fixpoint scanAll (output : list F32.t) (offset : Z)
    (cs : list Z) (maxIdx : Z) (maxVal : F32.t) : option (Z * F32.t) :=
  match cs with
  | [] => Some (maxIdx, maxVal)
  | c :: rest =>
      val ← slice_at output (GoInt.add offset c);
      if F32.gt val maxVal then scanAll output offset rest c val
      else scanAll output offset rest maxIdx maxVal
  end.

(** The index selected at one timestep: the value of [maxIdx] when the
    emission test is reached. *)
Definition argmaxAt (output : list F32.t) (offset numClasses : Z)
    (allowedIndices : list Z) : option Z :=
  if bool_decide (0 < len allowedIndices) then
    fst <$> scanAllowed output offset numClasses allowedIndices 0 F32.neg_1e9
  else
    maxVal ← slice_at output offset;
    fst <$> scanAll output offset (seqZ 1 (numClasses - 1)) 0 maxVal.

(** The emission test and [sb.WriteString(charsets[maxIdx])]. *)
Definition emits (charsetLen lastIdx maxIdx : Z) : bool :=
  bool_decide (maxIdx ≠ lastIdx) && bool_decide (maxIdx ≠ 0)
  && bool_decide (maxIdx < charsetLen).

Definition writeIndex (charsets : list string) (charsetLen lastIdx maxIdx : Z)
    (sb : string) : option string :=
  if emits charsetLen lastIdx maxIdx then
    s ← slice_at charsets maxIdx; Some (sb +:+ s)
  else Some sb.

(** The loop [for t := 0; t < timesteps; t++], with [n] iterations left. *)
Fixpoint decodeLoop (output : list F32.t) (batchSize numClasses : Z)
    (charsets : list string) (charsetLen : Z) (allowedIndices : list Z)
    (n : nat) (t : Z) (lastIdx : Z) (sb : string) : option string :=
  match n with
  | O => Some sb
  | S n' =>
      let offset := GoInt.mul (GoInt.mul t batchSize) numClasses in
      maxIdx ← argmaxAt output offset numClasses allowedIndices;
      sb' ← writeIndex charsets charsetLen lastIdx maxIdx sb;
      decodeLoop output batchSize numClasses charsets charsetLen allowedIndices
        n' (t + 1) maxIdx sb'
  end.

(** [timesteps, batchSize, numClasses] as read off the shape. *)
Definition shapeDims (shape : list Z) : option (Z * Z * Z) :=
  match shape with
  | [t; b; c] => Some (t, b, c)
  | [t; c] => Some (t, 1, c)
  | _ => None
  end.

Definition decodeOutputFloatFast (output : list F32.t) (shape : list Z)
    (charsets : list string) (charsetLen : Z) (allowedIndices : list Z)
    : option string :=
  match shapeDims shape with
  | Some (timesteps, batchSize, numClasses) =>
      decodeLoop output batchSize numClasses charsets charsetLen allowedIndices
        (Z.to_nat timesteps) 0 (-1) ""
  | None => Some ""
  end.

(** *** The decoder as arg-max path followed by collapse *)

(** The selected indices of [n] consecutive timesteps starting at [t]. *)
Fixpoint argmaxPath (output : list F32.t) (batchSize numClasses : Z)
    (allowedIndices : list Z) (n : nat) (t : Z) : option (list Z) :=
  match n with
  | O => Some []
  | S n' =>
      let offset := GoInt.mul (GoInt.mul t batchSize) numClasses in
      i ← argmaxAt output offset numClasses allowedIndices;
      rest ← argmaxPath output batchSize numClasses allowedIndices n' (t + 1);
      Some (i :: rest)
  end.

(** The collapse rule in the words of the specification: an index is
    emitted iff it differs from [lastIndex], is not 0 and is below the
    charset length; [lastIndex] is updated in every case. *)
Fixpoint collapse (charsetLen lastIndex : Z) (path : list Z) : list Z :=
  match path with
  | [] => []
  | index :: rest =>
      if bool_decide (index ≠ lastIndex ∧ index ≠ 0 ∧ index < charsetLen)
      then index :: collapse charsetLen index rest
      else collapse charsetLen index rest
  end.

Definition concatStrings (l : list string) : string := foldr String.append "" l.

(** The text of a list of emitted indices. *)
Definition textOf (charsets : list string) (emitted : list Z) : option string :=
  concatStrings <$> mapM (slice_at charsets) emitted.

(** ** The recognizer ([DdddOcr]) and its range selector ([SetRanges]) *)

(** The fields of [DdddOcr] the decoder and the range selector use. *)
Record DdddOcr := {
  charsets : list string;
  charsetLen : Z;
  charIndexMap : gmap string Z;
  allowedIndices : list Z;
}.

Definition RangeDigit : Z := 0.
Definition RangeLowercase : Z := 1.
Definition RangeUppercase : Z := 2.
Definition RangeLowerUpper : Z := 3.
Definition RangeLowerDigit : Z := 4.
Definition RangeUpperDigit : Z := 5.
Definition RangeLowerUpperDigit : Z := 6.
Definition RangeNonAlphaNum : Z := 7.

(** The dynamic type of the argument [val interface{}] of [SetRanges]:
    a string, an int, or a value of any other type. *)
Inductive RangeVal :=
  | ValString (v : string)
  | ValInt (v : Z)
  | ValOther.

Definition setAllowedIndices (d : DdddOcr) (indices : list Z) : DdddOcr :=
  {| charsets := charsets d; charsetLen := charsetLen d;
     charIndexMap := charIndexMap d; allowedIndices := indices |}.

Section SetRanges.

(** Go's [strings.Split(s, "")] (the UTF-8 sequences of [s]) and
    [strings.Contains]: standard-library functions the selector calls. *)
Variable strings_Split : string → list string.
Variable strings_Contains : string → string → bool.

Definition alphaNum : string :=
  "abcdefghijklmnopqrstuvwxyzABCDEFGHIJKLMNOPQRSTUVWXYZ0123456789".

(** [case RangeNonAlphaNum]: the charset entries that are not
    alphanumeric and not empty, concatenated. *)
Definition nonAlphaNumChars (d : DdddOcr) : string :=
  foldl (λ chars c,
           if negb (strings_Contains alphaNum c) && bool_decide (c ≠ "")
           then chars +:+ c else chars)
        "" (charsets d).

(** The inner [switch v]: the characters of a preset, [None] for
    [default]. *)
Definition presetChars (d : DdddOcr) (v : Z) : option string :=
  match v with
  | 0 => Some "0123456789"
  | 1 => Some "abcdefghijklmnopqrstuvwxyz"
  | 2 => Some "ABCDEFGHIJKLMNOPQRSTUVWXYZ"
  | 3 => Some "abcdefghijklmnopqrstuvwxyzABCDEFGHIJKLMNOPQRSTUVWXYZ"
  | 4 => Some "abcdefghijklmnopqrstuvwxyz0123456789"
  | 5 => Some "ABCDEFGHIJKLMNOPQRSTUVWXYZ0123456789"
  | 6 => Some "abcdefghijklmnopqrstuvwxyzABCDEFGHIJKLMNOPQRSTUVWXYZ0123456789"
  | 7 => Some (nonAlphaNumChars d)
  | _ => None
  end.

(** The index list: 0 for the blank, then the index of every character of
    [chars] the reverse map knows. *)
Definition buildIndices (d : DdddOcr) (chars : string) : list Z :=
  0 :: omap (λ char, charIndexMap d !! char) (strings_Split chars).

Definition SetRanges (d : DdddOcr) (val : RangeVal) : DdddOcr :=
  match val with
  | ValString v => setAllowedIndices d (buildIndices d v)
  | ValInt v =>
      match presetChars d v with
      | Some chars => setAllowedIndices d (buildIndices d chars)
      | None => setAllowedIndices d []
      end
  | ValOther => setAllowedIndices d []
  end.

End SetRanges.

(** [ClearRanges]. *)
Definition ClearRanges (d : DdddOcr) : DdddOcr := setAllowedIndices d [].

(** *** The decoding step of [ClassificationWithOptions] *)

(** The first output of the inference session: nil, a float32 tensor, or
    a value of another type. *)
Inductive ortValue :=
  | ValueNil
  | TensorFloat32 (data : list F32.t) (shape : list Z)
  | ValueOther.

(** A Go [error]: [None] is [nil]. *)
Definition error := option string.

(** [ClassificationWithOptions] from the test [outputs[0] == nil] on:
    the pair [(string, error)] it returns; outer [None] is a panic. *)
Definition classificationDecode (d : DdddOcr) (out0 : ortValue)
    : option (string * error) :=
  match out0 with
  | ValueNil => Some ("", Some "无输出")
  | TensorFloat32 data shape =>
      text ← decodeOutputFloatFast data shape
                (charsets d) (charsetLen d) (allowedIndices d);
      Some (text, None)
  | ValueOther => Some ("", Some "不支持的输出类型")
  end.

(** ** Column-scan gap locator ([findGapPython]) *)

(** An image as [findGapPython] reads it: the size of its bounds and, for
    the pixel at offset [(x, y)] from [bounds.Min], the 32-bit values
    [r, g, b] that [At(..).RGBA()] returns. *)
Record Image := {
  Dx : Z;
  Dy : Z;
  RGBA : Z → Z → Z * Z * Z;
}.

(** [uint8(v >> 8)]. *)
Definition uint8_shr8 (v : Z) : Z := Z.land (Z.shiftr v 8) 255.

(** [r8 != 0 || g8 != 0 || b8 != 0]. *)
Definition nonBlack (img : Image) (x y : Z) : bool :=
  let '(r, g, b) := RGBA img x y in
  negb (uint8_shr8 r =? 0) || negb (uint8_shr8 g =? 0) || negb (uint8_shr8 b =? 0).

(** The inner loop [for y := 0; y < h; y++] over the rows [ys] still to
    visit, on the state [(count, startY)]. *)
Fixpoint scanColumn (img : Image) (x : Z) (ys : list Z) (count startY : Z) : Z * Z :=
  match ys with
  | [] => (count, startY)
  | y :: ys' =>
      if nonBlack img x y then
        let count' := GoInt.add count 1 in
        let startY' :=
          if bool_decide (count' = 1) && bool_decide (startY = 0) then y else startY in
        scanColumn img x ys' count' startY'
      else scanColumn img x ys' count startY
  end.

(** The outer loop [for x := 0; x < w; x++] over the columns [xs] still to
    visit; [startX] is still 0 when it is entered. *)
Fixpoint scanColumns (img : Image) (minCount : Z) (xs : list Z) (startY : Z) : Z * Z :=
  match xs with
  | [] => (0, startY)
  | x :: xs' =>
      let '(count, startY') := scanColumn img x (seqZ 0 (Dy img)) 0 startY in
      if bool_decide (minCount <= count) then (GoInt.add x 2, startY')
      else scanColumns img minCount xs' startY'
  end.

Definition findGapPython (img : Image) (minCount : Z) : Z * Z :=
  scanColumns img minCount (seqZ 0 (Dx img)) 0.

(** *** Column statistics used to state the scan's result *)

(** The rows of column [x] that hold a non-black pixel, top to bottom. *)
Definition nonBlackRows (img : Image) (x : Z) : list Z :=
  filter (λ y, nonBlack img x y = true) (seqZ 0 (Dy img)).

(** The number of non-black pixels of column [x]. *)
Definition colCount (img : Image) (x : Z) : Z := len (nonBlackRows img x).

(** Column [x] is visited by the scan: no column before it reaches the
    threshold. *)
Definition scanned (img : Image) (minCount x : Z) : Prop :=
  0 <= x < Dx img ∧ ∀ x', 0 <= x' < x → colCount img x' < minCount.

(** [(x0, y0)] is the first non-black pixel the scan meets. *)
Definition firstNonBlack (img : Image) (minCount x0 y0 : Z) : Prop :=
  scanned img minCount x0
  ∧ head (nonBlackRows img x0) = Some y0
  ∧ ∀ x', 0 <= x' < x0 → nonBlackRows img x' = [].

(** The captured row after the columns [cols] have been scanned in order,
    entered with [startY]: a column changes it only while it is still 0. *)
Definition rowAfter (img : Image) (cols : list Z) (startY : Z) : Z :=
  foldl (λ s x, if bool_decide (s = 0) then default 0 (head (nonBlackRows img x)) else s)
        startY cols.

(** ** Concrete inputs used in examples *)

(** An ASCII rendering of [strings.Split(s, "")]: one string per byte. *)
Fixpoint splitBytes (s : string) : list string :=
  match s with
  | EmptyString => []
  | String c s' => String c EmptyString :: splitBytes s'
  end.

Fixpoint isPrefix (p s : string) : bool :=
  match p, s with
  | EmptyString, _ => true
  | String a p', String b s' => bool_decide (a = b) && isPrefix p' s'
  | String _ _, EmptyString => false
  end.

(** [strings.Contains(s, sub)] on byte strings. *)
Fixpoint containsString (s sub : string) : bool :=
  isPrefix sub s ||
  match s with
  | EmptyString => false
  | String _ s' => containsString s' sub
  end.

Definition exampleOcr : DdddOcr :=
  {| charsets := [""; "a"; "b"]; charsetLen := 3;
     charIndexMap := {[ "" := 0; "a" := 1; "b" := 2 ]};
     allowedIndices := [0; 1] |}.

(** An image given by its rows of 8-bit [(r, g, b)] pixels; outside the
    rows the pixel is black.  [RGBA] returns the 16-bit values, [v * 257]. *)
Definition imageOfRows (w h : Z) (rows : list (list (Z * Z * Z))) : Image :=
  {| Dx := w; Dy := h;
     RGBA := λ x y,
       match slice_at rows y ≫= (λ row, slice_at row x) with
       | Some (r, g, b) => (r * 257, g * 257, b * 257)
       | None => (0, 0, 0)
       end |}.

Definition blackPx : Z * Z * Z := (0, 0, 0).
Definition whitePx : Z * Z * Z := (255, 255, 255).

(** Scores of four timesteps over three classes whose arg-max path is
    [1, 1, 0, 1]. *)
Definition examplePathScores : list F32.t :=
  [F32.zero; F32.one; F32.zero;
   F32.zero; F32.two; F32.one;
   F32.one; F32.zero; F32.zero;
   F32.zero; F32.one; F32.zero].

(** Column 0 holds one white pixel, in row 0; column 1 holds five, in rows
    1 to 5. *)
Definition gapImageRowZero : Image :=
  imageOfRows 2 6
    [[whitePx; blackPx]; [blackPx; whitePx]; [blackPx; whitePx];
     [blackPx; whitePx]; [blackPx; whitePx]; [blackPx; whitePx]].

(** A single column with one white pixel, in row 1. *)
Definition gapImageSparse : Image :=
  imageOfRows 1 2 [[blackPx]; [whitePx]].

(** Column 2 is the first with five white pixels, rows 2 to 6; column 1
    holds the first white pixel, in row 3. *)
Definition gapImageBlock : Image :=
  imageOfRows 4 8
    [[blackPx; blackPx; blackPx; blackPx]; [blackPx; blackPx; blackPx; blackPx];
     [blackPx; blackPx; whitePx; whitePx]; [blackPx; whitePx; whitePx; whitePx];
     [blackPx; blackPx; whitePx; whitePx]; [blackPx; blackPx; whitePx; whitePx];
     [blackPx; blackPx; whitePx; whitePx]; [blackPx; blackPx; blackPx; blackPx]].

(** ** Go's [sort.Slice]

    [multiclassNMS] sorts with [sort.Slice] of Go's standard library, the
    pattern-defeating quicksort [pdqsort_func] of package [sort].  The
    slice is a list; [data.Less(i, j)] applies the comparison to the
    elements at [i] and [j], and [data.Swap(i, j)] exchanges them.  Loops
    whose trip count is known when they start recurse on that count. *)

Module GoSort.

Section Sort.

Context {A : Type}.
Variable less : A → A → bool.

Definition Less (data : list A) (i j : nat) : bool :=
  match data !! i, data !! j with
  | Some x, Some y => less x y
  | _, _ => false
  end.

Definition Swap (data : list A) (i j : nat) : list A :=
  match data !! i, data !! j with
  | Some x, Some y => <[i := y]> (<[j := x]> data)
  | _, _ => data
  end.

(** [for j := i; j > a && data.Less(j, j-1); j-- { data.Swap(j, j-1) }] *)
Fixpoint insertionInner (a j : nat) (data : list A) : list A :=
  match j with
  | O => data
  | S j' =>
      if (a <? j)%nat && Less data j j' then insertionInner a j' (Swap data j j')
      else data
  end.

Definition insertionSort_func (data : list A) (a b : nat) : list A :=
  foldl (λ d i, insertionInner a i d) data (seq (a + 1) (b - (a + 1))).

(** The loop of [siftDown_func]; [root] grows at every turn and the loop
    ends once the child index reaches [hi]. *)
Fixpoint siftDownLoop (fuel : nat) (data : list A) (root hi first : nat) : list A :=
  match fuel with
  | O => data
  | S fuel' =>
      let child := (2 * root + 1)%nat in
      if (hi <=? child)%nat then data
      else
        let child :=
          if (child + 1 <? hi)%nat && Less data (first + child) (first + child + 1)
          then (child + 1)%nat else child in
        if negb (Less data (first + root) (first + child)) then data
        else siftDownLoop fuel' (Swap data (first + root) (first + child)) child hi first
  end.

Definition siftDown_func (data : list A) (lo hi first : nat) : list A :=
  siftDownLoop hi data lo hi first.

Definition heapSort_func (data : list A) (a b : nat) : list A :=
  let first := a in
  let lo := 0%nat in
  let hi := (b - a)%nat in
  let data :=
    foldl (λ d i, siftDown_func d i hi first) data
          (rev (seq 0 ((hi - 1) / 2 + 1))) in
  foldl (λ d i, siftDown_func (Swap d first (first + i)) lo i first) data
        (rev (seq 0 hi)).

(** [xorshift.Next] on the 64-bit state. *)
Definition xorshiftNext (r : Z) : Z :=
  let r := Z.lxor r (Z.shiftl r 13 mod 2 ^ 64) in
  let r := Z.lxor r (Z.shiftr r 7) in
  Z.lxor r (Z.shiftl r 17 mod 2 ^ 64).

(** [bits.Len(uint(n))]. *)
Definition bitsLen (n : nat) : nat :=
  match n with O => O | _ => S (Nat.log2 n) end.

Definition nextPowerOfTwo (length : nat) : Z := 2 ^ Z.of_nat (bitsLen length).

Definition breakPatterns_func (data : list A) (a b : nat) : list A :=
  let length := (b - a)%nat in
  if (8 <=? length)%nat then
    let modulus := nextPowerOfTwo length in
    let idx := (a + (length / 4) * 2 - 1)%nat in
    (foldl (λ (st : list A * Z) (i : nat),
              let random := xorshiftNext st.2 in
              let other := Z.to_nat (Z.land random (modulus - 1)) in
              let other := if (length <=? other)%nat then (other - length)%nat else other in
              (Swap st.1 (idx - 1 + i) (a + other), random))
           (data, Z.of_nat length) [0; 1; 2]%nat).1
  else data.

Inductive sortedHint := unknownHint | increasingHint | decreasingHint.

Definition order2_func (data : list A) (a b swaps : nat) : nat * nat * nat :=
  if Less data b a then (b, a, S swaps) else (a, b, swaps).

Definition median_func (data : list A) (a b c swaps : nat) : nat * nat :=
  let '(a, b, swaps) := order2_func data a b swaps in
  let '(b, c, swaps) := order2_func data b c swaps in
  let '(a, b, swaps) := order2_func data a b swaps in
  (b, swaps).

Definition medianAdjacent_func (data : list A) (a swaps : nat) : nat * nat :=
  median_func data (a - 1) a (a + 1) swaps.

Definition choosePivot_func (data : list A) (a b : nat) : nat * sortedHint :=
  let l := (b - a)%nat in
  let i := (a + l / 4 * 1)%nat in
  let j := (a + l / 4 * 2)%nat in
  let k := (a + l / 4 * 3)%nat in
  let '(j, swaps) :=
    if (8 <=? l)%nat then
      let '(i, j, k, swaps) :=
        if (50 <=? l)%nat then
          let '(i, swaps) := medianAdjacent_func data i 0 in
          let '(j, swaps) := medianAdjacent_func data j swaps in
          let '(k, swaps) := medianAdjacent_func data k swaps in
          (i, j, k, swaps)
        else (i, j, k, 0%nat) in
      median_func data i j k swaps
    else (j, 0%nat) in
  match swaps with
  | 0%nat => (j, increasingHint)
  | 12%nat => (j, decreasingHint)
  | _ => (j, unknownHint)
  end.

(** [for i < j { data.Swap(i, j); i++; j-- }] from [i = a], [j = b - 1]. *)
Definition reverseRange_func (data : list A) (a b : nat) : list A :=
  foldl (λ d k, Swap d (a + k) (b - 1 - k)) data (seq 0 ((b - a) / 2)).

(** [for i < b && !data.Less(i, i-1) { i++ }], with [n = b - i]. *)
Fixpoint skipOrdered (data : list A) (i n : nat) : nat :=
  match n with
  | O => i
  | S n' => if negb (Less data i (i - 1)) then skipOrdered data (S i) n' else i
  end.

(** [for j := ..; j >= 1; j-- { if !data.Less(j, j-1) { break }; data.Swap(j, j-1) }] *)
Fixpoint shiftLeft (j : nat) (data : list A) : list A :=
  match j with
  | O => data
  | S j' => if negb (Less data j j') then data else shiftLeft j' (Swap data j j')
  end.

(** [for j := ..; j < b; j++ { if !data.Less(j, j-1) { break }; data.Swap(j, j-1) }],
    with [n = b - j]. *)
Fixpoint shiftRight (data : list A) (j n : nat) : list A :=
  match n with
  | O => data
  | S n' =>
      if negb (Less data j (j - 1)) then data
      else shiftRight (Swap data j (j - 1)) (S j) n'
  end.

(** The loop [for j := 0; j < maxSteps; j++] of
    [partialInsertionSort_func], with [steps] turns left. *)
Fixpoint partialInsertionLoop (steps : nat) (data : list A) (a b i : nat)
    : list A * bool :=
  match steps with
  | O => (data, false)
  | S steps' =>
      let i := skipOrdered data i (b - i) in
      if (i =? b)%nat then (data, true)
      else if (b - a <? 50)%nat then (data, false)
      else
        let data := Swap data i (i - 1) in
        let data := if (2 <=? i - a)%nat then shiftLeft (i - 1) data else data in
        let data :=
          if (2 <=? b - i)%nat then shiftRight data (i + 1) (b - (i + 1)) else data in
        partialInsertionLoop steps' data a b i
  end.

Definition partialInsertionSort_func (data : list A) (a b : nat) : list A * bool :=
  partialInsertionLoop 5 data a b (a + 1).

(** [for i <= j && data.Less(i, a) { i++ }], with [n = j + 1 - i]. *)
Fixpoint skipLess (data : list A) (a i n : nat) : nat :=
  match n with
  | O => i
  | S n' => if Less data i a then skipLess data a (S i) n' else i
  end.

(** [for i <= j && !data.Less(j, a) { j-- }], with [n = j + 1 - i]. *)
Fixpoint skipNotLess (data : list A) (a j n : nat) : nat :=
  match n with
  | O => j
  | S n' => if negb (Less data j a) then skipNotLess data a (j - 1) n' else j
  end.

(** The [for] loop of [partition_func]; a turn that does not break
    brings [i] and [j] closer by two, and with no fuel left [i > j]. *)
Fixpoint partitionLoop (fuel : nat) (data : list A) (a i j : nat)
    : list A * nat * nat :=
  match fuel with
  | O => (data, i, j)
  | S fuel' =>
      let i := skipLess data a i (j + 1 - i) in
      let j := skipNotLess data a j (j + 1 - i) in
      if (j <? i)%nat then (data, i, j)
      else partitionLoop fuel' (Swap data i j) a (i + 1) (j - 1)
  end.

Definition partition_func (data : list A) (a b pivot : nat) : list A * nat * bool :=
  let data := Swap data a pivot in
  let i := (a + 1)%nat in
  let j := (b - 1)%nat in
  let i := skipLess data a i (j + 1 - i) in
  let j := skipNotLess data a j (j + 1 - i) in
  if (j <? i)%nat then (Swap data j a, j, true)
  else
    let data := Swap data i j in
    let '(data, i, j) := partitionLoop (j - i) data a (i + 1) (j - 1) in
    (Swap data j a, j, false).

(** [for i <= j && !data.Less(a, i) { i++ }], with [n = j + 1 - i]. *)
Fixpoint skipNotGreater (data : list A) (a i n : nat) : nat :=
  match n with
  | O => i
  | S n' => if negb (Less data a i) then skipNotGreater data a (S i) n' else i
  end.

(** [for i <= j && data.Less(a, j) { j-- }], with [n = j + 1 - i]. *)
Fixpoint skipGreater (data : list A) (a j n : nat) : nat :=
  match n with
  | O => j
  | S n' => if Less data a j then skipGreater data a (j - 1) n' else j
  end.

Fixpoint partitionEqualLoop (fuel : nat) (data : list A) (a i j : nat)
    : list A * nat :=
  match fuel with
  | O => (data, i)
  | S fuel' =>
      let i := skipNotGreater data a i (j + 1 - i) in
      let j := skipGreater data a j (j + 1 - i) in
      if (j <? i)%nat then (data, i)
      else partitionEqualLoop fuel' (Swap data i j) a (i + 1) (j - 1)
  end.

Definition partitionEqual_func (data : list A) (a b pivot : nat) : list A * nat :=
  let data := Swap data a pivot in
  partitionEqualLoop (b - a) data a (a + 1) (b - 1).

Definition isIncreasing (h : sortedHint) : bool :=
  match h with increasingHint => true | _ => false end.

(** [pdqsort_func]: every turn of its loop and every recursive call works
    on a strictly shorter range, which [fuel] bounds. *)
Fixpoint pdqsort_func (fuel : nat) (data : list A) (a b limit : nat)
    (wasBalanced wasPartitioned : bool) : list A :=
  match fuel with
  | O => data
  | S fuel' =>
      let length := (b - a)%nat in
      if (length <=? 12)%nat then insertionSort_func data a b
      else if (limit =? 0)%nat then heapSort_func data a b
      else
        let data := if wasBalanced then data else breakPatterns_func data a b in
        let limit := if wasBalanced then limit else (limit - 1)%nat in
        let '(pivot, hint) := choosePivot_func data a b in
        let data :=
          match hint with decreasingHint => reverseRange_func data a b | _ => data end in
        let pivot :=
          match hint with decreasingHint => (b - 1 - (pivot - a))%nat | _ => pivot end in
        let hint :=
          match hint with decreasingHint => increasingHint | _ => hint end in
        let '(data, sorted) :=
          if wasBalanced && wasPartitioned && isIncreasing hint
          then partialInsertionSort_func data a b else (data, false) in
        if sorted then data
        else if (0 <? a)%nat && negb (Less data (a - 1) pivot) then
          let '(data, mid) := partitionEqual_func data a b pivot in
          pdqsort_func fuel' data mid b limit wasBalanced wasPartitioned
        else
          let '(data, mid, alreadyPartitioned) := partition_func data a b pivot in
          let leftLen := (mid - a)%nat in
          let rightLen := (b - mid)%nat in
          let balanceThreshold := (length / 8)%nat in
          if (leftLen <? rightLen)%nat then
            let data := pdqsort_func fuel' data a mid limit true true in
            pdqsort_func fuel' data (mid + 1) b limit
              (balanceThreshold <=? leftLen)%nat alreadyPartitioned
          else
            let data := pdqsort_func fuel' data (mid + 1) b limit true true in
            pdqsort_func fuel' data a mid limit
              (balanceThreshold <=? rightLen)%nat alreadyPartitioned
  end.

(** [sort.Slice(x, less)]. *)
Definition Slice (data : list A) : list A :=
  let n := length data in
  pdqsort_func (n + 1) data 0 n (bitsLen n) true true.

End Sort.

End GoSort.

(** *** Vocabulary for the properties of the sort *)

(** The elements of [l] at the indices [a <= k < b]. *)
Definition seg {A} (a b : nat) (l : list A) : list A := take (b - a) (drop a l).

(** [l'] is [l] with the range [a, b) permuted and the rest untouched. *)
Definition rangePerm {A} (a b : nat) (l l' : list A) : Prop :=
  length l' = length l
  ∧ (∀ k, (k < a ∨ b <= k)%nat → l' !! k = l !! k)
  ∧ seg a b l ≡ₚ seg a b l'.

(** No element of the range [a, b) is followed, within the range, by one
    that [less] puts before it. *)
Definition sortedOn {A} (less : A → A → bool) (a b : nat) (l : list A) : Prop :=
  ∀ i j x y, (a <= i)%nat → (i < j)%nat → (j < b)%nat →
    l !! i = Some x → l !! j = Some y → less y x = false.

(** Every element of the range [a, b) satisfies [Q]. *)
Definition allOn {A} (Q : A → Prop) (a b : nat) (l : list A) : Prop :=
  ∀ k x, (a <= k < b)%nat → l !! k = Some x → Q x.

(** [less] is a strict weak order on the elements that satisfy [P]. *)
Record StrictWeakOn {A} (P : A → Prop) (less : A → A → bool) : Prop := {
  swo_irrefl : ∀ x, P x → less x x = false;
  swo_trans : ∀ x y z, P x → P y → P z →
    less x y = true → less y z = true → less x z = true;
  swo_ntrans : ∀ x y z, P x → P y → P z →
    less x y = false → less y z = false → less x z = false;
}.

(** Two [tied] elements, the first before the second in [l0], are found
    in that order in [l]. *)
Definition orderKept {A} (tied : A → A → Prop) (l0 l : list A) : Prop :=
  ∀ (i j : nat) x y, (i < j)%nat → l0 !! i = Some x → l0 !! j = Some y → tied x y →
    ∃ i' j' : nat, (i' < j')%nat ∧ l !! i' = Some x ∧ l !! j' = Some y.

(** The invariant of the partition loops around the pivot element [p]
    kept at index [a]: [front] holds on [a+1, i) and [back] on [j+1, b). *)
Definition partInv {A} (front back : A → Prop) (p : A) (a b : nat)
    (l0 l : list A) (i j : nat) : Prop :=
  rangePerm a b l0 l ∧ l !! a = Some p
  ∧ allOn front (a + 1) i l ∧ allOn back (j + 1) b l
  ∧ (a + 1 <= i <= j + 1)%nat ∧ (j < b)%nat.

(** The element just before the range, if there is one, is not greater
    than any element of the range [a, b). *)
Definition leftBound {A} (less : A → A → bool) (a b : nat) (l : list A) : Prop :=
  ∀ y, (0 < a)%nat → l !! (a - 1)%nat = Some y → allOn (λ x, less x y = false) a b l.

(** Heap order on the nodes [lo <= r] of the heap of size [hi] stored
    from index [first]: no node satisfying [sel] is less than one of its
    children. *)
Definition heapProp {A} (less : A → A → bool) (sel : nat → Prop)
    (first lo hi : nat) (l : list A) : Prop :=
  ∀ r c x y, (lo <= r)%nat → sel r → (c = 2 * r + 1 ∨ c = 2 * r + 2)%nat → (c < hi)%nat →
    l !! (first + r)%nat = Some x → l !! (first + c)%nat = Some y → less x y = false.

(** ** Detection post-processor ([multiclassNMS], [computeIoU]) *)

Record BBox := { X1 : Z; Y1 : Z; X2 : Z; Y2 : Z }.

(** The local type [detection] of [multiclassNMS]. *)
Record detection := { box : BBox; score : F32.t }.

Global Instance BBox_inhabited : Inhabited BBox :=
  populate {| X1 := 0; Y1 := 0; X2 := 0; Y2 := 0 |}.
Global Instance detection_inhabited : Inhabited detection :=
  populate {| box := inhabitant; score := F32.zero |}.

(** [(x2 - x1) * (y2 - y1)] in [int] arithmetic. *)
Definition intArea (x1 y1 x2 y2 : Z) : Z :=
  GoInt.mul (GoInt.sub x2 x1) (GoInt.sub y2 y1).

Definition computeIoU (a b : BBox) : F32.t :=
  let x1 := Z.max (X1 a) (X1 b) in
  let y1 := Z.max (Y1 a) (Y1 b) in
  let x2 := Z.min (X2 a) (X2 b) in
  let y2 := Z.min (Y2 a) (Y2 b) in
  if bool_decide (x2 <= x1) || bool_decide (y2 <= y1) then F32.zero
  else
    let inter := F32.of_int (intArea x1 y1 x2 y2) in
    let areaA := F32.of_int (intArea (X1 a) (Y1 a) (X2 a) (Y2 a)) in
    let areaB := F32.of_int (intArea (X1 b) (Y1 b) (X2 b) (Y2 b)) in
    F32.div inter (F32.sub (F32.add areaA areaB) inter).

(** The loop [for j := 5; j < len(pred); j++] that keeps the greatest
    class score, starting from 0. *)
Definition maxClassScoreOf (pred : list F32.t) : F32.t :=
  foldl (λ maxClassScore v, if F32.gt v maxClassScore then v else maxClassScore)
        F32.zero (drop 5 pred).

(** Centre form to corner form, division by the ratio, clipping. *)
Definition clipBox (cx cy w h ratio : F32.t) (origW origH : Z) : option BBox :=
  x1 ← int_of_float32 (F32.div (F32.sub cx (F32.div w F32.two)) ratio);
  y1 ← int_of_float32 (F32.div (F32.sub cy (F32.div h F32.two)) ratio);
  x2 ← int_of_float32 (F32.div (F32.add cx (F32.div w F32.two)) ratio);
  y2 ← int_of_float32 (F32.div (F32.add cy (F32.div h F32.two)) ratio);
  let x1 := if bool_decide (x1 < 0) then 0 else x1 in
  let y1 := if bool_decide (y1 < 0) then 0 else y1 in
  let x2 := if bool_decide (origW < x2) then origW else x2 in
  let y2 := if bool_decide (origH < y2) then origH else y2 in
  Some {| X1 := x1; Y1 := y1; X2 := x2; Y2 := y2 |}.

(** One iteration of [for _, pred := range predictions]: the detection
    appended to [dets], if any.  The outer [None] is a panic or an
    implementation-dependent conversion. *)
Definition predDetection (pred : list F32.t) (ratio : F64.t) (origW origH : Z)
    (scoreThr : F32.t) : option (option detection) :=
  objScore ← slice_at pred 4;
  let score := F32.mul objScore (maxClassScoreOf pred) in
  if F32.lt score scoreThr then Some None
  else
    cx ← slice_at pred 0; cy ← slice_at pred 1;
    w ← slice_at pred 2; h ← slice_at pred 3;
    b ← clipBox cx cy w h (float32_of_float64 ratio) origW origH;
    Some (Some {| box := b; score := score |}).

(** The slice [dets] when the first loop ends. *)
Fixpoint collectDets (predictions : list (list F32.t)) (ratio : F64.t)
    (origW origH : Z) (scoreThr : F32.t) : option (list detection) :=
  match predictions with
  | [] => Some []
  | pred :: rest =>
      d ← predDetection pred ratio origW origH scoreThr;
      ds ← collectDets rest ratio origW origH scoreThr;
      Some (match d with Some det => det :: ds | None => ds end)
  end.

(** The comparison handed to [sort.Slice]: [dets[i].score > dets[j].score]. *)
Definition scoreGreater (di dj : detection) : bool := F32.gt (score di) (score dj).

(** One iteration of the inner loop [for j := i + 1; j < len(dets); j++]. *)
Definition suppressStep (nmsThr : F32.t) (dets : list detection) (i : nat)
    (used : list bool) (j : nat) : list bool :=
  if (used !!! j : bool) then used
  else if F32.gt (computeIoU (box (dets !!! i)) (box (dets !!! j))) nmsThr
       then <[j := true]> used
       else used.

(** One iteration of the outer loop [for i := 0; i < len(dets); i++], on
    the state [(result, used)]. *)
Definition acceptStep (nmsThr : F32.t) (dets : list detection)
    (st : list BBox * list bool) (i : nat) : list BBox * list bool :=
  let '(result, used) := st in
  if (used !!! i : bool) then st
  else (result ++ [box (dets !!! i)],
        foldl (suppressStep nmsThr dets i) used
              (seq (S i) (length dets - S i))).

(** The greedy suppression pass over the sorted [dets]. *)
Definition nmsPass (nmsThr : F32.t) (dets : list detection) : list BBox :=
  (foldl (acceptStep nmsThr dets) ([], replicate (length dets) false)
         (seq 0 (length dets))).1.

(** ** The order of binary32 values *)

(** A key whose lexicographic order is the order [SFcompare] decides on
    values that are not NaN: class first (infinities, sign), then exponent,
    then mantissa, the last two negated for negative values. *)
Definition orderKey (x : F32.t) : Z * Z * Z :=
  match x with
  | S754_nan => (0, 0, 0)
  | S754_zero _ => (0, 0, 0)
  | S754_infinity true => (-2, 0, 0)
  | S754_infinity false => (2, 0, 0)
  | S754_finite true m e => (-1, - e, - Z.pos m)
  | S754_finite false m e => (1, e, Z.pos m)
  end.

Definition keyLt (k1 k2 : Z * Z * Z) : Prop :=
  k1.1.1 < k2.1.1
  ∨ (k1.1.1 = k2.1.1
     ∧ (k1.1.2 < k2.1.2 ∨ (k1.1.2 = k2.1.2 ∧ k1.2 < k2.2))).

(** The score the decoder reads for class [c] at [offset]. *)
Definition scoreAt (output : list F32.t) (offset c : Z) : option F32.t :=
  slice_at output (GoInt.add offset c).

(** Every eligible entry of [cs] (one below [numClasses]) has a score, and
    it is not NaN. *)
Definition scoresOK (output : list F32.t) (offset numClasses : Z) (cs : list Z) : Prop :=
  ∀ c, c ∈ cs → c < numClasses →
       ∃ v, scoreAt output offset c = Some v ∧ F32.is_nan v = false.

(** Three scores with indices 1 and 2 tied at -1.5e9 above index 0 at
    -2e9, all below the initial [maxVal] of the restricted scan. *)
Definition lowTieScores : list F32.t :=
  [S754_finite true 15625000 7;
   S754_finite true 11718750 7;
   S754_finite true 11718750 7].

(** Scores with indices 1 and 2 tied at the maximum. *)
Definition tieScores : list F32.t := [F32.zero; F32.two; F32.two; F32.one].

(** No box of [r] suppresses a later one: for positions [p < q] the test
    [iou > nmsThr] of the suppression loop fails. *)
Definition pairwiseKept (nmsThr : F32.t) (r : list BBox) : Prop :=
  ∀ (p q : nat) bp bq, (p < q)%nat → r !! p = Some bp → r !! q = Some bq →
    F32.gt (computeIoU bp bq) nmsThr = false.

(** The invariant of the outer loop when index [i] is reached. *)
Definition nmsInv (nmsThr : F32.t) (dets : list detection) (i : nat)
    (st : list BBox * list bool) : Prop :=
  length st.2 = length dets
  ∧ pairwiseKept nmsThr st.1
  ∧ ∀ b (j : nat), b ∈ st.1 → (i <= j < length dets)%nat →
      F32.gt (computeIoU b (box (dets !!! j))) nmsThr = true →
      st.2 !! j = Some true.

(** The exact area of a box, without wrap-around. *)
Definition areaOf (b : BBox) : Z := (X2 b - X1 b) * (Y2 b - Y1 b).

(** The intersection rectangle of two boxes. *)
Definition interOf (a b : BBox) : BBox :=
  {| X1 := Z.max (X1 a) (X1 b); Y1 := Z.max (Y1 a) (Y1 b);
     X2 := Z.min (X2 a) (X2 b); Y2 := Z.min (Y2 a) (Y2 b) |}.

Definition squareBox (lo hi : Z) : BBox := {| X1 := lo; Y1 := lo; X2 := hi; Y2 := hi |}.

(** The thresholds [Detection] passes: [float32(0.45)] and [float32(0.1)]. *)
Definition nmsThr045 : F32.t := S754_finite false 15099494 (-25).
Definition scoreThr01 : F32.t := S754_finite false 13421773 (-27).

(** The slice [dets] after [sort.Slice]. *)
Definition sortedDets (predictions : list (list F32.t)) (ratio : F64.t)
    (origW origH : Z) (scoreThr : F32.t) : option (list detection) :=
  GoSort.Slice scoreGreater <$> collectDets predictions ratio origW origH scoreThr.

Definition multiclassNMS (predictions : list (list F32.t)) (ratio : F64.t)
    (origW origH : Z) (nmsThr scoreThr : F32.t) : option (list BBox) :=
  nmsPass nmsThr <$> sortedDets predictions ratio origW origH scoreThr.

(** A prediction row [cx, cy, w, h, objectness, class score] with integer
    geometry. *)
Definition predRow (cx cy w h : Z) (obj cls : F32.t) : list F32.t :=
  [F32.of_int cx; F32.of_int cy; F32.of_int w; F32.of_int h; obj; cls].

Definition half : F32.t := S754_finite false 8388608 (-24).

(** Thirteen disjoint boxes in a row, the first twelve with score 0.5 and
    the last with score 1. *)
Definition tiedPredictions : list (list F32.t) :=
  ((λ k, predRow (100 * k + 50) 50 20 20 F32.one half) <$> seqZ 0 12)
  ++ [predRow 1250 50 20 20 F32.one F32.one].


(** The detections of [sd] come in descending order of score: none is
    followed by one of greater score. *)
Definition descendingScores (sd : list detection) : Prop :=
  ∀ (i j : nat) di dj, (i < j)%nat → sd !! i = Some di → sd !! j = Some dj →
    scoreGreater dj di = false.

(** Ties keep their order from [ds] to [sd]: two detections of equal score,
    the first before the second in [ds], are found in that order in [sd]. *)
Definition tiesKeepOrder (ds sd : list detection) : Prop :=
  orderKept (λ di dj, F32.eq (score di) (score dj) = true) ds sd.

(** Three candidates in descending order of score; the second overlaps the
    first with IoU 81/119. *)
Definition overlappingDets : list detection :=
  [ {| box := squareBox 0 10; score := F32.one |};
    {| box := squareBox 1 11; score := half |};
    {| box := squareBox 20 30; score := half |} ].

(** A 10x10 prediction centred at x = 1000, to the right of a 100x100
    image. *)
Definition outsidePrediction : list (list F32.t) :=
  [predRow 1000 50 10 10 F32.one F32.one].

(** Three disjoint boxes; the first and the last have the score 0.5, the
    second the score 1. *)
Definition shortTiedPredictions : list (list F32.t) :=
  [predRow 50 50 20 20 F32.one half;
   predRow 150 50 20 20 F32.one F32.one;
   predRow 250 50 20 20 F32.one half].

(** ** Vocabulary for further properties *)

(** What every index the decoder writes satisfies: it is not the blank, it
    is below the charset length and the class count, and it comes from
    the allowed list when there is one. *)
Definition emittable (charsetLen numClasses : Z) (allowedIndices : list Z) (i : Z) : Prop :=
  i ≠ 0 ∧ i < charsetLen ∧ i < numClasses
  ∧ match allowedIndices with [] => 0 < i | _ :: _ => i ∈ allowedIndices end.

(** The loop [for i, c := range d.charsets { d.charIndexMap[c] = i }] of
    [initOcrMode] and [initCustomModel], entered with the map [m] and the
    index [i]. *)
Fixpoint indexCharsets (m : gmap string Z) (i : Z) (charsets : list string)
    : gmap string Z :=
  match charsets with
  | [] => m
  | c :: rest => indexCharsets (<[c := i]> m) (i + 1) rest
  end.

(** The fields of the recognizer once [initOcrMode] or [initCustomModel]
    has loaded the charset [cs]: [New] makes the map empty and leaves
    [allowedIndices] nil. *)
Definition loadedOcr (cs : list string) : DdddOcr :=
  {| charsets := cs; charsetLen := len cs;
     charIndexMap := indexCharsets ∅ 0 cs; allowedIndices := [] |}.

(** The recognizer's reverse map and charset length are those built from
    its charset. *)
Definition indexed (d : DdddOcr) : Prop :=
  charIndexMap d = indexCharsets ∅ 0 (charsets d) ∧ charsetLen d = len (charsets d).

(** The value of [chars] when the [switch] of [SetRanges] is left:
    [None] stands for the two [default] branches, which return early. *)
Definition rangeChars (strings_Contains : string → string → bool)
    (d : DdddOcr) (val : RangeVal) : option string :=
  match val with
  | ValString v => Some v
  | ValInt v => presetChars strings_Contains d v
  | ValOther => None
  end.

(** What the outer loop of the suppression pass has recorded when index
    [i] is reached: a marked detection is overlapped above the threshold
    by an earlier accepted one, an unmarked detection before [i] has been
    accepted, and the accepted boxes follow the order of [dets]. *)
Definition nmsTrace (nmsThr : F32.t) (dets : list detection) (i : nat)
    (st : list BBox * list bool) : Prop :=
  length st.2 = length dets
  ∧ (∀ j : nat, st.2 !! j = Some true →
       ∃ (k : nat) dk, (k < j)%nat ∧ (k < i)%nat ∧ dets !! k = Some dk
         ∧ box dk ∈ st.1
         ∧ F32.gt (computeIoU (box dk) (box (dets !!! j))) nmsThr = true)
  ∧ (∀ (j : nat) d, (j < i)%nat → dets !! j = Some d → st.2 !! j = Some false →
       box d ∈ st.1)
  ∧ st.1 `sublist_of` (box <$> take i dets).

(** The boxes of the detections before index [i] that [used] does not
    mark, in the order of [dets]. *)
Definition keptBoxes (dets : list detection) (used : list bool) (i : nat) : list BBox :=
  omap (λ j, if (used !!! j : bool) then None else Some (box (dets !!! j))) (seq 0 i).

(** Two candidates, far apart. *)
Definition separateDets : list detection :=
  [ {| box := squareBox 0 10; score := F32.one |};
    {| box := squareBox 20 30; score := half |} ].

(** ** Difference and binarization ([SlideComparison]) *)

(** Arithmetic on [uint8] wraps modulo 256. *)
Definition uint8 (z : Z) : Z := z mod 256.

Definition absDiff (a b : Z) : Z :=
  if bool_decide (b < a) then uint8 (a - b) else uint8 (b - a).

(** An [*image.RGBA] while it is filled: the size of its rectangle and the
    opaque colours [color.RGBA{r, g, b, 255}] stored so far, by offset
    from [bounds.Min].  [image.NewRGBA] stores none. *)
Record RGBAImage := {
  rgbaDx : Z;
  rgbaDy : Z;
  rgbaPix : gmap (Z * Z) (Z * Z * Z);
}.

Definition NewRGBA (w h : Z) : RGBAImage :=
  {| rgbaDx := w; rgbaDy := h; rgbaPix := ∅ |}.

(** [img.Set(x, y, color.RGBA{r, g, b, 255})]: a point outside the
    rectangle is ignored. *)
Definition SetRGB (img : RGBAImage) (x y : Z) (c : Z * Z * Z) : RGBAImage :=
  if bool_decide (0 <= x < rgbaDx img ∧ 0 <= y < rgbaDy img)
  then {| rgbaDx := rgbaDx img; rgbaDy := rgbaDy img;
          rgbaPix := <[(x, y) := c]> (rgbaPix img) |}
  else img.

(** The image as its readers see it: [At(x, y).RGBA()] of a stored
    [color.RGBA{r, g, b, 255}] is [(r * 257, g * 257, b * 257)], and a
    point that was never set reads as zero. *)
Definition readRGBA (img : RGBAImage) : Image :=
  {| Dx := rgbaDx img; Dy := rgbaDy img;
     RGBA := λ x y,
       match rgbaPix img !! (x, y) with
       | Some (r, g, b) => (r * 257, g * 257, b * 257)
       | None => (0, 0, 0)
       end |}.

(** The 8-bit channels [uint8(r>>8), uint8(g>>8), uint8(b>>8)] of a pixel. *)
Definition pixel8 (img : Image) (x y : Z) : Z * Z * Z :=
  let '(r, g, b) := RGBA img x y in (uint8_shr8 r, uint8_shr8 g, uint8_shr8 b).

Definition imageDifferenceRGB (img1 img2 : Image) : RGBAImage :=
  let w := Dx img1 in
  let h := Dy img1 in
  let w := if bool_decide (Dx img2 < w) then Dx img2 else w in
  let h := if bool_decide (Dy img2 < h) then Dy img2 else h in
  foldl (λ result y,
           foldl (λ result x,
                    let '(r1, g1, b1) := pixel8 img1 x y in
                    let '(r2, g2, b2) := pixel8 img2 x y in
                    SetRGB result x y (absDiff r1 r2, absDiff g1 g2, absDiff b1 b2))
                 result (seqZ 0 w))
        (NewRGBA w h) (seqZ 0 h).

(** [if c8 > threshold { c8 = 255 } else { c8 = 0 }] *)
Definition binarize8 (threshold c8 : Z) : Z :=
  if bool_decide (threshold < c8) then 255 else 0.

Definition binarizeRGB (img : Image) (threshold : Z) : RGBAImage :=
  foldl (λ result y,
           foldl (λ result x,
                    let '(r8, g8, b8) := pixel8 img x y in
                    SetRGB result x y
                      (binarize8 threshold r8, binarize8 threshold g8,
                       binarize8 threshold b8))
                 result (seqZ 0 (Dx img)))
        (NewRGBA (Dx img) (Dy img)) (seqZ 0 (Dy img)).

(** [SlideComparison] from the two images in RGBA form on: the
    difference, its binarization at 80 and the column scan with a
    minimum count of 5. *)
Definition slideComparisonTarget (background target : Image) : Z * Z :=
  let diff := imageDifferenceRGB background target in
  let binaryImg := binarizeRGB (readRGBA diff) 80 in
  findGapPython (readRGBA binaryImg) 5.

(** Two 2x1 images that differ by 100 on the red channel of the pixel at
    [x = 1]. *)
Definition slideBackground : Image := imageOfRows 2 1 [[(10, 20, 30); (200, 20, 30)]].
Definition slideTarget : Image := imageOfRows 2 1 [[(10, 20, 30); (100, 20, 30)]].

(** The absolute differences of the 8-bit channels of two pixels. *)
Definition channelDiffs (img1 img2 : Image) (x y : Z) : Z * Z * Z :=
  let '(r1, g1, b1) := pixel8 img1 x y in
  let '(r2, g2, b2) := pixel8 img2 x y in
  (Z.abs (r1 - r2), Z.abs (g1 - g2), Z.abs (b1 - b2)).

(** Some channel of the triple exceeds [t]. *)
Definition exceeds (t : Z) (c : Z * Z * Z) : Prop :=
  t < c.1.1 ∨ t < c.1.2 ∨ t < c.2.

(** ** Grid decode ([demoPostprocess]) *)

(** The grid cells [[]float32{float32(x), float32(y)}] appended stride by
    stride, row by row, and the stride appended with each of them. *)
Definition demoGrids (imgSize0 imgSize1 : Z) : list (list F32.t) :=
  stride ← [8; 16; 32];
  y ← seqZ 0 (imgSize0 `quot` stride);
  x ← seqZ 0 (imgSize1 `quot` stride);
  [[F32.of_int x; F32.of_int y]].

Definition demoStrides (imgSize0 imgSize1 : Z) : list F32.t :=
  stride ← [8; 16; 32];
  y ← seqZ 0 (imgSize0 `quot` stride);
  x ← seqZ 0 (imgSize1 `quot` stride);
  [F32.of_int stride].

Section DemoPostprocess.

(** Go's [math.Exp], a standard-library function. *)
Variable math_Exp : F64.t → F64.t.

(** [float64(x)] of a [float32]: every binary32 value is a binary64 value. *)
Definition float64_of_float32 (x : F32.t) : F64.t := x.

(** The body of the loop [for i := 0; i < numAnchors; i++]: the row
    [pred].  [make] panics on a negative length and the four assignments
    [pred[0..3] = ...] need a length of at least 4. *)
Definition demoPred (outputs : list F32.t) (grids : list (list F32.t))
    (expandedStrides : list F32.t) (numClasses i : Z) : option (list F32.t) :=
  let n := GoInt.add 5 numClasses in
  if bool_decide (n < 4) then None
  else
    let base := GoInt.mul i n in
    grid ← slice_at grids i;
    stride ← slice_at expandedStrides i;
    o0 ← slice_at outputs (GoInt.add base 0); g0 ← slice_at grid 0;
    o1 ← slice_at outputs (GoInt.add base 1); g1 ← slice_at grid 1;
    o2 ← slice_at outputs (GoInt.add base 2);
    o3 ← slice_at outputs (GoInt.add base 3);
    rest ← mapM (λ j, slice_at outputs (GoInt.add base j)) (seqZ 4 (n - 4));
    Some ([F32.mul (F32.add o0 g0) stride;
           F32.mul (F32.add o1 g1) stride;
           F32.mul (float32_of_float64 (math_Exp (float64_of_float32 o2))) stride;
           F32.mul (float32_of_float64 (math_Exp (float64_of_float32 o3))) stride]
          ++ rest).

(** [len(outputs)/numAnchors] panics when no grid cell exists. *)
Definition demoPostprocess (outputs : list F32.t) (imgSize0 imgSize1 : Z)
    : option (list (list F32.t)) :=
  let grids := demoGrids imgSize0 imgSize1 in
  let expandedStrides := demoStrides imgSize0 imgSize1 in
  let numAnchors := len grids in
  if bool_decide (numAnchors = 0) then None
  else
    let numClasses := GoInt.sub (len outputs `quot` numAnchors) 5 in
    mapM (demoPred outputs grids expandedStrides numClasses) (seqZ 0 numAnchors).

End DemoPostprocess.

(** The number of grid cells: [(h/8)*(w/8) + (h/16)*(w/16) + (h/32)*(w/32)]. *)
Definition anchorCount (imgSize0 imgSize1 : Z) : Z :=
  Z.max 0 (imgSize0 `quot` 8) * Z.max 0 (imgSize1 `quot` 8)
  + Z.max 0 (imgSize0 `quot` 16) * Z.max 0 (imgSize1 `quot` 16)
  + Z.max 0 (imgSize0 `quot` 32) * Z.max 0 (imgSize1 `quot` 32).

(** A stand-in for [math.Exp] in examples: any function will do where the
    exponential's values play no part. *)
Definition constExp : F64.t → F64.t := λ _, F64.one.

(** The output of a one-cell grid with one class, and one that is a
    value short of a row. *)
Definition oneCellOutput : list F32.t :=
  [F32.zero; F32.zero; F32.zero; F32.zero; F32.one; half].
Definition shortCellOutput : list F32.t := [F32.zero; F32.zero; F32.zero; F32.zero].

(** ** Probabilities ([softmax]) *)

Section Softmax.

(** Go's [math.Exp], a standard-library function. *)
Variable math_Exp : F64.t → F64.t.






End Softmax.





(** * Properties *)

Lemma append_nil_r (s : string) : s +:+ "" = s.
Proof.
  induction s as [|c s IH]; [reflexivity|].
  unfold String.append in *; simpl; fold String.append in *. by rewrite IH.
Qed.

Lemma append_assoc (s1 s2 s3 : string) : (s1 +:+ s2) +:+ s3 = s1 +:+ (s2 +:+ s3).
Proof.
  induction s1 as [|c s1 IH]; [reflexivity|].
  unfold String.append in *; simpl; fold String.append in *. by rewrite IH.
Qed.

Lemma emits_spec (charsetLen lastIdx maxIdx : Z) :
  emits charsetLen lastIdx maxIdx
  = bool_decide (maxIdx ≠ lastIdx ∧ maxIdx ≠ 0 ∧ maxIdx < charsetLen).
Proof. unfold emits. repeat case_bool_decide; simpl; try reflexivity; tauto. Qed.

Lemma textOf_cons (charsets : list string) (i : Z) (rest : list Z) :
  textOf charsets (i :: rest)
  = s ← slice_at charsets i; r ← textOf charsets rest; Some (s +:+ r).
Proof.
  unfold textOf. simpl.
  destruct (slice_at charsets i) as [s|]; simpl; [|reflexivity].
  destruct (mapM (slice_at charsets) rest) as [k|]; reflexivity.
Qed.

(** The fused loop computes the text of the collapsed arg-max path,
    appended to the builder's content. *)
Lemma decodeLoop_refines output batchSize numClasses charsets charsetLen allowed :
  ∀ (n : nat) (t lastIdx : Z) (sb : string),
    decodeLoop output batchSize numClasses charsets charsetLen allowed n t lastIdx sb
    = path ← argmaxPath output batchSize numClasses allowed n t;
      text ← textOf charsets (collapse charsetLen lastIdx path);
      Some (sb +:+ text).
Proof.
  induction n as [|n IH]; intros t lastIdx sb; simpl.
  - by rewrite append_nil_r.
  - destruct (argmaxAt _ _ _ _) as [i|]; simpl; [|reflexivity].
    unfold writeIndex. rewrite emits_spec.
    destruct (argmaxPath output batchSize numClasses allowed n (t + 1))
      as [rest|] eqn:Hrest; simpl.
    + case_bool_decide; simpl.
      * rewrite textOf_cons.
        destruct (slice_at charsets i) as [s|]; simpl; [|reflexivity].
        rewrite IH, Hrest; simpl.
        destruct (textOf charsets (collapse charsetLen i rest)); simpl;
          [by rewrite append_assoc | reflexivity].
      * by rewrite IH, Hrest.
    + case_bool_decide; simpl.
      * destruct (slice_at charsets i) as [s|]; simpl; [|reflexivity].
        by rewrite IH, Hrest.
      * by rewrite IH, Hrest.
Qed.

Lemma collapse_emitted (charsetLen : Z) (path : list Z) :
  ∀ lastIndex, Forall (λ i, i ≠ 0 ∧ i < charsetLen) (collapse charsetLen lastIndex path).
Proof.
  induction path as [|i path IH]; intros lastIndex; simpl; [constructor|].
  case_bool_decide; [constructor; [tauto|]|]; apply IH.
Qed.

Lemma append_nil_l (s : string) : "" +:+ s = s.
Proof. reflexivity. Qed.

(** C1. The decoder scans the timesteps in order and emits the symbol of
    the selected index exactly when the index differs from the previous
    one, is not the blank 0 and is below the charset length: its result is
    the text of the collapsed arg-max path.  No emitted index is 0, the
    path [a,a,0,a] yields the symbol of [a] twice and [a,a,a] yields it
    once. *)
Theorem decode_collapse_law
    (output : list F32.t) (shape : list Z) (charsets : list string)
    (charsetLen : Z) (allowed : list Z) (T B C a : Z) (s : string) :
  shapeDims shape = Some (T, B, C) →
  0 < a < charsetLen →
  slice_at charsets a = Some s →
  decodeOutputFloatFast output shape charsets charsetLen allowed
    = (path ← argmaxPath output B C allowed (Z.to_nat T) 0;
       textOf charsets (collapse charsetLen (-1) path))
  ∧ (∀ path : list Z,
       Forall (λ i, i ≠ 0 ∧ i < charsetLen) (collapse charsetLen (-1) path))
  ∧ (argmaxPath output B C allowed (Z.to_nat T) 0 = Some [a; a; 0; a] →
       decodeOutputFloatFast output shape charsets charsetLen allowed
       = Some (s +:+ s))
  ∧ (argmaxPath output B C allowed (Z.to_nat T) 0 = Some [a; a; a] →
       decodeOutputFloatFast output shape charsets charsetLen allowed
       = Some s).
Proof.
  intros Hshape Ha Hs.
  assert (Hdec : decodeOutputFloatFast output shape charsets charsetLen allowed
    = (path ← argmaxPath output B C allowed (Z.to_nat T) 0;
       textOf charsets (collapse charsetLen (-1) path))).
  { unfold decodeOutputFloatFast. rewrite Hshape, decodeLoop_refines.
    destruct (argmaxPath _ _ _ _ _ _) as [path|]; simpl; [|reflexivity].
    destruct (textOf _ _); reflexivity. }
  split; [exact Hdec|]. split; [intros path; apply collapse_emitted|].
  split; intros Hpath; rewrite Hdec, Hpath; simpl;
    repeat (case_bool_decide; try lia); unfold textOf; simpl; rewrite Hs; simpl.
  - by rewrite append_nil_r.
  - by rewrite append_nil_r.
Qed.

(** ** Malformed shapes *)

(** C8 (as stated, refuted). For a 4-D shape the decoding step of
    [ClassificationWithOptions] returns the empty text with a nil error:
    nothing is reported to the caller. *)
Lemma bad_shape_reports_no_error :
  classificationDecode exampleOcr (TensorFloat32 [F32.one; F32.two] [1; 1; 1; 2])
  = Some ("", None).
Proof. reflexivity. Qed.

(** C8 (amended). When the shape is neither 2-D nor 3-D the decoder
    returns the empty string, whatever the tensor holds, and the decoding
    step of [ClassificationWithOptions] hands it to the caller with a nil
    error. *)
Theorem bad_shape_empty_text (d : DdddOcr) (data : list F32.t) (shape : list Z) :
  length shape ≠ 2%nat → length shape ≠ 3%nat →
  decodeOutputFloatFast data shape (charsets d) (charsetLen d) (allowedIndices d)
    = Some ""
  ∧ classificationDecode d (TensorFloat32 data shape) = Some ("", None).
Proof.
  intros H2 H3.
  assert (Hdims : shapeDims shape = None).
  { destruct shape as [|t [|b [|c [|? ?]]]]; simpl in *; congruence. }
  assert (Hdec : decodeOutputFloatFast data shape (charsets d) (charsetLen d)
                   (allowedIndices d) = Some "").
  { unfold decodeOutputFloatFast. by rewrite Hdims. }
  split; [exact Hdec|]. unfold classificationDecode. by rewrite Hdec.
Qed.

Lemma bad_shape_empty_text_witness :
  decodeOutputFloatFast [F32.one] [1] (charsets exampleOcr) (charsetLen exampleOcr)
    (allowedIndices exampleOcr) = Some ""
  ∧ classificationDecode exampleOcr (TensorFloat32 [F32.one] [1]) = Some ("", None).
Proof. apply bad_shape_empty_text; simpl; lia. Defined.

(** ** Range selector *)

(** C10. [SetRanges] with an int outside the presets 0..7, or with a value
    that is neither a string nor an int, leaves [allowedIndices] nil; the
    charset is untouched, and the decoder then takes the unrestricted scan
    at every timestep, as it does with no restriction. *)
Theorem SetRanges_default_clears
    (strings_Split : string → list string)
    (strings_Contains : string → string → bool)
    (d : DdddOcr) (val : RangeVal) :
  match val with
  | ValString _ => False
  | ValInt v => ¬ (RangeDigit <= v <= RangeNonAlphaNum)
  | ValOther => True
  end →
  let d' := SetRanges strings_Split strings_Contains d val in
  allowedIndices d' = []
  ∧ charsets d' = charsets d ∧ charsetLen d' = charsetLen d
  ∧ (∀ output offset numClasses,
       argmaxAt output offset numClasses (allowedIndices d')
       = maxVal ← slice_at output offset;
         fst <$> scanAll output offset (seqZ 1 (numClasses - 1)) 0 maxVal)
  ∧ (∀ output shape,
       decodeOutputFloatFast output shape (charsets d') (charsetLen d')
         (allowedIndices d')
       = decodeOutputFloatFast output shape (charsets d) (charsetLen d) []).
Proof.
  intros Hval d'.
  assert (Hd' : d' = setAllowedIndices d []).
  { subst d'. destruct val as [v|v|]; simpl; [done| |done].
    unfold RangeDigit, RangeNonAlphaNum in Hval.
    destruct v as [|p|p]; simpl; try reflexivity; [lia|].
    do 3 (destruct p as [p|p|]; simpl; try reflexivity; try lia). }
  rewrite Hd'. simpl. repeat split; reflexivity.
Qed.

Lemma SetRanges_default_clears_witness :
  allowedIndices (SetRanges splitBytes containsString exampleOcr (ValInt 8)) = [].
Proof.
  apply (SetRanges_default_clears splitBytes containsString exampleOcr (ValInt 8)).
  unfold RangeDigit, RangeNonAlphaNum. lia.
Defined.

Lemma decode_collapse_law_witness :
  decodeOutputFloatFast examplePathScores [4; 1; 3] [""; "a"; "b"] 3 [] = Some "aa".
Proof.
  pose proof (decode_collapse_law examplePathScores [4; 1; 3] [""; "a"; "b"] 3 []
                4 1 3 1 "a" eq_refl ltac:(lia) eq_refl) as (_ & _ & H & _).
  apply H. reflexivity.
Defined.

(** ** Column scan *)

Section ColumnScan.

Variable img : Image.
Hypothesis Dy_int : Dy img <= GoInt.max_int.

Lemma wrap_small (z : Z) : GoInt.min_int <= z <= GoInt.max_int → GoInt.wrap z = z.
Proof.
  unfold GoInt.wrap, GoInt.min_int, GoInt.max_int. intros H.
  rewrite Z.mod_small; lia.
Qed.

(** One column: the count grows by the number of non-black rows, and the
    row is captured only by the first non-black pixel of a column entered
    with [startY = 0]. *)
Lemma scanColumn_spec (x : Z) (ys : list Z) :
  ∀ count startY,
    0 <= count → count + len ys <= GoInt.max_int →
    scanColumn img x ys count startY
    = (count + len (filter (λ y, nonBlack img x y = true) ys),
       if bool_decide (count = 0) && bool_decide (startY = 0)
       then default 0 (head (filter (λ y, nonBlack img x y = true) ys))
       else startY).
Proof.
  unfold len.
  induction ys as [|y ys IH]; intros count startY Hc Hlen; simpl.
  - rewrite Z.add_0_r. f_equal.
    repeat case_bool_decide; simpl; congruence.
  - simpl in Hlen. rewrite filter_cons.
    destruct (nonBlack img x y) eqn:Hnb.
    + rewrite decide_True by done. simpl.
      unfold GoInt.add. rewrite wrap_small
        by (unfold GoInt.min_int, GoInt.max_int in *; lia).
      rewrite IH by lia. f_equal; [lia|].
      rewrite (bool_decide_eq_false_2 (count + 1 = 0)) by lia. simpl.
      repeat case_bool_decide; simpl; try reflexivity; lia.
    + rewrite decide_False by done.
      rewrite IH by lia. reflexivity.
Qed.

Lemma scanColumn_full (x startY : Z) :
  scanColumn img x (seqZ 0 (Dy img)) 0 startY
  = (colCount img x,
     if bool_decide (startY = 0) then default 0 (head (nonBlackRows img x))
     else startY).
Proof.
  rewrite scanColumn_spec; [reflexivity|lia|].
  unfold len. rewrite length_seqZ. unfold GoInt.max_int in *. lia.
Qed.

Lemma rowAfter_nonzero (cols : list Z) (startY : Z) :
  startY ≠ 0 → rowAfter img cols startY = startY.
Proof.
  revert startY. induction cols as [|x cols IH]; intros startY H; simpl; [done|].
  rewrite bool_decide_eq_false_2 by done. by apply IH.
Qed.

Lemma rowAfter_black (cols : list Z) :
  Forall (λ x, nonBlackRows img x = []) cols → rowAfter img cols 0 = 0.
Proof.
  induction 1 as [|x cols Hx _ IH]; simpl; [done|]. by rewrite Hx.
Qed.

Lemma rowAfter_first (pre post : list Z) (x0 y0 : Z) :
  Forall (λ x, nonBlackRows img x = []) pre →
  head (nonBlackRows img x0) = Some y0 → y0 ≠ 0 →
  rowAfter img (pre ++ x0 :: post) 0 = y0.
Proof.
  intros Hpre Hx0 Hy0. unfold rowAfter. rewrite foldl_app.
  fold (rowAfter img pre 0). rewrite rowAfter_black by done. simpl.
  rewrite Hx0. simpl. by apply rowAfter_nonzero.
Qed.

Variable minCount : Z.

Lemma scanColumns_none (xs : list Z) :
  ∀ startY,
    Forall (λ x, colCount img x < minCount) xs →
    scanColumns img minCount xs startY = (0, rowAfter img xs startY).
Proof.
  induction xs as [|x xs IH]; intros startY Hxs; simpl; [done|].
  inversion Hxs as [|? ? Hx Hxs']; subst.
  rewrite scanColumn_full. rewrite bool_decide_eq_false_2 by lia.
  by rewrite IH.
Qed.

Lemma scanColumns_gap (pre post : list Z) (x : Z) :
  ∀ startY,
    Forall (λ x', colCount img x' < minCount) pre →
    minCount <= colCount img x →
    scanColumns img minCount (pre ++ x :: post) startY
    = (GoInt.add x 2, rowAfter img (pre ++ [x]) startY).
Proof.
  induction pre as [|x' pre IH]; intros startY Hpre Hx; simpl.
  - rewrite scanColumn_full. by rewrite bool_decide_eq_true_2.
  - inversion Hpre as [|? ? Hx' Hpre']; subst.
    rewrite scanColumn_full. rewrite bool_decide_eq_false_2 by lia.
    by rewrite IH.
Qed.

End ColumnScan.

Lemma seqZ_split (x n : Z) :
  0 <= x < n → seqZ 0 n = seqZ 0 x ++ x :: seqZ (x + 1) (n - x - 1).
Proof.
  intros H. replace n with (x + (n - x)) at 1 by lia.
  rewrite seqZ_app by lia. f_equal. rewrite seqZ_cons by lia.
  replace (0 + x) with x by lia. replace (Z.succ x) with (x + 1) by lia.
  by replace (Z.pred (n - x)) with (n - x - 1) by lia.
Qed.

Lemma seqZ_snoc (x : Z) : 0 <= x → seqZ 0 (x + 1) = seqZ 0 x ++ [x].
Proof.
  intros H. rewrite seqZ_app by lia. f_equal.
Qed.

(** Either no column below [n] reaches the threshold, or there is a first
    one that does. *)
Lemma first_gap_dec (img : Image) (minCount : Z) (n : nat) :
  (∀ x, 0 <= x < Z.of_nat n → colCount img x < minCount)
  ∨ (∃ x, 0 <= x < Z.of_nat n ∧ minCount <= colCount img x
          ∧ ∀ x', 0 <= x' < x → colCount img x' < minCount).
Proof.
  induction n as [|n [IH|IH]].
  - left. lia.
  - destruct (decide (colCount img (Z.of_nat n) < minCount)) as [Hn|Hn].
    + left. intros x Hx. destruct (decide (x = Z.of_nat n)) as [->|]; [done|].
      apply IH. lia.
    + right. exists (Z.of_nat n). split; [lia|]. split; [lia|]. exact IH.
  - right. destruct IH as (x & Hx & Hc & Hfirst). exists x. split; [lia|]. done.
Qed.

(** The result of the scan, by whether a column reaches the threshold. *)
Lemma findGapPython_cases (img : Image) (minCount : Z) :
  Dx img <= GoInt.max_int - 2 → Dy img <= GoInt.max_int →
  ((∀ x, 0 <= x < Dx img → colCount img x < minCount)
   ∧ findGapPython img minCount = (0, rowAfter img (seqZ 0 (Dx img)) 0))
  ∨ (∃ x, scanned img minCount x ∧ minCount <= colCount img x
          ∧ findGapPython img minCount = (x + 2, rowAfter img (seqZ 0 (x + 1)) 0)).
Proof.
  intros Hw Hh. unfold findGapPython.
  destruct (first_gap_dec img minCount (Z.to_nat (Dx img))) as [Hnone|Hgap].
  - left. assert (Hall : ∀ x, 0 <= x < Dx img → colCount img x < minCount).
    { intros x Hx. apply Hnone. lia. }
    split; [exact Hall|]. apply scanColumns_none; [done|].
    apply Forall_seqZ. intros x Hx. apply Hall. lia.
  - right. destruct Hgap as (x & Hx & Hc & Hfirst). exists x.
    assert (Hx' : 0 <= x < Dx img) by lia.
    split; [by split|]. split; [done|].
    rewrite (seqZ_split x (Dx img)) by done.
    rewrite scanColumns_gap; [|done| |done].
    + f_equal; [|by rewrite seqZ_snoc by lia].
      unfold GoInt.add. apply wrap_small.
      unfold GoInt.min_int, GoInt.max_int in *. lia.
    + apply Forall_seqZ. intros x' Hx''. apply Hfirst. lia.
Qed.

(** C9 (as stated, refuted). With a single white pixel in row 1 no column
    reaches the threshold 5, yet the result is [(0, 1)], not [(0, 0)]; and
    when the first non-black pixel lies in row 0, the first non-black
    pixel of a later column replaces it as the reported row. *)
Lemma findGap_row_not_origin :
  ((∀ x, 0 <= x < Dx gapImageSparse → colCount gapImageSparse x < 5)
   ∧ findGapPython gapImageSparse 5 = (0, 1))
  ∧ (firstNonBlack gapImageRowZero 5 0 0
     ∧ findGapPython gapImageRowZero 5 = (3, 1)).
Proof.
  split; split.
  - intros x Hx. assert (x = 0) as -> by (simpl in Hx; lia). by vm_compute.
  - by vm_compute.
  - split; [split; [by vm_compute|lia]|]. split; [by vm_compute|lia].
  - by vm_compute.
Qed.

(** C9 (amended). The first column whose non-black count reaches
    [minCount] gives X = column + 2, and X = 0 when no column does.  The
    reported row is the row of the first non-black pixel the scan meets
    whenever that row is not 0, and it is then kept through all later
    columns; it is 0 when the scanned columns are all black.  When no
    column reaches the threshold the row is reported all the same. *)
Theorem findGap_column_scan (img : Image) (minCount : Z) :
  Dx img <= GoInt.max_int - 2 → Dy img <= GoInt.max_int →
  (∀ x, scanned img minCount x → minCount <= colCount img x →
        (findGapPython img minCount).1 = x + 2)
  ∧ ((∀ x, 0 <= x < Dx img → colCount img x < minCount) →
        (findGapPython img minCount).1 = 0)
  ∧ (∀ x0 y0, firstNonBlack img minCount x0 y0 → y0 ≠ 0 →
        (findGapPython img minCount).2 = y0)
  ∧ ((∀ x, scanned img minCount x → nonBlackRows img x = []) →
        (findGapPython img minCount).2 = 0).
Proof.
  intros Hw Hh.
  destruct (findGapPython_cases img minCount Hw Hh)
    as [[Hnone ->]|(g & [Hg Hgfirst] & Hgc & ->)]; simpl.
  - split; [intros x [Hx _] Hc; specialize (Hnone x Hx); lia|].
    split; [done|]. split.
    + intros x0 y0 ([Hx0 _] & Hhead & Hblack) Hy0.
      rewrite (seqZ_split x0 (Dx img)) by done.
      apply rowAfter_first; [|done..].
      apply Forall_seqZ. intros x' Hx'. apply Hblack. lia.
    + intros Hblack. apply rowAfter_black, Forall_seqZ. intros x Hx.
      apply Hblack. split; [lia|]. intros x' Hx'. apply Hnone. lia.
  - assert (Hle : ∀ x, scanned img minCount x → x <= g).
    { intros x [Hx Hfirst]. destruct (decide (x <= g)) as [|Hgt]; [done|].
      specialize (Hfirst g). lia. }
    split.
    + intros x Hx Hc. f_equal. destruct Hx as [Hx Hfirst].
      destruct (decide (g < x)) as [Hlt|]; [|specialize (Hgfirst x); lia].
      specialize (Hfirst g). lia.
    + split; [intros Hnone; specialize (Hnone g Hg); lia|]. split.
      * intros x0 y0 (Hsc & Hhead & Hblack) Hy0.
        pose proof (Hle x0 Hsc) as Hx0g. destruct Hsc as [Hx0 _].
        rewrite (seqZ_split x0 (g + 1)) by lia.
        apply rowAfter_first; [|done..].
        apply Forall_seqZ. intros x' Hx'. apply Hblack. lia.
      * intros Hblack. apply rowAfter_black, Forall_seqZ. intros x Hx.
        apply Hblack. split; [lia|]. intros x' Hx'. apply Hgfirst. lia.
Qed.

Lemma findGap_column_scan_witness :
  (findGapPython gapImageBlock 5).1 = 2 + 2
  ∧ (findGapPython gapImageBlock 5).2 = 3.
Proof.
  assert (Hw : Dx gapImageBlock <= GoInt.max_int - 2) by (by vm_compute).
  assert (Hh : Dy gapImageBlock <= GoInt.max_int) by (by vm_compute).
  destruct (findGap_column_scan gapImageBlock 5 Hw Hh) as (HX & _ & HY & _).
  split.
  - apply HX; [|by vm_compute]. split; [simpl; lia|].
    intros x' Hx'. assert (x' = 0 ∨ x' = 1) as [-> | ->] by lia; by vm_compute.
  - apply (HY 1 3); [|lia]. split; [|split].
    + split; [simpl; lia|]. intros x' Hx'. assert (x' = 0) as -> by lia.
      by vm_compute.
    + by vm_compute.
    + intros x' Hx'. assert (x' = 0) as -> by lia. by vm_compute.
Defined.

(** ** The order of binary32 values *)

Lemma ltb_orderKey (x y : F32.t) :
  F32.is_nan x = false → F32.is_nan y = false →
  (F32.lt x y = true ↔ keyLt (orderKey x) (orderKey y)).
Proof.
  unfold F32.lt, SFltb, keyLt.
  destruct x as [sx|sx| |sx mx ex], y as [sy|sy| |sy my ey]; simpl;
    intros Hx Hy; try discriminate;
    try (destruct sx); try (destruct sy); simpl;
    try (split; intros H; first [discriminate | reflexivity | lia]).
  - destruct (Z.compare_spec ex ey) as [->|Hlt|Hgt]; simpl;
      [|split; intros H; first [discriminate | reflexivity | lia]..].
    change (Pos.compare_cont Eq mx my) with (Pos.compare mx my).
    destruct (Pos.compare_spec mx my) as [->|Hm|Hm]; simpl;
      split; intros H; first [discriminate | reflexivity | lia].
  - destruct (Z.compare_spec ex ey) as [->|Hlt|Hgt]; simpl;
      [|split; intros H; first [discriminate | reflexivity | lia]..].
    change (Pos.compare_cont Eq mx my) with (Pos.compare mx my).
    destruct (Pos.compare_spec mx my) as [->|Hm|Hm]; simpl;
      split; intros H; first [discriminate | reflexivity | lia].
Qed.

Lemma keyLt_dec (k1 k2 : Z * Z * Z) : keyLt k1 k2 ∨ ¬ keyLt k1 k2.
Proof. unfold keyLt. lia. Qed.

Lemma ltb_false_orderKey (x y : F32.t) :
  F32.is_nan x = false → F32.is_nan y = false →
  (F32.lt x y = false ↔ ¬ keyLt (orderKey x) (orderKey y)).
Proof.
  intros Hx Hy. rewrite <- (ltb_orderKey x y Hx Hy).
  destruct (F32.lt x y); split; congruence.
Qed.

(** [a <= m] and [m < v] give [a < v]. *)
Lemma f32_le_lt_trans (a m v : F32.t) :
  F32.is_nan a = false → F32.is_nan m = false → F32.is_nan v = false →
  F32.gt a m = false → F32.gt v m = true → F32.lt a v = true.
Proof.
  unfold F32.gt. fold (F32.lt m a) (F32.lt m v). intros Ha Hm Hv H1 H2.
  apply ltb_false_orderKey in H1; [|done..].
  apply ltb_orderKey in H2; [|done..]. apply ltb_orderKey; [done..|].
  unfold keyLt in *. lia.
Qed.

Lemma f32_lt_not_gt (a v : F32.t) :
  F32.is_nan a = false → F32.is_nan v = false →
  F32.lt a v = true → F32.gt a v = false.
Proof.
  unfold F32.gt. fold (F32.lt v a). intros Ha Hv H.
  apply ltb_orderKey in H; [|done..]. apply ltb_false_orderKey; [done..|].
  unfold keyLt in *. lia.
Qed.

Lemma f32_gt_irrefl (v : F32.t) : F32.gt v v = false.
Proof.
  destruct (F32.is_nan v) eqn:Hv; [by destruct v|].
  unfold F32.gt. fold (F32.lt v v). apply ltb_false_orderKey; [done..|].
  unfold keyLt. lia.
Qed.

Lemma f32_le_trans (a m v : F32.t) :
  F32.is_nan a = false → F32.is_nan m = false → F32.is_nan v = false →
  F32.gt a m = false → F32.gt m v = false → F32.gt a v = false.
Proof.
  unfold F32.gt. fold (F32.lt m a) (F32.lt v m) (F32.lt v a). intros Ha Hm Hv H1 H2.
  apply ltb_false_orderKey in H1; [|done..].
  apply ltb_false_orderKey in H2; [|done..]. apply ltb_false_orderKey; [done..|].
  unfold keyLt in *. lia.
Qed.

Lemma f32_lt_trans (a m v : F32.t) :
  F32.is_nan a = false → F32.is_nan m = false → F32.is_nan v = false →
  F32.lt a m = true → F32.lt m v = true → F32.lt a v = true.
Proof.
  intros Ha Hm Hv H1 H2.
  apply ltb_orderKey in H1; [|done..].
  apply ltb_orderKey in H2; [|done..]. apply ltb_orderKey; [done..|].
  unfold keyLt in *. lia.
Qed.

(** ** Arg-max scans *)

Section Scan.

Variable output : list F32.t.
Variables offset numClasses : Z.

(** The restricted scan returns; it either keeps the index it was entered
    with, no eligible score exceeding [maxVal], or selects the first
    entry of [cs] whose score is the greatest. *)
Lemma scanAllowed_spec (cs : list Z) :
  ∀ maxIdx maxVal,
    F32.is_nan maxVal = false → scoresOK output offset numClasses cs →
    ∃ i m,
      scanAllowed output offset numClasses cs maxIdx maxVal = Some (i, m)
      ∧ F32.is_nan m = false
      ∧ ((i = maxIdx ∧ m = maxVal
          ∧ ∀ c vc, c ∈ cs → c < numClasses → scoreAt output offset c = Some vc →
                    F32.gt vc maxVal = false)
         ∨ (∃ pre post,
              cs = pre ++ i :: post ∧ i < numClasses
              ∧ scoreAt output offset i = Some m ∧ F32.gt m maxVal = true
              ∧ (∀ c vc, c ∈ pre → c < numClasses →
                         scoreAt output offset c = Some vc → F32.lt vc m = true)
              ∧ (∀ c vc, c ∈ post → c < numClasses →
                         scoreAt output offset c = Some vc → F32.gt vc m = false))).
Proof.
  induction cs as [|c rest IH]; intros maxIdx maxVal HmaxVal Hok; simpl.
  - exists maxIdx, maxVal. split; [done|]. split; [done|]. left.
    split; [done|]. split; [done|]. intros c vc Hc. by apply elem_of_nil in Hc.
  - assert (Hrest : scoresOK output offset numClasses rest).
    { intros c' Hc'. apply Hok. by right. }
    case_bool_decide as Hge.
    + destruct (IH maxIdx maxVal HmaxVal Hrest) as (i & m & Hscan & Hm & Hcases).
      exists i, m. split; [done|]. split; [done|].
      destruct Hcases as [(-> & -> & Hle)|(pre & post & -> & Hi & Hsi & Hgt & Hpre & Hpost)].
      * left. split; [done|]. split; [done|]. intros c' vc Hc' Hlt Hsc.
        apply elem_of_cons in Hc' as [->|Hc']; [lia|]. by eapply Hle.
      * right. exists (c :: pre), post. split; [done|]. split; [done|].
        split; [done|]. split; [done|]. split; [|done].
        intros c' vc Hc' Hlt Hsc.
        apply elem_of_cons in Hc' as [->|Hc']; [lia|]. by eapply Hpre.
    + destruct (Hok c) as (v & Hv & Hvnan); [by left|lia|].
      unfold scoreAt in Hv. rewrite Hv. simpl.
      destruct (F32.gt v maxVal) eqn:Hcmp.
      * destruct (IH c v Hvnan Hrest) as (i & m & Hscan & Hm & Hcases).
        exists i, m. split; [done|]. split; [done|]. right.
        destruct Hcases as [(-> & -> & Hle)|(pre & post & -> & Hi & Hsi & Hgt & Hpre & Hpost)].
        -- exists [], rest. split; [done|]. split; [lia|]. split; [done|].
           split; [done|]. split; [|done]. intros c' vc Hc'.
           by apply elem_of_nil in Hc'.
        -- exists (c :: pre), post. split; [done|]. split; [done|].
           split; [done|]. split.
           { apply (f32_lt_trans maxVal v m); done. }
           split; [|done]. intros c' vc Hc' Hlt Hsc.
           apply elem_of_cons in Hc' as [->|Hc']; [|by eapply Hpre].
           unfold scoreAt in Hsc. rewrite Hv in Hsc. by injection Hsc as <-.
      * destruct (IH maxIdx maxVal HmaxVal Hrest) as (i & m & Hscan & Hm & Hcases).
        exists i, m. split; [done|]. split; [done|].
        destruct Hcases as [(-> & -> & Hle)|(pre & post & -> & Hi & Hsi & Hgt & Hpre & Hpost)].
        -- left. split; [done|]. split; [done|]. intros c' vc Hc' Hlt Hsc.
           apply elem_of_cons in Hc' as [->|Hc']; [|by eapply Hle].
           unfold scoreAt in Hsc. rewrite Hv in Hsc. by injection Hsc as <-.
        -- right. exists (c :: pre), post. split; [done|]. split; [done|].
           split; [done|]. split; [done|]. split; [|done].
           intros c' vc Hc' Hlt Hsc.
           apply elem_of_cons in Hc' as [->|Hc']; [|by eapply Hpre].
           unfold scoreAt in Hsc. rewrite Hv in Hsc. injection Hsc as <-.
           by apply (f32_le_lt_trans v maxVal m).
Qed.

(** The unrestricted scan is the restricted one over classes that are all
    eligible. *)
Lemma scanAll_scanAllowed (cs : list Z) :
  ∀ maxIdx maxVal,
    Forall (λ c, c < numClasses) cs →
    scanAll output offset cs maxIdx maxVal
    = scanAllowed output offset numClasses cs maxIdx maxVal.
Proof.
  induction cs as [|c rest IH]; intros maxIdx maxVal Hcs; simpl; [done|].
  inversion Hcs as [|? ? Hc Hrest]; subst.
  rewrite bool_decide_eq_false_2 by lia.
  destruct (slice_at output (GoInt.add offset c)) as [v|]; simpl; [|done].
  destruct (F32.gt v maxVal); by rewrite IH.
Qed.

End Scan.

Lemma seqZ_prefix_elem (a n i c : Z) (pre post : list Z) :
  seqZ a n = pre ++ i :: post → a <= c < i → c ∈ pre.
Proof.
  intros Hsplit Hc.
  assert (Hi : seqZ a n !! length pre = Some i).
  { rewrite Hsplit. by rewrite list_lookup_middle. }
  apply lookup_seqZ in Hi as [Hi Hlen].
  assert (Hj : seqZ a n !! Z.to_nat (c - a) = Some c).
  { apply lookup_seqZ. lia. }
  rewrite Hsplit, lookup_app_l in Hj by lia.
  apply list_elem_of_lookup. eauto.
Qed.

(** C6 (as stated, refuted). Under the restriction [0, 2, 1], indices 2
    and 1 share the greatest score, above the score of index 0; the
    decoder selects 0 and not 2, the first of the two in the list, because
    no score exceeds the initial [maxVal] of -1e9. *)
Lemma restricted_tie_below_floor :
  argmaxAt lowTieScores 0 3 [0; 2; 1] = Some 0
  ∧ scoreAt lowTieScores 0 2 = scoreAt lowTieScores 0 1
  ∧ (∀ v0 v2, scoreAt lowTieScores 0 0 = Some v0 →
              scoreAt lowTieScores 0 2 = Some v2 → F32.lt v0 v2 = true).
Proof.
  split; [by vm_compute|]. split; [by vm_compute|].
  intros v0 v2 H0 H2. vm_compute in H0, H2.
  injection H0 as <-. injection H2 as <-. by vm_compute.
Qed.

(** C6 (amended). On scores that are not NaN the selected index is the
    first, in scan order, of the eligible indices with the greatest score:
    the lowest such index when no restriction is set and, under a
    restriction, the first such entry of the allowed list provided some
    eligible score exceeds -1e9; when none does, index 0 is selected.  The
    decoder is a function of its arguments. *)
Theorem argmax_first_maximum
    (output : list F32.t) (offset numClasses : Z) (allowed : list Z) :
  GoInt.in_range offset →
  (0 < numClasses →
   scoresOK output offset numClasses (seqZ 0 numClasses) →
   ∃ i vi,
     argmaxAt output offset numClasses [] = Some i
     ∧ 0 <= i < numClasses ∧ scoreAt output offset i = Some vi
     ∧ (∀ c vc, 0 <= c < numClasses → scoreAt output offset c = Some vc →
                F32.gt vc vi = false)
     ∧ (∀ c vc, 0 <= c < i → scoreAt output offset c = Some vc →
                F32.lt vc vi = true))
  ∧ (allowed ≠ [] →
     scoresOK output offset numClasses allowed →
     ∃ i,
       argmaxAt output offset numClasses allowed = Some i
       ∧ ((i = 0
           ∧ ∀ c vc, c ∈ allowed → c < numClasses →
                     scoreAt output offset c = Some vc →
                     F32.gt vc F32.neg_1e9 = false)
          ∨ (∃ vi pre post,
               allowed = pre ++ i :: post ∧ i < numClasses
               ∧ scoreAt output offset i = Some vi
               ∧ F32.gt vi F32.neg_1e9 = true
               ∧ (∀ c vc, c ∈ allowed → c < numClasses →
                          scoreAt output offset c = Some vc →
                          F32.gt vc vi = false)
               ∧ (∀ c vc, c ∈ pre → c < numClasses →
                          scoreAt output offset c = Some vc →
                          F32.lt vc vi = true)))).
Proof.
  intros Hoff. split.
  - intros HN Hok.
    assert (Hadd0 : GoInt.add offset 0 = offset).
    { unfold GoInt.add. rewrite Z.add_0_r. by apply wrap_small. }
    destruct (Hok 0) as (v0 & Hv0 & Hv0nan); [apply elem_of_seqZ; lia|lia|].
    assert (Hcs : scoresOK output offset numClasses (seqZ 1 (numClasses - 1))).
    { intros c Hc. apply Hok. apply elem_of_seqZ in Hc. apply elem_of_seqZ. lia. }
    destruct (scanAllowed_spec output offset numClasses _ 0 v0 Hv0nan Hcs)
      as (i & m & Hscan & Hm & Hcases).
    unfold argmaxAt. rewrite bool_decide_eq_false_2 by (unfold len; simpl; lia).
    pose proof Hv0 as Hv0'. unfold scoreAt in Hv0'. rewrite Hadd0 in Hv0'.
    rewrite Hv0'. simpl. rewrite (scanAll_scanAllowed output offset numClasses)
      by (apply Forall_seqZ; lia).
    rewrite Hscan. simpl. exists i, m. split; [done|].
    destruct Hcases as [(-> & -> & Hle)|(pre & post & Hsplit & Hi & Hsi & Hgt & Hpre & Hpost)].
    + split; [lia|]. split; [done|]. split; [|intros c vc Hc; lia].
      intros c vc Hc Hsc. destruct (decide (c = 0)) as [->|Hc0].
      * rewrite Hv0 in Hsc. injection Hsc as <-. apply f32_gt_irrefl.
      * apply (Hle c vc); [|lia|done]. apply elem_of_seqZ. lia.
    + assert (Hin : i ∈ seqZ 1 (numClasses - 1)).
      { rewrite Hsplit. apply elem_of_app. right. by left. }
      apply elem_of_seqZ in Hin. split; [lia|]. split; [done|]. split.
      * intros c vc Hc Hsc.
        assert (Hvc : F32.is_nan vc = false).
        { destruct (Hok c) as (v & Hv & Hnan); [apply elem_of_seqZ; lia|lia|].
          rewrite Hv in Hsc. by injection Hsc as <-. }
        destruct (decide (c = 0)) as [->|Hc0].
        -- rewrite Hv0 in Hsc. injection Hsc as <-. by apply f32_lt_not_gt.
        -- assert (Hcin : c ∈ pre ++ i :: post).
           { rewrite <- Hsplit. apply elem_of_seqZ. lia. }
           apply elem_of_app in Hcin as [Hcin|Hcin].
           ++ apply f32_lt_not_gt; [done..|]. apply (Hpre c vc); [done|lia|done].
           ++ apply elem_of_cons in Hcin as [->|Hcin].
              ** rewrite Hsi in Hsc. injection Hsc as <-. apply f32_gt_irrefl.
              ** apply (Hpost c vc); [done|lia|done].
      * intros c vc Hc Hsc. destruct (decide (c = 0)) as [->|Hc0].
        -- rewrite Hv0 in Hsc. by injection Hsc as <-.
        -- apply (Hpre c vc); [|lia|done].
           eapply (seqZ_prefix_elem 1); [done|lia].
  - intros Hne Hok.
    destruct (scanAllowed_spec output offset numClasses allowed 0 F32.neg_1e9
                eq_refl Hok) as (i & m & Hscan & Hm & Hcases).
    unfold argmaxAt. rewrite bool_decide_eq_true_2
      by (destruct allowed; [done|unfold len; simpl; lia]).
    rewrite Hscan. simpl. exists i. split; [done|].
    destruct Hcases as [(-> & -> & Hle)|(pre & post & Hsplit & Hi & Hsi & Hgt & Hpre & Hpost)].
    + left. by split.
    + right. exists m, pre, post. split; [done|]. split; [done|].
      split; [done|]. split; [done|]. split; [|done].
      intros c vc Hc Hlt Hsc.
      assert (Hvc : F32.is_nan vc = false).
      { destruct (Hok c Hc Hlt) as (v & Hv & Hnan).
        rewrite Hv in Hsc. by injection Hsc as <-. }
      rewrite Hsplit in Hc. apply elem_of_app in Hc as [Hc|Hc].
      * apply f32_lt_not_gt; [done..|]. apply (Hpre c vc); [done|lia|done].
      * apply elem_of_cons in Hc as [->|Hc].
        -- rewrite Hsi in Hsc. injection Hsc as <-. apply f32_gt_irrefl.
        -- apply (Hpost c vc); [done|lia|done].
Qed.

Lemma tieScores_ok (cs : list Z) :
  (∀ c, c ∈ cs → 0 <= c < 4) → scoresOK tieScores 0 4 cs.
Proof.
  intros Hcs c Hc _. apply Hcs in Hc.
  assert (c = 0 ∨ c = 1 ∨ c = 2 ∨ c = 3) as [-> | [-> | [-> | ->]]] by lia;
    eexists; (split; [by vm_compute|reflexivity]).
Qed.

Lemma argmax_first_maximum_witness :
  argmaxAt tieScores 0 4 [] = Some 1 ∧ argmaxAt tieScores 0 4 [0; 2; 1; 3] = Some 2.
Proof.
  assert (Hoff : GoInt.in_range 0) by (unfold GoInt.in_range; by vm_compute).
  destruct (argmax_first_maximum tieScores 0 4 [0; 2; 1; 3] Hoff) as [Hall Hres].
  split.
  - destruct Hall as (i & vi & Hi & _); [lia| |].
    + apply tieScores_ok. intros c Hc. apply elem_of_seqZ in Hc. lia.
    + rewrite Hi. vm_compute in Hi. by injection Hi as <-.
  - destruct Hres as (i & Hi & _); [done| |].
    + apply tieScores_ok. intros c Hc.
      repeat (apply elem_of_cons in Hc as [->|Hc]; [lia|]).
      by apply elem_of_nil in Hc.
    + rewrite Hi. vm_compute in Hi. by injection Hi as <-.
Defined.

(** ** Intersection over union and the suppression pass *)

Lemma f32_add_comm (x y : F32.t) : F32.add x y = F32.add y x.
Proof.
  unfold F32.add, SFadd.
  destruct x as [sx|sx| |sx mx ex], y as [sy|sy| |sy my ey]; try reflexivity;
    try (destruct sx, sy; reflexivity).
  by rewrite (Z.min_comm ex ey), Z.add_comm.
Qed.

Lemma computeIoU_comm (a b : BBox) : computeIoU a b = computeIoU b a.
Proof.
  unfold computeIoU.
  rewrite (Z.max_comm (X1 a)), (Z.max_comm (Y1 a)),
    (Z.min_comm (X2 a)), (Z.min_comm (Y2 a)).
  destruct (_ || _); [reflexivity|].
  by rewrite (f32_add_comm (F32.of_int (intArea (X1 a) (Y1 a) (X2 a) (Y2 a)))).
Qed.

Section Suppression.

Variable nmsThr : F32.t.
Variable dets : list detection.

Lemma suppressStep_length (i : nat) (used : list bool) (j : nat) :
  length (suppressStep nmsThr dets i used j) = length used.
Proof.
  unfold suppressStep. destruct (used !!! j : bool); [done|].
  destruct (F32.gt _ _); [by rewrite length_insert|done].
Qed.

Lemma suppressStep_keeps (i : nat) (used : list bool) (j k : nat) :
  used !! k = Some true → suppressStep nmsThr dets i used j !! k = Some true.
Proof.
  intros Hk. unfold suppressStep. destruct (used !!! j : bool); [done|].
  destruct (F32.gt _ _); [|done].
  destruct (decide (j = k)) as [->|Hne].
  - rewrite list_lookup_insert_eq; [done|]. by eapply lookup_lt_Some.
  - by rewrite list_lookup_insert_ne.
Qed.

Lemma suppressStep_marks (i : nat) (used : list bool) (j : nat) :
  (j < length used)%nat →
  F32.gt (computeIoU (box (dets !!! i)) (box (dets !!! j))) nmsThr = true →
  suppressStep nmsThr dets i used j !! j = Some true.
Proof.
  intros Hj Hgt. unfold suppressStep.
  destruct (used !!! j : bool) eqn:Hu.
  - rewrite <- Hu. by apply list_lookup_lookup_total_lt.
  - rewrite Hgt. by rewrite list_lookup_insert_eq.
Qed.

(** The inner loop: the length of [used] is kept, marks are kept, and
    every visited [j] whose box overlaps box [i] above the threshold is
    marked. *)
Lemma suppress_spec (i : nat) (js : list nat) :
  ∀ used,
    Forall (λ j, (j < length used)%nat) js →
    length (foldl (suppressStep nmsThr dets i) used js) = length used
    ∧ (∀ k, used !! k = Some true →
            foldl (suppressStep nmsThr dets i) used js !! k = Some true)
    ∧ (∀ j, j ∈ js →
            F32.gt (computeIoU (box (dets !!! i)) (box (dets !!! j))) nmsThr = true →
            foldl (suppressStep nmsThr dets i) used js !! j = Some true).
Proof.
  induction js as [|j js IH]; intros used Hjs; simpl.
  - split; [done|]. split; [done|]. intros j Hj. by apply elem_of_nil in Hj.
  - inversion Hjs as [|? ? Hj Hjs']; subst.
    destruct (IH (suppressStep nmsThr dets i used j)) as (Hlen & Hkeep & Hmark).
    { by rewrite suppressStep_length. }
    split; [by rewrite Hlen, suppressStep_length|]. split.
    + intros k Hk. by apply Hkeep, suppressStep_keeps.
    + intros j' Hj' Hgt. apply elem_of_cons in Hj' as [->|Hj'].
      * by apply Hkeep, suppressStep_marks.
      * by apply Hmark.
Qed.

Lemma acceptStep_inv (i : nat) (st : list BBox * list bool) :
  (i < length dets)%nat →
  nmsInv nmsThr dets i st → nmsInv nmsThr dets (S i) (acceptStep nmsThr dets st i).
Proof.
  destruct st as [result used]. intros Hi (Hlen & Hpair & Hcover).
  simpl in Hlen, Hpair, Hcover. unfold acceptStep.
  destruct (used !!! i : bool) eqn:Hu; unfold nmsInv; simpl.
  - split; [done|]. split; [done|]. intros b j Hb Hj. apply Hcover; [done|lia].
  - destruct (suppress_spec i (seq (S i) (length dets - S i)) used)
      as (Hlen' & Hkeep & Hmark).
    { apply Forall_forall. intros j Hj. apply elem_of_seq in Hj. lia. }
    split; [by rewrite Hlen'|]. split.
    + intros p q bp bq Hpq Hp Hq.
      destruct (decide (q < length result)%nat) as [Hq'|Hq'].
      * rewrite lookup_app_l in Hp, Hq by lia. by apply (Hpair p q bp bq).
      * assert (q = length result) as ->.
        { apply lookup_lt_Some in Hq. rewrite length_app in Hq. simpl in Hq. lia. }
        rewrite list_lookup_middle in Hq by done. injection Hq as <-.
        rewrite lookup_app_l in Hp by lia.
        destruct (F32.gt (computeIoU bp (box (dets !!! i))) nmsThr) eqn:Hgt; [|done].
        assert (Hui : used !! i = Some true).
        { apply (Hcover bp i); [|lia|done]. apply list_elem_of_lookup. eauto. }
        apply list_lookup_total_correct in Hui. congruence.
    + intros b j Hb Hj Hgt. apply elem_of_app in Hb as [Hb|Hb].
      * apply Hkeep. apply (Hcover b j); [done|lia|done].
      * apply list_elem_of_singleton in Hb as ->.
        apply Hmark; [|done]. apply elem_of_seq. lia.
Qed.

Lemma acceptLoop_inv (k : nat) :
  ∀ i st, (i + k = length dets)%nat →
    nmsInv nmsThr dets i st →
    nmsInv nmsThr dets (length dets) (foldl (acceptStep nmsThr dets) st (seq i k)).
Proof.
  induction k as [|k IH]; intros i st Hik Hinv; simpl.
  - by replace (length dets) with i by lia.
  - apply IH; [lia|]. apply acceptStep_inv; [lia|done].
Qed.

Lemma nmsPass_pairwise : pairwiseKept nmsThr (nmsPass nmsThr dets).
Proof.
  unfold nmsPass.
  destruct (acceptLoop_inv (length dets) 0 ([], replicate (length dets) false))
    as (_ & Hpair & _); [lia| |done].
  unfold nmsInv; simpl. split; [by rewrite length_replicate|]. split.
  - intros p q bp bq _ Hp. by rewrite lookup_nil in Hp.
  - intros b j Hb. by apply elem_of_nil in Hb.
Qed.

End Suppression.

(** C4. In the list returned by the greedy suppression pass, no two boxes
    at distinct positions have an IoU strictly greater than [nmsThr]. *)
Theorem nms_no_overlap_above_threshold
    (nmsThr : F32.t) (dets : list detection) (p q : nat) (bp bq : BBox) :
  p ≠ q →
  nmsPass nmsThr dets !! p = Some bp →
  nmsPass nmsThr dets !! q = Some bq →
  F32.gt (computeIoU bp bq) nmsThr = false.
Proof.
  intros Hpq Hp Hq. pose proof (nmsPass_pairwise nmsThr dets) as Hpair.
  destruct (decide (p < q)%nat) as [Hlt|Hge].
  - by apply (Hpair p q bp bq).
  - rewrite computeIoU_comm. apply (Hpair q p bq bp); [lia|done..].
Qed.

Lemma nms_no_overlap_above_threshold_witness :
  nmsPass nmsThr045 overlappingDets = [squareBox 0 10; squareBox 20 30]
  ∧ F32.gt (computeIoU (squareBox 0 10) (squareBox 20 30)) nmsThr045 = false.
Proof.
  split; [by vm_compute|].
  apply (nms_no_overlap_above_threshold nmsThr045 overlappingDets 0 1);
    [lia|by vm_compute..].
Defined.

(** ** binary32 arithmetic on converted integers *)

Lemma digits2_pos_bounds (p : positive) :
  2 ^ (Z.pos (digits2_pos p) - 1) <= Z.pos p < 2 ^ Z.pos (digits2_pos p).
Proof.
  induction p as [p IH|p IH|]; simpl digits2_pos.
  - rewrite Pos2Z.inj_succ. replace (Z.succ (Z.pos (digits2_pos p)) - 1)
      with (Z.succ (Z.pos (digits2_pos p) - 1)) by lia.
    rewrite !Z.pow_succ_r by lia. lia.
  - rewrite Pos2Z.inj_succ. replace (Z.succ (Z.pos (digits2_pos p)) - 1)
      with (Z.succ (Z.pos (digits2_pos p) - 1)) by lia.
    rewrite !Z.pow_succ_r by lia. lia.
  - simpl. lia.
Qed.

Lemma digits2_pos_unique (p : positive) (k : Z) :
  2 ^ (k - 1) <= Z.pos p < 2 ^ k → Z.pos (digits2_pos p) = k.
Proof.
  intros [Hlo Hhi]. pose proof (digits2_pos_bounds p) as [Hlo' Hhi'].
  assert (0 < k).
  { destruct (decide (0 < k)) as [|Hk]; [done|].
    assert (2 ^ k <= 2 ^ 0) by (apply Z.pow_le_mono_r; lia). simpl in *. lia. }
  destruct (Z.lt_trichotomy (Z.pos (digits2_pos p)) k) as [Hlt|[Heq|Hgt]]; [|done|].
  - assert (2 ^ Z.pos (digits2_pos p) <= 2 ^ (k - 1))
      by (apply Z.pow_le_mono_r; lia). lia.
  - assert (2 ^ k <= 2 ^ (Z.pos (digits2_pos p) - 1))
      by (apply Z.pow_le_mono_r; lia). lia.
Qed.

Lemma fexp32_normal (k : Z) : -125 <= k → fexp F32.prec F32.emax k = k - 24.
Proof. unfold fexp, emin, F32.prec, F32.emax. lia. Qed.

(** A 24-digit mantissa at an exponent in range is left as it is. *)
Lemma round_aux_noshift (s : bool) (m : positive) (e : Z) :
  Z.pos (digits2_pos m) = 24 → -149 <= e <= 104 →
  binary_round_aux F32.prec F32.emax s (Z.pos m) e loc_Exact = S754_finite s m e.
Proof.
  intros Hd He. unfold binary_round_aux, shr_fexp. simpl Zdigits2. rewrite Hd.
  rewrite fexp32_normal by lia. replace (24 + e - 24 - e) with 0 by lia.
  simpl. rewrite Hd. rewrite fexp32_normal by lia.
  replace (24 + e - 24 - e) with 0 by lia. simpl.
  unfold F32.emax, F32.prec. by rewrite (Zle_imp_le_bool e (128 - 24)) by lia.
Qed.

Lemma round_aux_shift1 (s : bool) (m : positive) (e : Z) :
  Z.pos (digits2_pos m) = 24 → -150 <= e <= 103 →
  binary_round_aux F32.prec F32.emax s (Z.pos m~0) e loc_Exact
  = S754_finite s m (e + 1).
Proof.
  intros Hd He. unfold binary_round_aux, shr_fexp. simpl Zdigits2.
  rewrite Pos2Z.inj_succ, Hd. rewrite fexp32_normal by lia.
  replace (Z.succ 24 + e - 24 - e) with 1 by lia. simpl.
  rewrite Hd. rewrite fexp32_normal by lia.
  replace (24 + (e + 1) - 24 - (e + 1)) with 0 by lia. simpl.
  unfold F32.emax, F32.prec. by rewrite (Zle_imp_le_bool (e + 1) (128 - 24)) by lia.
Qed.

Lemma binary_round_normal (s : bool) (m : positive) (e : Z) :
  Z.pos (digits2_pos m) = 24 → -149 <= e <= 104 →
  binary_round F32.prec F32.emax s m e = S754_finite s m e.
Proof.
  intros Hd He. unfold binary_round, shl_align. rewrite Hd.
  rewrite fexp32_normal by lia. replace (24 + e - 24 - e) with 0 by lia.
  by apply round_aux_noshift.
Qed.

(** [x + x] doubles a normal value by raising its exponent. *)
Lemma f32_add_self (m : positive) (e : Z) :
  Z.pos (digits2_pos m) = 24 → -149 <= e <= 103 →
  F32.add (S754_finite false m e) (S754_finite false m e)
  = S754_finite false m (e + 1).
Proof.
  intros Hd He. unfold F32.add, SFadd, shl_align.
  rewrite Z.min_id, Z.sub_diag. simpl. rewrite Pos.add_diag.
  unfold binary_round, shl_align. simpl digits2_pos.
  rewrite Pos2Z.inj_succ, Hd. rewrite fexp32_normal by lia.
  replace (Z.succ 24 + e - 24 - e) with 1 by lia.
  apply round_aux_shift1; [done|lia].
Qed.

(** [2x - x] is [x] again. *)
Lemma f32_sub_double (m : positive) (e : Z) :
  Z.pos (digits2_pos m) = 24 → -149 <= e <= 103 →
  F32.sub (S754_finite false m (e + 1)) (S754_finite false m e)
  = S754_finite false m e.
Proof.
  intros Hd He. unfold F32.sub, SFsub, shl_align.
  rewrite Z.min_r by lia. rewrite Z.sub_diag.
  replace (e - (e + 1)) with (-1) by lia. simpl.
  replace (Z.pos m~0 - Z.pos m) with (Z.pos m) by lia.
  simpl. apply binary_round_normal; [done|lia].
Qed.

(** [x / x] is 1 for every finite [x]. *)
Lemma f32_div_self (s : bool) (m : positive) (e : Z) :
  F32.div (S754_finite s m e) (S754_finite s m e) = F32.one.
Proof.
  unfold F32.div, SFdiv, SFdiv_core_binary.
  replace (Zdigits2 (Z.pos m) + e - (Zdigits2 (Z.pos m) + e)) with 0 by lia.
  rewrite Z.sub_diag. change (Z.min (fexp F32.prec F32.emax 0) 0) with (-24).
  change (0 - -24) with 24. cbv iota.
  assert (Hdiv : Z.div_eucl (Z.shiftl (Z.pos m) 24) (Z.pos m) = (16777216, 0)).
  { pose proof (Z.div_eucl_eq (Z.shiftl (Z.pos m) 24) (Z.pos m)) as Heq.
    pose proof (Z.mod_pos_bound (Z.shiftl (Z.pos m) 24) (Z.pos m)) as Hb.
    unfold Z.modulo in Hb.
    destruct (Z.div_eucl (Z.shiftl (Z.pos m) 24) (Z.pos m)) as [q r].
    rewrite Z.shiftl_mul_pow2 in Heq by lia. change (2 ^ 24) with 16777216 in Heq.
    specialize (Heq ltac:(lia)). specialize (Hb ltac:(lia)).
    assert (q = 16777216) by nia. f_equal; [done|]. subst q. lia. }
  change (Z.div_eucl (Z.shiftl (Z.pos m) 24) (Z.pos m))
    with (IntDef.Z.div_eucl (IntDef.Z.shiftl (Z.pos m) 24) (Z.pos m)) in Hdiv.
  rewrite Hdiv. replace (xorb s s) with false by (by destruct s).
  unfold new_location. destruct (Z.even (Z.pos m)); reflexivity.
Qed.

Lemma binary_round_aux_finish (s : bool) (mx ex : Z) (lx : location) :
  binary_round_aux F32.prec F32.emax s mx ex lx
  = let '(mrs1, e1) := shr_fexp F32.prec F32.emax mx ex lx in
    roundFinish s (round_nearest_even (shr_m mrs1) (loc_of_shr_record mrs1)) e1.
Proof. reflexivity. Qed.

Lemma shr_1_m (mrs : shr_record) :
  0 <= shr_m mrs → shr_m (shr_1 mrs) = shr_m mrs / 2.
Proof.
  destruct mrs as [m r s]. simpl. intros Hm.
  destruct m as [|[p|p|]|p]; simpl; try lia; try reflexivity.
  - change (Z.pos p) with (Z.div2 (Z.pos p~1)) at 1. apply Z.div2_div.
  - change (Z.pos p) with (Z.div2 (Z.pos p~0)) at 1. apply Z.div2_div.
Qed.

Lemma shr_iter_m (k : positive) :
  ∀ mrs, 0 <= shr_m mrs →
    shr_m (SpecFloat.iter_pos shr_1 k mrs) = shr_m mrs / 2 ^ Z.pos k.
Proof.
  assert (Hnn : ∀ a b, 0 <= a → 0 < b → 0 <= a / b).
  { intros a b Ha Hb. apply Z.div_pos; lia. }
  induction k as [k IH|k IH|]; intros mrs Hm; simpl SpecFloat.iter_pos.
  - assert (H1 : 0 <= shr_m (shr_1 mrs)) by (rewrite shr_1_m by done; apply Hnn; lia).
    assert (H2 : 0 <= shr_m (SpecFloat.iter_pos shr_1 k (shr_1 mrs)))
      by (rewrite IH by done; apply Hnn; lia).
    rewrite IH by done. rewrite IH by done. rewrite shr_1_m by done.
    rewrite !Z.div_div by lia. f_equal.
    replace (Z.pos k~1) with (1 + Z.pos k + Z.pos k) by lia.
    rewrite !Z.pow_add_r by lia. change (2 ^ 1) with 2. lia.
  - assert (H2 : 0 <= shr_m (SpecFloat.iter_pos shr_1 k mrs))
      by (rewrite IH by done; apply Hnn; lia).
    rewrite IH by done. rewrite IH by done.
    rewrite !Z.div_div by lia. f_equal.
    replace (Z.pos k~0) with (Z.pos k + Z.pos k) by lia.
    by rewrite Z.pow_add_r by lia.
  - by rewrite shr_1_m.
Qed.

Lemma round_nearest_even_range (q : Z) (l : location) :
  q <= round_nearest_even q l <= q + 1.
Proof. destruct l as [|[]]; simpl; try destruct (Z.even q); lia. Qed.

(** A rounded mantissa of 24 digits, or the carry [2^24], finishes as a
    normal value. *)
Lemma roundFinish_normal (s : bool) (m1 e1 : Z) :
  2 ^ 23 <= m1 <= 2 ^ 24 → -149 <= e1 <= 102 →
  ∃ m e, roundFinish s m1 e1 = S754_finite s m e
         ∧ Z.pos (digits2_pos m) = 24 ∧ e1 <= e <= e1 + 1.
Proof.
  intros Hm He. destruct m1 as [|p|p]; [simpl in Hm; lia| |lia].
  destruct (decide (Z.pos p = 2 ^ 24)) as [Hp|Hp].
  - assert (p = 16777216%positive) as -> by (change (2 ^ 24) with 16777216 in Hp; lia).
    exists 8388608%positive, (e1 + 1). split; [|split; [done|lia]].
    unfold roundFinish, shr_fexp.
    change (Zdigits2 16777216) with 25. rewrite fexp32_normal by lia.
    replace (25 + e1 - 24 - e1) with 1 by lia. simpl.
    unfold F32.emax, F32.prec. by rewrite (Zle_imp_le_bool (e1 + 1) (128 - 24)) by lia.
  - assert (Hd : Z.pos (digits2_pos p) = 24) by (apply digits2_pos_unique; lia).
    exists p, e1. split; [|split; [done|lia]].
    unfold roundFinish, shr_fexp. simpl Zdigits2. rewrite Hd.
    rewrite fexp32_normal by lia. replace (24 + e1 - 24 - e1) with 0 by lia. simpl.
    unfold F32.emax, F32.prec. by rewrite (Zle_imp_le_bool e1 (128 - 24)) by lia.
Qed.

Lemma pos_iter_xO (p k : positive) : Z.pos (Pos.iter xO p k) = Z.pos p * 2 ^ Z.pos k.
Proof.
  induction k as [|k IH] using Pos.peano_ind.
  - simpl. lia.
  - rewrite Pos.iter_succ, Pos2Z.inj_succ, Z.pow_succ_r by lia.
    rewrite Pos2Z.inj_xO, IH. lia.
Qed.

(** [float32(n)] of a positive [int] is a normal value. *)
Lemma of_int_normal (n : Z) :
  0 < n <= GoInt.max_int →
  ∃ m e, F32.of_int n = S754_finite false m e
         ∧ Z.pos (digits2_pos m) = 24 ∧ -23 <= e <= 40.
Proof.
  intros Hn. destruct n as [|p|p]; [lia| |lia].
  pose proof (digits2_pos_bounds p) as Hp.
  set (d := Z.pos (digits2_pos p)) in *.
  assert (Hd : 1 <= d <= 63).
  { split; [subst d; lia|].
    destruct (decide (d <= 63)) as [|Hgt]; [done|].
    assert (2 ^ 63 <= 2 ^ (d - 1)) by (apply Z.pow_le_mono_r; lia).
    unfold GoInt.max_int in Hn. lia. }
  unfold F32.of_int, binary_normalize, binary_round, shl_align. fold d.
  rewrite Z.add_0_r, fexp32_normal, Z.sub_0_r by lia.
  destruct (d - 24) as [|k|k] eqn:Hk.
  - exists p, 0. split; [|split; [subst d; lia|lia]].
    apply round_aux_noshift; [subst d; lia|lia].
  - rewrite binary_round_aux_finish. unfold shr_fexp. simpl Zdigits2. fold d.
    rewrite Z.add_0_r, fexp32_normal, Z.sub_0_r, Hk by lia. simpl shr.
    set (mrs1 := SpecFloat.iter_pos shr_1 k _).
    assert (Hq : shr_m mrs1 = Z.pos p / 2 ^ Z.pos k).
    { subst mrs1. by rewrite shr_iter_m. }
    assert (Hpow : 2 ^ d = 2 ^ 24 * 2 ^ Z.pos k).
    { replace d with (24 + Z.pos k) by lia. by rewrite Z.pow_add_r by lia. }
    assert (Hpow' : 2 ^ (d - 1) = 2 ^ 23 * 2 ^ Z.pos k).
    { replace (d - 1) with (23 + Z.pos k) by lia. by rewrite Z.pow_add_r by lia. }
    assert (Hqr : 2 ^ 23 <= shr_m mrs1 < 2 ^ 24).
    { rewrite Hq. split.
      - apply Z.div_le_lower_bound; lia.
      - apply Z.div_lt_upper_bound; lia. }
    pose proof (round_nearest_even_range (shr_m mrs1) (loc_of_shr_record mrs1)) as Hr.
    destruct (roundFinish_normal false
                (round_nearest_even (shr_m mrs1) (loc_of_shr_record mrs1)) (Z.pos k))
      as (m & e & Hfin & Hm & He); [lia|lia|].
    exists m, e. split; [exact Hfin|]. split; [done|lia].
  - assert (Hm : Z.pos (digits2_pos (Pos.iter xO p k)) = 24).
    { apply digits2_pos_unique. rewrite pos_iter_xO.
      assert (Hpow : 2 ^ 24 = 2 ^ d * 2 ^ Z.pos k).
      { replace 24 with (d + Z.pos k) at 1 by lia. by rewrite Z.pow_add_r by lia. }
      assert (Hpow' : 2 ^ (24 - 1) = 2 ^ (d - 1) * 2 ^ Z.pos k).
      { replace (24 - 1) with (d - 1 + Z.pos k) by lia. by rewrite Z.pow_add_r by lia. }
      rewrite Hpow, Hpow'. assert (0 < 2 ^ Z.pos k) by lia. nia. }
    exists (Pos.iter xO p k), (Z.neg k). split; [|split; [done|lia]].
    apply round_aux_noshift; [done|lia].
Qed.

Lemma intArea_exact (x1 y1 x2 y2 : Z) :
  x1 < x2 → y1 < y2 → (x2 - x1) * (y2 - y1) <= GoInt.max_int →
  intArea x1 y1 x2 y2 = (x2 - x1) * (y2 - y1).
Proof.
  intros Hx Hy Harea. unfold intArea, GoInt.mul, GoInt.sub.
  assert (GoInt.max_int = 9223372036854775807) as Hmax by reflexivity.
  assert (GoInt.min_int = -9223372036854775808) as Hmin by reflexivity.
  rewrite (wrap_small (x2 - x1)) by nia.
  rewrite (wrap_small (y2 - y1)) by nia.
  apply wrap_small. nia.
Qed.

(** C5 (as stated, refuted). A box of side 2^32 has positive area, and
    its IoU with itself is NaN because the area wraps to 0; an inverted
    box has the positive computed area 25, and its IoU with itself is 0. *)
Lemma identical_boxes_iou_not_one :
  (X1 (squareBox 0 (2 ^ 32)) < X2 (squareBox 0 (2 ^ 32))
   ∧ computeIoU (squareBox 0 (2 ^ 32)) (squareBox 0 (2 ^ 32)) = S754_nan)
  ∧ (intArea 5 5 0 0 = 25
     ∧ computeIoU (squareBox 5 0) (squareBox 5 0) = F32.zero).
Proof. split; split; by vm_compute. Qed.

(** C5 (amended). On boxes whose areas fit [int]: the IoU of a box with
    [x1 < x2] and [y1 < y2] with itself is 1.0; the IoU of two boxes whose
    intersection is empty or has zero width or height is 0.0, whatever
    their areas; otherwise the IoU is the binary32 quotient of the
    intersection area by [areaA + areaB - intersection]. *)
Theorem computeIoU_cases (a b : BBox) :
  (X1 a < X2 a → Y1 a < Y2 a → areaOf a <= GoInt.max_int →
   computeIoU a a = F32.one)
  ∧ (X2 (interOf a b) <= X1 (interOf a b) ∨ Y2 (interOf a b) <= Y1 (interOf a b) →
     computeIoU a b = F32.zero)
  ∧ (X1 (interOf a b) < X2 (interOf a b) → Y1 (interOf a b) < Y2 (interOf a b) →
     areaOf a <= GoInt.max_int → areaOf b <= GoInt.max_int →
     computeIoU a b
     = F32.div (F32.of_int (areaOf (interOf a b)))
         (F32.sub (F32.add (F32.of_int (areaOf a)) (F32.of_int (areaOf b)))
                  (F32.of_int (areaOf (interOf a b))))).
Proof.
  unfold areaOf, interOf. simpl. split; [|split].
  - intros Hx Hy Harea. unfold computeIoU.
    rewrite !Z.max_id, !Z.min_id.
    rewrite (bool_decide_eq_false_2 (X2 a <= X1 a)) by lia.
    rewrite (bool_decide_eq_false_2 (Y2 a <= Y1 a)) by lia. simpl.
    rewrite intArea_exact by done.
    destruct (of_int_normal ((X2 a - X1 a) * (Y2 a - Y1 a)))
      as (m & e & -> & Hm & He); [nia|].
    rewrite f32_add_self, f32_sub_double by (done || lia).
    apply f32_div_self.
  - intros Hdeg. unfold computeIoU.
    destruct Hdeg as [Hx|Hy].
    + by rewrite (bool_decide_eq_true_2 _ Hx).
    + rewrite (bool_decide_eq_true_2 _ Hy). by rewrite orb_true_r.
  - intros Hx Hy Ha Hb. unfold computeIoU.
    rewrite (bool_decide_eq_false_2 (_ <= Z.max (X1 a) (X1 b))) by lia.
    rewrite (bool_decide_eq_false_2 (_ <= Z.max (Y1 a) (Y1 b))) by lia. simpl.
    rewrite (intArea_exact (X1 a)), (intArea_exact (X1 b)) by (lia || done).
    rewrite intArea_exact; [done|lia|lia|].
    assert (GoInt.max_int = 9223372036854775807) as Hmax by reflexivity.
    nia.
Qed.

Lemma computeIoU_cases_witness :
  computeIoU (squareBox 0 10) (squareBox 0 10) = F32.one
  ∧ computeIoU (squareBox 0 10) (squareBox 20 30) = F32.zero
  ∧ computeIoU (squareBox 0 10) (squareBox 5 15)
    = F32.div (F32.of_int 25)
        (F32.sub (F32.add (F32.of_int 100) (F32.of_int 100)) (F32.of_int 25)).
Proof.
  split; [|split].
  - apply (computeIoU_cases (squareBox 0 10) (squareBox 0 10)); by vm_compute.
  - apply (computeIoU_cases (squareBox 0 10) (squareBox 20 30)). left. by vm_compute.
  - apply (computeIoU_cases (squareBox 0 10) (squareBox 5 15)); by vm_compute.
Defined.

(** ** Go's [sort.Slice]: the result is a sorted permutation *)

Section SwapFacts.

Context {A : Type}.
Implicit Types (l : list A) (i j k a b : nat).

Lemma Swap_length l i j : length (GoSort.Swap l i j) = length l.
Proof.
  unfold GoSort.Swap. destruct (l !! i), (l !! j); try done.
  by rewrite !length_insert.
Qed.

Lemma Swap_lookup l i j k :
  (i < length l)%nat → (j < length l)%nat →
  GoSort.Swap l i j !! k
  = if decide (k = i) then l !! j else if decide (k = j) then l !! i else l !! k.
Proof.
  intros Hi Hj. unfold GoSort.Swap.
  destruct (lookup_lt_is_Some_2 l i Hi) as [x Hx].
  destruct (lookup_lt_is_Some_2 l j Hj) as [y Hy].
  rewrite Hx, Hy. destruct (decide (k = i)) as [->|Hki].
  - rewrite list_lookup_insert_eq; [done|]. by rewrite length_insert.
  - rewrite list_lookup_insert_ne by done. destruct (decide (k = j)) as [->|Hkj].
    + by rewrite list_lookup_insert_eq.
    + by rewrite list_lookup_insert_ne.
Qed.

Lemma Swap_lookup_other l i j k :
  k ≠ i → k ≠ j → GoSort.Swap l i j !! k = l !! k.
Proof.
  intros Hi Hj. unfold GoSort.Swap.
  destruct (l !! i), (l !! j); try done.
  by rewrite !list_lookup_insert_ne.
Qed.

Lemma insert_head_Permutation l j (x y : A) :
  l !! j = Some y → y :: <[j := x]> l ≡ₚ x :: l.
Proof.
  revert j. induction l as [|z l IH]; intros [|j] Hj; simplify_eq/=.
  - apply perm_swap.
  - rewrite perm_swap. rewrite (IH j Hj). apply perm_swap.
Qed.

Lemma Swap_Permutation l i j : l ≡ₚ GoSort.Swap l i j.
Proof.
  unfold GoSort.Swap.
  destruct (l !! i) as [x|] eqn:Hx; [|done].
  destruct (l !! j) as [y|] eqn:Hy; [|done].
  revert i j Hx Hy. induction l as [|z l IH]; intros [|i] [|j] Hx Hy; simplify_eq/=.
  - done.
  - symmetry. by apply insert_head_Permutation.
  - symmetry. by apply insert_head_Permutation.
  - f_equiv. by apply IH.
Qed.

Lemma lookup_seg a b l k :
  seg a b l !! k = if decide (k < b - a)%nat then l !! (a + k)%nat else None.
Proof.
  unfold seg. case_decide.
  - by rewrite lookup_take_lt, lookup_drop.
  - by rewrite lookup_take_ge by lia.
Qed.

Lemma seg_split a m b l :
  (a <= m <= b)%nat → seg a b l = seg a m l ++ seg m b l.
Proof.
  intros H. unfold seg.
  replace (drop m l) with (drop (m - a) (drop a l))
    by (rewrite drop_drop; f_equal; lia).
  rewrite take_take_drop. f_equal. lia.
Qed.

Lemma seg_ext a b l l' :
  length l' = length l →
  (∀ k, (a <= k < b)%nat → l' !! k = l !! k) → seg a b l' = seg a b l.
Proof.
  intros Hlen H. apply list_eq. intros k. rewrite !lookup_seg.
  case_decide; [|done]. apply H. lia.
Qed.

Lemma seg_full l : seg 0 (length l) l = l.
Proof. unfold seg. rewrite Nat.sub_0_r, drop_0. apply firstn_all. Qed.

Lemma allOn_seg (Q : A → Prop) a b l :
  allOn Q a b l ↔ Forall Q (seg a b l).
Proof.
  rewrite Forall_lookup. unfold allOn. split.
  - intros H k x. rewrite lookup_seg. case_decide; [|done]. apply H. lia.
  - intros H k x Hk Hx. apply (H (k - a)%nat). rewrite lookup_seg.
    rewrite decide_True by lia. by replace (a + (k - a))%nat with k by lia.
Qed.

Lemma rangePerm_refl a b l : rangePerm a b l l.
Proof. by split; [|split]. Qed.

Lemma rangePerm_trans a b l1 l2 l3 :
  rangePerm a b l1 l2 → rangePerm a b l2 l3 → rangePerm a b l1 l3.
Proof.
  intros (Hlen1 & Hout1 & Hp1) (Hlen2 & Hout2 & Hp2). split; [congruence|]. split.
  - intros k Hk. by rewrite Hout2, Hout1.
  - by rewrite Hp1.
Qed.

Lemma rangePerm_widen a a' b' b l l' :
  (a <= a')%nat → (a' <= b')%nat → (b' <= b)%nat →
  rangePerm a' b' l l' → rangePerm a b l l'.
Proof.
  intros H1 H2 H3 (Hlen & Hout & Hp). split; [done|]. split.
  - intros k Hk. apply Hout. lia.
  - rewrite (seg_split a a' b l), (seg_split a' b' b l) by lia.
    rewrite (seg_split a a' b l'), (seg_split a' b' b l') by lia.
    rewrite (seg_ext a a' l l'), (seg_ext b' b l l'); [by rewrite Hp|done| |done|].
    + intros k Hk. apply Hout. lia.
    + intros k Hk. apply Hout. lia.
Qed.

Lemma rangePerm_allOn (Q : A → Prop) a b l l' :
  rangePerm a b l l' → allOn Q a b l → allOn Q a b l'.
Proof.
  intros (_ & _ & Hp). rewrite !allOn_seg. by rewrite Hp.
Qed.

Lemma rangePerm_allOn_outside (Q : A → Prop) a b c d l l' :
  rangePerm a b l l' → (d <= a ∨ b <= c)%nat → allOn Q c d l → allOn Q c d l'.
Proof.
  intros (_ & Hout & _) Hdis H k x Hk Hx. apply (H k); [done|].
  rewrite <- Hout; [done|lia].
Qed.

Lemma rangePerm_Permutation a b l l' :
  (a <= b <= length l)%nat → rangePerm a b l l' → l ≡ₚ l'.
Proof.
  intros Hab Hrp.
  assert (Hfull : rangePerm 0 (length l) l l').
  { eapply rangePerm_widen; [| |  |exact Hrp]; lia. }
  destruct Hfull as (Hlen & _ & Hp).
  rewrite seg_full in Hp. rewrite <- Hlen, seg_full in Hp. done.
Qed.

Lemma Swap_rangePerm a b l i j :
  (a <= i < b)%nat → (a <= j < b)%nat → (b <= length l)%nat →
  rangePerm a b l (GoSort.Swap l i j).
Proof.
  intros Hi Hj Hb. split; [apply Swap_length|]. split.
  - intros k Hk. apply Swap_lookup_other; lia.
  - assert (Hseg : seg a b (GoSort.Swap l i j)
                   = GoSort.Swap (seg a b l) (i - a) (j - a)).
    { apply list_eq. intros k.
      assert (Hlen : length (seg a b l) = (b - a)%nat).
      { unfold seg. rewrite length_take, length_drop. lia. }
      rewrite lookup_seg, !Swap_lookup by lia. rewrite !lookup_seg.
      rewrite !(decide_True (P := (_ - a < b - a)%nat)) by lia.
      replace (a + (i - a))%nat with i by lia.
      replace (a + (j - a))%nat with j by lia.
      repeat case_decide; try done; lia. }
    rewrite Hseg. apply Swap_Permutation.
Qed.

End SwapFacts.

Section SortOrder.

Context {A : Type} (less : A → A → bool) (P : A → Prop).
Hypothesis Hswo : StrictWeakOn P less.
Implicit Types (l : list A) (i j k a b : nat).

Lemma less_asym x y : P x → P y → less x y = true → less y x = false.
Proof.
  intros Hx Hy Hxy. destruct (less y x) eqn:Hyx; [|done].
  pose proof (swo_trans P less Hswo x y x Hx Hy Hx Hxy Hyx) as Hxx.
  rewrite (swo_irrefl P less Hswo x Hx) in Hxx. done.
Qed.

(** [x < y] and [y <= z] give [x < z]. *)
Lemma less_le_trans x y z :
  P x → P y → P z → less x y = true → less z y = false → less x z = true.
Proof.
  intros Hx Hy Hz Hxy Hzy. destruct (less x z) eqn:Hxz; [done|].
  pose proof (swo_ntrans P less Hswo x z y Hx Hz Hy Hxz Hzy). congruence.
Qed.

(** [x <= y] and [y < z] give [x < z]. *)
Lemma le_less_trans x y z :
  P x → P y → P z → less y x = false → less y z = true → less x z = true.
Proof.
  intros Hx Hy Hz Hyx Hyz. destruct (less x z) eqn:Hxz; [done|].
  pose proof (swo_ntrans P less Hswo y x z Hy Hx Hz Hyx Hxz). congruence.
Qed.

Lemma Less_lookup l i j x y :
  l !! i = Some x → l !! j = Some y → GoSort.Less less l i j = less x y.
Proof. intros Hi Hj. unfold GoSort.Less. by rewrite Hi, Hj. Qed.

Lemma rangePerm_Forall a b l l' :
  (a <= b <= length l)%nat → rangePerm a b l l' → Forall P l → Forall P l'.
Proof. intros Hab Hrp HP. by rewrite <- (rangePerm_Permutation a b l l' Hab Hrp). Qed.

Lemma sortedOn_outside a b c d l l' :
  rangePerm a b l l' → (d <= a ∨ b <= c)%nat →
  sortedOn less c d l → sortedOn less c d l'.
Proof.
  intros (_ & Hout & _) Hdis Hs i j x y Hi Hij Hj Hx Hy.
  apply (Hs i j x y); try done; rewrite <- Hout; (done || lia).
Qed.

(** *** [insertionSort_func] *)

(** The inner loop: the range [a, n] is sorted except that the element at
    [j] may have to move left; afterwards the whole range is sorted. *)
Lemma insertionInner_spec a n :
  ∀ j l,
    (a <= j <= n)%nat → (n < length l)%nat → Forall P l →
    (∀ p q x y, (a <= p)%nat → (p < q)%nat → (q <= n)%nat → p ≠ j → q ≠ j →
                l !! p = Some x → l !! q = Some y → less y x = false) →
    (∀ q x y, (j < q <= n)%nat → l !! j = Some x → l !! q = Some y →
              less y x = false) →
    rangePerm a (S n) l (GoSort.insertionInner less a j l)
    ∧ sortedOn less a (S n) (GoSort.insertionInner less a j l).
Proof.
  induction j as [|j IH]; intros l Hj Hn HP Hrest Hright.
  - simpl. split; [apply rangePerm_refl|].
    intros p q x y Hp Hpq Hq Hx Hy.
    destruct (decide (p = 0%nat)) as [->|Hp0].
    + apply (Hright q x y); [lia|done..].
    + apply (Hrest p q x y); try done; lia.
  - simpl.
    destruct (lookup_lt_is_Some_2 l (S j)) as [u Hu]; [lia|].
    destruct (lookup_lt_is_Some_2 l j) as [v Hv]; [lia|].
    assert (HPu : P u) by (by eapply Forall_lookup_1).
    assert (HPv : P v) by (by eapply Forall_lookup_1).
    rewrite (Less_lookup l (S j) j u v) by done.
    destruct (a <? S j)%nat eqn:Haj; simpl.
    + apply Nat.ltb_lt in Haj. destruct (less u v) eqn:Huv.
      * assert (Hsw : rangePerm a (S n) l (GoSort.Swap l (S j) j))
          by (apply Swap_rangePerm; lia).
        destruct (IH (GoSort.Swap l (S j) j)) as [Hrp Hsorted].
        -- lia.
        -- by rewrite Swap_length.
        -- by apply (rangePerm_Forall a (S n) l); [lia|..].
        -- intros p q x y Hp Hpq Hq Hpj Hqj.
           rewrite !Swap_lookup by lia. repeat case_decide; subst; try lia;
             intros Hx Hy; (eapply (Hrest _ _ x y); [..|exact Hx|exact Hy]; lia).
        -- intros q x y Hq. rewrite !Swap_lookup by lia.
           repeat case_decide; subst; try lia; intros Hx Hy.
           ++ simplify_eq. by apply less_asym.
           ++ eapply (Hright _ x y); [|exact Hx|exact Hy]; lia.
        -- split; [by eapply rangePerm_trans|done].
      * split; [apply rangePerm_refl|].
        intros p q x y Hp Hpq Hq Hx Hy.
        assert (HPx : P x) by (by eapply Forall_lookup_1).
        assert (HPy : P y) by (by eapply Forall_lookup_1).
        destruct (decide (q = S j)) as [->|Hqj].
        -- rewrite Hu in Hy. injection Hy as <-.
           destruct (decide (p = j)) as [->|Hpj].
           { rewrite Hv in Hx. by injection Hx as <-. }
           apply (swo_ntrans P less Hswo u v x); try done.
           apply (Hrest p j x v); try done; lia.
        -- destruct (decide (p = S j)) as [->|Hpj].
           ++ apply (Hright q x y); [lia|done..].
           ++ apply (Hrest p q x y); try done; lia.
    + apply Nat.ltb_ge in Haj. assert (a = S j) as -> by lia.
      split; [apply rangePerm_refl|].
      intros p q x y Hp Hpq Hq Hx Hy.
      destruct (decide (p = S j)) as [->|Hpj].
      * apply (Hright q x y); [lia|done..].
      * apply (Hrest p q x y); try done; lia.
Qed.

Lemma insertionLoop_spec a b (k : nat) :
  ∀ i l,
    (a < i)%nat → (i + k = b)%nat → (b <= length l)%nat → Forall P l →
    sortedOn less a i l →
    rangePerm a b l
      (foldl (λ d i, GoSort.insertionInner less a i d) l (seq i k))
    ∧ sortedOn less a b
        (foldl (λ d i, GoSort.insertionInner less a i d) l (seq i k)).
Proof.
  induction k as [|k IH]; intros i l Hai Hik Hb HP Hs; simpl.
  - split; [apply rangePerm_refl|]. by replace b with i by lia.
  - destruct (insertionInner_spec a i i l) as [Hrp Hs']; [lia|lia|done| | |].
    + intros p q x y Hp Hpq Hq Hpi Hqi. apply Hs; (done || lia).
    + intros q x y Hq. lia.
    + destruct (IH (S i) (GoSort.insertionInner less a i l)) as [Hrp' Hs''].
      * lia.
      * lia.
      * destruct Hrp as (-> & _). done.
      * by apply (rangePerm_Forall a (S i) l); [lia|..].
      * done.
      * split; [|done]. eapply rangePerm_trans; [|exact Hrp'].
        eapply rangePerm_widen; [| | |exact Hrp]; lia.
Qed.

Lemma insertionSort_spec a b l :
  (a <= b <= length l)%nat → Forall P l →
  rangePerm a b l (GoSort.insertionSort_func less l a b)
  ∧ sortedOn less a b (GoSort.insertionSort_func less l a b).
Proof.
  intros Hab HP. unfold GoSort.insertionSort_func.
  destruct (decide (b <= a + 1)%nat) as [Hsmall|Hbig].
  - replace (b - (a + 1))%nat with 0%nat by lia. simpl.
    split; [apply rangePerm_refl|]. intros i j x y Hi Hij Hj. lia.
  - apply insertionLoop_spec; [lia|lia|lia|done|].
    intros i j x y Hi Hij Hj. lia.
Qed.

(** *** [partition_func] *)

Lemma skipLess_spec l a p :
  l !! a = Some p →
  ∀ n i, (i + n <= length l)%nat →
    (i <= GoSort.skipLess less l a i n <= i + n)%nat
    ∧ allOn (λ x, less x p = true) i (GoSort.skipLess less l a i n) l
    ∧ ((GoSort.skipLess less l a i n < i + n)%nat →
       ∀ x, l !! GoSort.skipLess less l a i n = Some x → less x p = false).
Proof.
  intros Hp. induction n as [|n IH]; intros i Hlen; simpl.
  - split; [lia|]. split; [intros k x Hk; lia|lia].
  - destruct (lookup_lt_is_Some_2 l i) as [u Hu]; [lia|].
    rewrite (Less_lookup l i a u p) by done.
    destruct (less u p) eqn:Hup.
    + destruct (IH (S i)) as (Hr & Hall & Hstop); [lia|].
      split; [lia|]. split.
      * intros k x Hk Hx. destruct (decide (k = i)) as [->|Hki].
        -- rewrite Hu in Hx. by injection Hx as <-.
        -- apply (Hall k x); [lia|done].
      * intros Hlt. apply Hstop. lia.
    + split; [lia|]. split; [intros k x Hk; lia|].
      intros _ x Hx. rewrite Hu in Hx. by injection Hx as <-.
Qed.

Lemma skipNotLess_spec l a p :
  l !! a = Some p →
  ∀ n j, (n <= j)%nat → (j < length l)%nat →
    (GoSort.skipNotLess less l a j n <= j)%nat
    ∧ (j <= GoSort.skipNotLess less l a j n + n)%nat
    ∧ allOn (λ x, less x p = false) (S (GoSort.skipNotLess less l a j n)) (S j) l
    ∧ ((j < GoSort.skipNotLess less l a j n + n)%nat →
       ∀ x, l !! GoSort.skipNotLess less l a j n = Some x → less x p = true).
Proof.
  intros Hp. induction n as [|n IH]; intros j Hn Hlen; simpl.
  - split; [lia|]. split; [lia|]. split; [intros k x Hk; lia|lia].
  - destruct (lookup_lt_is_Some_2 l j) as [u Hu]; [lia|].
    rewrite (Less_lookup l j a u p) by done.
    destruct (less u p) eqn:Hup; simpl.
    + split; [lia|]. split; [lia|]. split; [intros k x Hk; lia|].
      intros _ x Hx. rewrite Hu in Hx. by injection Hx as <-.
    + destruct (IH (j - 1)%nat) as (Hr1 & Hr2 & Hall & Hstop); [lia|lia|].
      split; [lia|]. split; [lia|]. split.
      * intros k x Hk Hx. destruct (decide (k = j)) as [->|Hkj].
        -- rewrite Hu in Hx. by injection Hx as <-.
        -- apply (Hall k x); [lia|done].
      * intros Hlt. apply Hstop. lia.
Qed.

(** One turn of the partition loop: the scans either cross, or stop at a
    pair that is exchanged. *)
Lemma partition_step (p : A) a b l0 l i j :
  (b <= length l0)%nat →
  partInv (λ x, less x p = true) (λ x, less x p = false) p a b l0 l i j →
  let i1 := GoSort.skipLess less l a i (j + 1 - i) in
  let j1 := GoSort.skipNotLess less l a j (j + 1 - i1) in
  ((j1 < i1)%nat
   ∧ partInv (λ x, less x p = true) (λ x, less x p = false) p a b l0 l i1 j1
   ∧ i1 = (j1 + 1)%nat)
  ∨ ((i1 <= j1)%nat ∧ (i <= i1)%nat ∧ (j1 <= j)%nat
     ∧ partInv (λ x, less x p = true) (λ x, less x p = false) p a b l0
         (GoSort.Swap l i1 j1) (i1 + 1) (j1 - 1)).
Proof.
  intros Hb (Hrp & Hp & Hfront & Hback & Hij & Hjb) i1 j1.
  assert (Hlen : length l = length l0) by (by destruct Hrp).
  destruct (skipLess_spec l a p Hp (j + 1 - i) i) as (Hi1 & Hall1 & Hstop1); [lia|].
  fold i1 in Hi1, Hall1, Hstop1.
  destruct (skipNotLess_spec l a p Hp (j + 1 - i1) j) as (Hj1 & Hj1' & Hall2 & Hstop2);
    [lia|lia|].
  fold j1 in Hj1, Hj1', Hall2, Hstop2.
  assert (Hfront' : allOn (λ x, less x p = true) (a + 1) i1 l).
  { intros k x Hk Hx. destruct (decide (k < i)%nat).
    - apply (Hfront k x); [lia|done].
    - apply (Hall1 k x); [lia|done]. }
  assert (Hback' : allOn (λ x, less x p = false) (j1 + 1) b l).
  { intros k x Hk Hx. destruct (decide (k <= j)%nat).
    - apply (Hall2 k x); [lia|done].
    - apply (Hback k x); [lia|done]. }
  destruct (decide (j1 < i1)%nat) as [Hcross|Hnocross].
  - left. split; [done|]. split; [|lia].
    split; [done|]. split; [done|]. split; [done|]. split; [done|]. lia.
  - right. split; [lia|]. split; [lia|]. split; [lia|].
    destruct (lookup_lt_is_Some_2 l i1) as [u Hu]; [lia|].
    destruct (lookup_lt_is_Some_2 l j1) as [v Hv]; [lia|].
    assert (Hup : less u p = false) by (apply Hstop1; [lia|done]).
    assert (Hvp : less v p = true) by (apply Hstop2; [lia|done]).
    assert (Hne : i1 ≠ j1) by (intros Heq; rewrite Heq in Hu; congruence).
    split; [|split; [|split; [|split]]].
    + eapply rangePerm_trans; [exact Hrp|]. apply Swap_rangePerm; lia.
    + rewrite Swap_lookup_other by lia. done.
    + intros k x Hk. rewrite Swap_lookup by lia. repeat case_decide; try lia.
      * intros Hx. rewrite Hv in Hx. by injection Hx as <-.
      * intros Hx. apply (Hfront' k x); [lia|done].
    + intros k x Hk. rewrite Swap_lookup by lia. repeat case_decide; try lia.
      * intros Hx. rewrite Hu in Hx. by injection Hx as <-.
      * intros Hx. apply (Hback' k x); [lia|done].
    + lia.
Qed.

Lemma partitionLoop_spec (p : A) a b l0 :
  (b <= length l0)%nat →
  ∀ fuel l i j,
    partInv (λ x, less x p = true) (λ x, less x p = false) p a b l0 l i j →
    (j + 1 - i <= fuel)%nat →
    ∀ l' i' j', GoSort.partitionLoop less fuel l a i j = (l', i', j') →
      partInv (λ x, less x p = true) (λ x, less x p = false) p a b l0 l' i' j'
      ∧ i' = (j' + 1)%nat.
Proof.
  intros Hb. induction fuel as [|fuel IH]; intros l i j Hinv Hfuel l' i' j' Heq.
  - simpl in Heq. injection Heq as <- <- <-. split; [done|].
    destruct Hinv as (_ & _ & _ & _ & Hij & _). lia.
  - simpl in Heq.
    destruct (partition_step p a b l0 l i j Hb Hinv)
      as [(Hcross & Hinv' & Heq')|(Hno & Hi1 & Hj1 & Hinv')].
    + apply Nat.ltb_lt in Hcross. rewrite Hcross in Heq.
      injection Heq as <- <- <-. done.
    + assert (Hno' := Hno). apply Nat.ltb_ge in Hno'. rewrite Hno' in Heq.
      apply (IH _ _ _ Hinv'); [lia|done].
Qed.

(** [partition_func] returns; afterwards the pivot element sits at [mid],
    the elements before it in the range are less than it and those after
    it are not. *)
Lemma partition_func_spec a b l pivot (p : A) :
  (a <= pivot < b)%nat → (b <= length l)%nat → l !! pivot = Some p →
  ∀ l' mid ap, GoSort.partition_func less l a b pivot = (l', mid, ap) →
    rangePerm a b l l' ∧ (a <= mid < b)%nat ∧ l' !! mid = Some p
    ∧ allOn (λ x, less x p = true) a mid l'
    ∧ allOn (λ x, less x p = false) (mid + 1) b l'.
Proof.
  intros Hpivot Hb Hp l' mid ap Heq. unfold GoSort.partition_func in Heq.
  set (l1 := GoSort.Swap l a pivot) in *.
  assert (Hinv : partInv (λ x, less x p = true) (λ x, less x p = false) p a b l
                   l1 (a + 1) (b - 1)).
  { split; [apply Swap_rangePerm; lia|]. split.
    - subst l1. rewrite Swap_lookup by lia. by rewrite decide_True.
    - split; [intros k x Hk; lia|]. split; [intros k x Hk; lia|]. lia. }
  assert (Hfinal : ∀ d i j,
    partInv (λ x, less x p = true) (λ x, less x p = false) p a b l d i j →
    i = (j + 1)%nat →
    rangePerm a b l (GoSort.Swap d j a) ∧ (a <= j < b)%nat
    ∧ GoSort.Swap d j a !! j = Some p
    ∧ allOn (λ x, less x p = true) a j (GoSort.Swap d j a)
    ∧ allOn (λ x, less x p = false) (j + 1) b (GoSort.Swap d j a)).
  { intros d i j (Hrp & Hda & Hfront & Hback & Hij & Hjb) ->.
    assert (Hlen : length d = length l) by (by destruct Hrp).
    split; [eapply rangePerm_trans; [exact Hrp|apply Swap_rangePerm; lia]|].
    split; [lia|]. split; [rewrite Swap_lookup by lia; by rewrite decide_True|].
    split.
    - intros k x Hk. rewrite Swap_lookup by lia. repeat case_decide; try lia.
      + intros Hx. apply (Hfront j x); [lia|done].
      + intros Hx. apply (Hfront k x); [lia|done].
    - intros k x Hk. rewrite Swap_lookup by lia. repeat case_decide; try lia.
      intros Hx. apply (Hback k x); [lia|done]. }
  destruct (partition_step p a b l l1 (a + 1) (b - 1) Hb Hinv)
    as [(Hcross & Hinv' & Heq')|(Hno & Hi1 & Hj1 & Hinv')].
  - apply Nat.ltb_lt in Hcross. rewrite Hcross in Heq.
    injection Heq as <- <- <-. by eapply Hfinal.
  - assert (Hno' := Hno). apply Nat.ltb_ge in Hno'. rewrite Hno' in Heq.
    destruct (GoSort.partitionLoop less _ _ a _ _) as [[d i] j] eqn:Hloop.
    injection Heq as <- <- <-.
    eapply (partitionLoop_spec p a b l Hb) in Hloop; [|exact Hinv'|lia].
    destruct Hloop as [Hinv'' Hij]. by eapply Hfinal.
Qed.

(** *** [partitionEqual_func] *)

Lemma skipNotGreater_spec l a p :
  l !! a = Some p →
  ∀ n i, (i + n <= length l)%nat →
    (i <= GoSort.skipNotGreater less l a i n <= i + n)%nat
    ∧ allOn (λ x, less p x = false) i (GoSort.skipNotGreater less l a i n) l
    ∧ ((GoSort.skipNotGreater less l a i n < i + n)%nat →
       ∀ x, l !! GoSort.skipNotGreater less l a i n = Some x → less p x = true).
Proof.
  intros Hp. induction n as [|n IH]; intros i Hlen; simpl.
  - split; [lia|]. split; [intros k x Hk; lia|lia].
  - destruct (lookup_lt_is_Some_2 l i) as [u Hu]; [lia|].
    rewrite (Less_lookup l a i p u) by done.
    destruct (less p u) eqn:Hup; simpl.
    + split; [lia|]. split; [intros k x Hk; lia|].
      intros _ x Hx. rewrite Hu in Hx. by injection Hx as <-.
    + destruct (IH (S i)) as (Hr & Hall & Hstop); [lia|].
      split; [lia|]. split.
      * intros k x Hk Hx. destruct (decide (k = i)) as [->|Hki].
        -- rewrite Hu in Hx. by injection Hx as <-.
        -- apply (Hall k x); [lia|done].
      * intros Hlt. apply Hstop. lia.
Qed.

Lemma skipGreater_spec l a p :
  l !! a = Some p →
  ∀ n j, (n <= j)%nat → (j < length l)%nat →
    (GoSort.skipGreater less l a j n <= j)%nat
    ∧ (j <= GoSort.skipGreater less l a j n + n)%nat
    ∧ allOn (λ x, less p x = true) (S (GoSort.skipGreater less l a j n)) (S j) l
    ∧ ((j < GoSort.skipGreater less l a j n + n)%nat →
       ∀ x, l !! GoSort.skipGreater less l a j n = Some x → less p x = false).
Proof.
  intros Hp. induction n as [|n IH]; intros j Hn Hlen; simpl.
  - split; [lia|]. split; [lia|]. split; [intros k x Hk; lia|lia].
  - destruct (lookup_lt_is_Some_2 l j) as [u Hu]; [lia|].
    rewrite (Less_lookup l a j p u) by done.
    destruct (less p u) eqn:Hup; simpl.
    + destruct (IH (j - 1)%nat) as (Hr1 & Hr2 & Hall & Hstop); [lia|lia|].
      split; [lia|]. split; [lia|]. split.
      * intros k x Hk Hx. destruct (decide (k = j)) as [->|Hkj].
        -- rewrite Hu in Hx. by injection Hx as <-.
        -- apply (Hall k x); [lia|done].
      * intros Hlt. apply Hstop. lia.
    + split; [lia|]. split; [lia|]. split; [intros k x Hk; lia|].
      intros _ x Hx. rewrite Hu in Hx. by injection Hx as <-.
Qed.

Lemma partitionEqualLoop_spec (p : A) a b l0 :
  (b <= length l0)%nat →
  ∀ fuel l i j,
    partInv (λ x, less p x = false) (λ x, less p x = true) p a b l0 l i j →
    (j + 1 - i <= fuel)%nat →
    ∀ l' i', GoSort.partitionEqualLoop less fuel l a i j = (l', i') →
      ∃ j', partInv (λ x, less p x = false) (λ x, less p x = true) p a b l0 l' i' j'
            ∧ i' = (j' + 1)%nat.
Proof.
  intros Hb. induction fuel as [|fuel IH]; intros l i j Hinv Hfuel l' i' Heq.
  - simpl in Heq. injection Heq as <- <-. exists j. split; [done|].
    destruct Hinv as (_ & _ & _ & _ & Hij & _). lia.
  - simpl in Heq. destruct Hinv as (Hrp & Hp & Hfront & Hback & Hij & Hjb).
    assert (Hlen : length l = length l0) by (by destruct Hrp).
    set (i1 := GoSort.skipNotGreater less l a i (j + 1 - i)) in *.
    set (j1 := GoSort.skipGreater less l a j (j + 1 - i1)) in *.
    destruct (skipNotGreater_spec l a p Hp (j + 1 - i) i) as (Hi1 & Hall1 & Hstop1);
      [lia|]. fold i1 in Hi1, Hall1, Hstop1.
    destruct (skipGreater_spec l a p Hp (j + 1 - i1) j)
      as (Hj1 & Hj1' & Hall2 & Hstop2); [lia|lia|].
    fold j1 in Hj1, Hj1', Hall2, Hstop2.
    assert (Hfront' : allOn (λ x, less p x = false) (a + 1) i1 l).
    { intros k x Hk Hx. destruct (decide (k < i)%nat).
      - apply (Hfront k x); [lia|done].
      - apply (Hall1 k x); [lia|done]. }
    assert (Hback' : allOn (λ x, less p x = true) (j1 + 1) b l).
    { intros k x Hk Hx. destruct (decide (k <= j)%nat).
      - apply (Hall2 k x); [lia|done].
      - apply (Hback k x); [lia|done]. }
    destruct (j1 <? i1)%nat eqn:Hcross.
    + apply Nat.ltb_lt in Hcross. injection Heq as <- <-. exists j1.
      split; [|lia]. split; [done|]. split; [done|]. split; [done|].
      split; [done|]. lia.
    + apply Nat.ltb_ge in Hcross.
      destruct (lookup_lt_is_Some_2 l i1) as [u Hu]; [lia|].
      destruct (lookup_lt_is_Some_2 l j1) as [v Hv]; [lia|].
      assert (Hup : less p u = true) by (apply Hstop1; [lia|done]).
      assert (Hvp : less p v = false) by (apply Hstop2; [lia|done]).
      assert (Hne : i1 ≠ j1) by (intros Heq'; rewrite Heq' in Hu; congruence).
      apply (IH (GoSort.Swap l i1 j1) (i1 + 1)%nat (j1 - 1)%nat); [|lia|done].
      split; [|split; [|split; [|split]]].
      * eapply rangePerm_trans; [exact Hrp|]. apply Swap_rangePerm; lia.
      * rewrite Swap_lookup_other by lia. done.
      * intros k x Hk. rewrite Swap_lookup by lia. repeat case_decide; try lia.
        -- intros Hx. rewrite Hv in Hx. by injection Hx as <-.
        -- intros Hx. apply (Hfront' k x); [lia|done].
      * intros k x Hk. rewrite Swap_lookup by lia. repeat case_decide; try lia.
        -- intros Hx. rewrite Hu in Hx. by injection Hx as <-.
        -- intros Hx. apply (Hback' k x); [lia|done].
      * lia.
Qed.

(** [partitionEqual_func] returns; the range then starts with the
    elements that are not greater than the pivot element, the pivot
    element among them, followed by those that are greater. *)
Lemma partitionEqual_func_spec a b l pivot (p : A) :
  (a <= pivot < b)%nat → (b <= length l)%nat → l !! pivot = Some p → P p →
  ∀ l' mid, GoSort.partitionEqual_func less l a b pivot = (l', mid) →
    rangePerm a b l l' ∧ (a < mid <= b)%nat
    ∧ allOn (λ x, less p x = false) a mid l'
    ∧ allOn (λ x, less p x = true) mid b l'.
Proof.
  intros Hpivot Hb Hp HPp l' mid Heq. unfold GoSort.partitionEqual_func in Heq.
  eapply (partitionEqualLoop_spec p a b l Hb) in Heq as (j' & Hinv & ->); [| |lia].
  - destruct Hinv as (Hrp & Hpa & Hfront & Hback & Hij & Hjb).
    split; [done|]. split; [lia|]. split; [|done].
    intros k x Hk Hx. destruct (decide (k = a)) as [->|Hka].
    + rewrite Hpa in Hx. injection Hx as <-. by apply (swo_irrefl P less Hswo).
    + apply (Hfront k x); [lia|done].
  - split; [apply Swap_rangePerm; lia|]. split.
    + rewrite Swap_lookup by lia. by rewrite decide_True.
    + split; [intros k x Hk; lia|]. split; [intros k x Hk; lia|]. lia.
Qed.

(** *** [choosePivot_func], [reverseRange_func], [breakPatterns_func] *)

Lemma median_func_in l (x y z s : nat) (m s' : nat) :
  GoSort.median_func less l x y z s = (m, s') → m = x ∨ m = y ∨ m = z.
Proof.
  unfold GoSort.median_func, GoSort.order2_func.
  repeat match goal with
         | |- context [if ?c then _ else _] => destruct c
         end; intros Heq; injection Heq as <- <-; auto.
Qed.

Lemma choosePivot_func_range l a b pivot hint :
  (a < b)%nat → GoSort.choosePivot_func less l a b = (pivot, hint) →
  (a <= pivot < b)%nat.
Proof.
  intros Hab. unfold GoSort.choosePivot_func.
  pose proof (Nat.div_mod_eq (b - a) 4) as Hdm.
  pose proof (Nat.mod_upper_bound (b - a) 4 ltac:(lia)) as Hmod.
  set (q := ((b - a) / 4)%nat) in *.
  destruct (8 <=? b - a)%nat eqn:H8.
  - apply Nat.leb_le in H8. destruct (50 <=? b - a)%nat eqn:H50.
    + apply Nat.leb_le in H50. unfold GoSort.medianAdjacent_func.
      destruct (GoSort.median_func less l (a + q * 1 - 1) _ _ 0) as [i s1] eqn:Hi.
      destruct (GoSort.median_func less l (a + q * 2 - 1) _ _ s1) as [j s2] eqn:Hj.
      destruct (GoSort.median_func less l (a + q * 3 - 1) _ _ s2) as [k s3] eqn:Hk.
      destruct (GoSort.median_func less l i j k s3) as [m s4] eqn:Hm.
      apply median_func_in in Hi, Hj, Hk, Hm.
      intros Heq. assert (pivot = m) as ->.
      { destruct s4 as [|[|[|[|[|[|[|[|[|[|[|[|[|?]]]]]]]]]]]]];
          by injection Heq as <- _. }
      lia.
    + apply Nat.leb_gt in H50.
      destruct (GoSort.median_func less l _ _ _ 0) as [m s4] eqn:Hm.
      apply median_func_in in Hm.
      intros Heq. assert (pivot = m) as ->.
      { destruct s4 as [|[|[|[|[|[|[|[|[|[|[|[|[|?]]]]]]]]]]]]];
          by injection Heq as <- _. }
      lia.
  - apply Nat.leb_gt in H8. intros Heq. injection Heq as <- _. lia.
Qed.

Lemma swaps_rangePerm a b (f g : nat → nat) (ks : list nat) :
  ∀ l, (b <= length l)%nat →
    Forall (λ k, (a <= f k < b)%nat ∧ (a <= g k < b)%nat) ks →
    rangePerm a b l (foldl (λ d k, GoSort.Swap d (f k) (g k)) l ks).
Proof.
  induction ks as [|k ks IH]; intros l Hb Hks; simpl; [apply rangePerm_refl|].
  inversion Hks as [|? ? [Hf Hg] Hks']; subst.
  eapply rangePerm_trans; [apply (Swap_rangePerm a b l (f k) (g k)); lia|].
  apply IH; [by rewrite Swap_length|done].
Qed.

Lemma reverseRange_func_rangePerm a b l :
  (a <= b <= length l)%nat →
  rangePerm a b l (GoSort.reverseRange_func l a b).
Proof.
  intros Hab. unfold GoSort.reverseRange_func.
  apply (swaps_rangePerm a b (λ k, a + k)%nat (λ k, b - 1 - k)%nat); [lia|].
  apply Forall_forall. intros k Hk. apply elem_of_seq in Hk.
  pose proof (Nat.div_mod_eq (b - a) 2) as Hdm.
  pose proof (Nat.mod_upper_bound (b - a) 2 ltac:(lia)) as Hmod. lia.
Qed.

Lemma nextPowerOfTwo_bound (n : nat) :
  (0 < n)%nat → 0 < GoSort.nextPowerOfTwo n <= 2 * Z.of_nat n.
Proof.
  intros Hn. unfold GoSort.nextPowerOfTwo, GoSort.bitsLen.
  destruct n as [|n]; [lia|].
  pose proof (Nat.log2_spec (S n) ltac:(lia)) as [Hlo _].
  rewrite Nat2Z.inj_succ, Z.pow_succ_r by lia.
  rewrite <- (Nat2Z.inj_pow 2).
  assert (Hpos : (2 ^ Nat.log2 (S n) ≠ 0)%nat) by (apply Nat.pow_nonzero; lia).
  generalize dependent (2 ^ Nat.log2 (S n))%nat. intros w Hlo Hpos. lia.
Qed.

Lemma breakPatterns_other_bound (n : nat) (r : Z) :
  (0 < n)%nat →
  let other := Z.to_nat (Z.land r (GoSort.nextPowerOfTwo n - 1)) in
  ((if (n <=? other)%nat then (other - n)%nat else other) < n)%nat.
Proof.
  intros Hn other. pose proof (nextPowerOfTwo_bound n Hn) as Hm.
  assert (Hland : 0 <= Z.land r (GoSort.nextPowerOfTwo n - 1) < GoSort.nextPowerOfTwo n).
  { unfold GoSort.nextPowerOfTwo in *.
    replace (2 ^ Z.of_nat (GoSort.bitsLen n) - 1) with (Z.ones (Z.of_nat (GoSort.bitsLen n)))
      by (rewrite Z.ones_equiv; lia).
    rewrite Z.land_ones by lia. apply Z.mod_pos_bound. lia. }
  destruct (n <=? other)%nat eqn:Hcmp.
  - apply Nat.leb_le in Hcmp. subst other. lia.
  - by apply Nat.leb_gt in Hcmp.
Qed.

Lemma breakPatterns_func_rangePerm a b l :
  (a <= b <= length l)%nat →
  rangePerm a b l (GoSort.breakPatterns_func l a b).
Proof.
  intros Hab. unfold GoSort.breakPatterns_func.
  destruct (8 <=? b - a)%nat eqn:H8; [|apply rangePerm_refl].
  apply Nat.leb_le in H8.
  pose proof (Nat.div_mod_eq (b - a) 4) as Hdm.
  pose proof (Nat.mod_upper_bound (b - a) 4 ltac:(lia)) as Hmod.
  set (q := ((b - a) / 4)%nat) in *.
  assert (Hstep : ∀ (st : list A * Z) (i : nat) d,
    (i < 3)%nat → (length st.1 = length l) → rangePerm a b d st.1 →
    let random := GoSort.xorshiftNext st.2 in
    let other := Z.to_nat (Z.land random (GoSort.nextPowerOfTwo (b - a) - 1)) in
    let other := if (b - a <=? other)%nat then (other - (b - a))%nat else other in
    rangePerm a b d (GoSort.Swap st.1 (a + q * 2 - 1 - 1 + i) (a + other))
    ∧ length (GoSort.Swap st.1 (a + q * 2 - 1 - 1 + i) (a + other)) = length l).
  { intros st i d Hi Hlen Hrp random other0 other.
    pose proof (breakPatterns_other_bound (b - a) random ltac:(lia)) as Hother.
    cbv zeta in Hother. fold other0 in Hother. fold other in Hother.
    clearbody other q. split; [|by rewrite Swap_length].
    eapply rangePerm_trans; [exact Hrp|]. apply Swap_rangePerm; lia. }
  simpl.
  destruct (Hstep (l, Z.of_nat (b - a)) 0%nat l) as [H1 Hl1];
    [lia|done|apply rangePerm_refl|]. simpl in H1, Hl1.
  match type of H1 with rangePerm _ _ _ ?d1 =>
    destruct (Hstep (d1, GoSort.xorshiftNext (Z.of_nat (b - a))) 1%nat l) as [H2 Hl2];
      [lia|done|exact H1|] end. simpl in H2, Hl2.
  match type of H2 with rangePerm _ _ _ ?d2 =>
    destruct (Hstep (d2, GoSort.xorshiftNext (GoSort.xorshiftNext (Z.of_nat (b - a))))
                2%nat l) as [H3 _]; [lia|done|exact H2|] end.
  exact H3.
Qed.

(** *** [partialInsertionSort_func] *)

Lemma leftBound_rangePerm a b l l' :
  rangePerm a b l l' → leftBound less a b l → leftBound less a b l'.
Proof.
  intros Hrp Hlb y Ha Hy. destruct Hrp as (Hlen & Hout & Hp).
  rewrite Hout in Hy by lia.
  eapply rangePerm_allOn; [by split; [|split]|]. by apply Hlb.
Qed.

Lemma leftBound_sub a b b' l :
  (b' <= b)%nat → leftBound less a b l → leftBound less a b' l.
Proof. intros Hb Hlb y Ha Hy k x Hk. apply (Hlb y Ha Hy k x). lia. Qed.

(** Below a range with a left bound, the downward shift stops at [a], as
    the inner loop of the insertion sort does. *)
Lemma shiftLeft_insertionInner a :
  ∀ j l, (a <= j)%nat → (j < length l)%nat → leftBound less a (S j) l →
    GoSort.shiftLeft less j l = GoSort.insertionInner less a j l.
Proof.
  induction j as [|j IH]; intros l Haj Hlen Hlb; simpl; [done|].
  destruct (lookup_lt_is_Some_2 l (S j)) as [u Hu]; [lia|].
  destruct (lookup_lt_is_Some_2 l j) as [v Hv]; [lia|].
  rewrite (Less_lookup l (S j) j u v) by done.
  destruct (a <? S j)%nat eqn:Hcmp; simpl.
  - apply Nat.ltb_lt in Hcmp. destruct (less u v) eqn:Huv; simpl; [|done].
    apply IH; [lia|rewrite Swap_length; lia|].
    intros y Ha. rewrite Swap_lookup_other by lia. intros Hy k x Hk.
    rewrite Swap_lookup by lia. repeat case_decide; try lia.
    + intros Hx. apply (Hlb y Ha Hy (S j) x); [lia|done].
    + intros Hx. apply (Hlb y Ha Hy k x); [lia|done].
  - apply Nat.ltb_ge in Hcmp. assert (a = S j) as -> by lia.
    unfold leftBound in Hlb. replace (S j - 1)%nat with j in Hlb by lia.
    rewrite (Hlb v ltac:(lia) Hv (S j) u) by (done || lia). done.
Qed.

Lemma skipOrdered_spec a l :
  Forall P l →
  ∀ n i, (a < i)%nat → (i + n <= length l)%nat → sortedOn less a i l →
    (i <= GoSort.skipOrdered less l i n <= i + n)%nat
    ∧ sortedOn less a (GoSort.skipOrdered less l i n) l
    ∧ ((GoSort.skipOrdered less l i n < i + n)%nat →
       ∃ u v, l !! GoSort.skipOrdered less l i n = Some u
              ∧ l !! (GoSort.skipOrdered less l i n - 1)%nat = Some v
              ∧ less u v = true).
Proof.
  intros HP. induction n as [|n IH]; intros i Hai Hlen Hs; simpl.
  - split; [lia|]. split; [done|lia].
  - destruct (lookup_lt_is_Some_2 l i) as [u Hu]; [lia|].
    destruct (lookup_lt_is_Some_2 l (i - 1)) as [v Hv]; [lia|].
    rewrite (Less_lookup l i (i - 1) u v) by done.
    destruct (less u v) eqn:Huv; simpl.
    + split; [lia|]. split; [done|]. intros _. by exists u, v.
    + destruct (IH (S i)) as (Hr & Hs' & Hstop); [lia|lia| |].
      * intros p q x y Hp Hpq Hq Hx Hy.
        destruct (decide (q = i)) as [->|Hqi]; [|apply (Hs p q x y); (done || lia)].
        rewrite Hu in Hy. injection Hy as <-.
        destruct (decide (p = (i - 1)%nat)) as [->|Hpi].
        -- rewrite Hv in Hx. by injection Hx as <-.
        -- apply (swo_ntrans P less Hswo u v x);
             [by eapply Forall_lookup_1..|done|].
           apply (Hs p (i - 1)%nat x v); (done || lia).
      * split; [lia|]. split; [done|]. intros Hlt. apply Hstop. lia.
Qed.

Lemma shiftRight_rangePerm c b :
  ∀ n j l, (c < j)%nat → (j + n <= b)%nat → (b <= length l)%nat →
    rangePerm c b l (GoSort.shiftRight less l j n).
Proof.
  induction n as [|n IH]; intros j l Hcj Hjn Hb; simpl; [apply rangePerm_refl|].
  destruct (negb _); [apply rangePerm_refl|].
  eapply rangePerm_trans; [apply (Swap_rangePerm c b l j (j - 1)); lia|].
  apply IH; [lia|lia|by rewrite Swap_length].
Qed.

Lemma partialInsertionLoop_spec a b l0 :
  (b <= length l0)%nat →
  ∀ steps l i,
    (a < i <= b)%nat → rangePerm a b l0 l → Forall P l → leftBound less a b l →
    sortedOn less a i l →
    ∀ l' sorted, GoSort.partialInsertionLoop less steps l a b i = (l', sorted) →
      rangePerm a b l0 l' ∧ (sorted = true → sortedOn less a b l').
Proof.
  intros Hb. induction steps as [|steps IH];
    intros l i Hi Hrp HP Hlb Hs l' sorted Heq; simpl in Heq.
  - injection Heq as <- <-. split; [done|discriminate].
  - assert (Hlen : length l = length l0) by (by destruct Hrp).
    destruct (skipOrdered_spec a l HP (b - i) i) as (Hi1 & Hs1 & Hstop); [lia|lia|done|].
    set (i1 := GoSort.skipOrdered less l i (b - i)) in *.
    destruct (i1 =? b)%nat eqn:Hend.
    + apply Nat.eqb_eq in Hend. injection Heq as <- <-. split; [done|].
      intros _. by rewrite <- Hend.
    + apply Nat.eqb_neq in Hend.
      destruct (b - a <? 50)%nat; [injection Heq as <- <-; split; [done|discriminate]|].
      destruct Hstop as (u & v & Hu & Hv & Huv); [lia|].
      set (l1 := GoSort.Swap l i1 (i1 - 1)) in *.
      assert (Hrp1 : rangePerm a b l l1) by (apply Swap_rangePerm; lia).
      assert (Hlen1 : length l1 = length l) by apply Swap_length.
      assert (HP1 : Forall P l1) by (by apply (rangePerm_Forall a b l); [lia|..]).
      assert (Hlb1 : leftBound less a b l1) by (by eapply leftBound_rangePerm).
      set (l2 := if (2 <=? i1 - a)%nat then GoSort.shiftLeft less (i1 - 1) l1 else l1) in *.
      assert (Hl2 : rangePerm a i1 l1 l2 ∧ sortedOn less a i1 l2).
      { subst l2. destruct (2 <=? i1 - a)%nat eqn:H2.
        - apply Nat.leb_le in H2.
          rewrite (shiftLeft_insertionInner a); [|lia|lia|].
          + replace i1 with (S (i1 - 1)) at 1 3 by lia.
            apply insertionInner_spec; [lia|lia|done| |].
            * intros p q x y Hp Hpq Hq Hpi Hqi.
              subst l1. rewrite !Swap_lookup_other by lia.
              apply Hs1; (done || lia).
            * intros q x y Hq. lia.
          + eapply leftBound_sub; [|exact Hlb1]. lia.
        - apply Nat.leb_gt in H2. split; [apply rangePerm_refl|].
          intros p q x y Hp Hpq Hq. lia. }
      destruct Hl2 as [Hrp2 Hs2].
      assert (Hrp2' : rangePerm a b l1 l2)
        by (eapply rangePerm_widen; [| | |exact Hrp2]; lia).
      assert (Hlen2 : length l2 = length l) by (destruct Hrp2 as [-> _]; done).
      set (l3 := if (2 <=? b - i1)%nat
                 then GoSort.shiftRight less l2 (i1 + 1) (b - (i1 + 1)) else l2) in *.
      assert (Hrp3 : rangePerm i1 b l2 l3).
      { subst l3. destruct (2 <=? b - i1)%nat; [|apply rangePerm_refl].
        apply shiftRight_rangePerm; lia. }
      assert (Hrp3' : rangePerm a b l2 l3)
        by (eapply rangePerm_widen; [| | |exact Hrp3]; lia).
      assert (Hall : rangePerm a b l l3).
      { eapply rangePerm_trans; [exact Hrp1|].
        eapply rangePerm_trans; [exact Hrp2'|exact Hrp3']. }
      apply (IH l3 i1); [lia| | | | |done].
      * by eapply rangePerm_trans.
      * by apply (rangePerm_Forall a b l); [lia|..].
      * by eapply leftBound_rangePerm.
      * eapply sortedOn_outside; [exact Hrp3|lia|done].
Qed.

Lemma partialInsertionSort_func_spec a b l :
  (a < b <= length l)%nat → Forall P l → leftBound less a b l →
  ∀ l' sorted, GoSort.partialInsertionSort_func less l a b = (l', sorted) →
    rangePerm a b l l' ∧ (sorted = true → sortedOn less a b l').
Proof.
  intros Hab HP Hlb l' sorted Heq. unfold GoSort.partialInsertionSort_func in Heq.
  eapply (partialInsertionLoop_spec a b l); [lia| | | | | |exact Heq].
  - lia.
  - apply rangePerm_refl.
  - done.
  - done.
  - intros p q x y Hp Hpq Hq. lia.
Qed.

(** *** [heapSort_func] *)

Lemma siftDownLoop_S fuel l root hi first :
  GoSort.siftDownLoop less (S fuel) l root hi first
  = if (hi <=? 2 * root + 1)%nat then l
    else
      let child :=
        if (2 * root + 1 + 1 <? hi)%nat
           && GoSort.Less less l (first + (2 * root + 1)) (first + (2 * root + 1) + 1)
        then (2 * root + 1 + 1)%nat else (2 * root + 1)%nat in
      if negb (GoSort.Less less l (first + root) (first + child)) then l
      else GoSort.siftDownLoop less fuel
             (GoSort.Swap l (first + root) (first + child)) child hi first.
Proof. reflexivity. Qed.

(** The sift-down loop at [root]: heap order holds below [lo] except at
    [root], whose children are bounded by its parent; afterwards heap
    order holds on all nodes from [lo]. *)
Lemma siftDownLoop_spec first lo hi :
  ∀ fuel l root,
    (hi - root <= fuel)%nat → (first + hi <= length l)%nat → Forall P l →
    (lo <= root)%nat →
    heapProp less (λ r, r ≠ root) first lo hi l →
    (∀ g c x y, (lo <= g)%nat → (root = 2 * g + 1 ∨ root = 2 * g + 2)%nat →
                (c = 2 * root + 1 ∨ c = 2 * root + 2)%nat → (c < hi)%nat →
                l !! (first + g)%nat = Some x → l !! (first + c)%nat = Some y →
                less x y = false) →
    rangePerm first (first + hi) l (GoSort.siftDownLoop less fuel l root hi first)
    ∧ heapProp less (λ _, True) first lo hi
        (GoSort.siftDownLoop less fuel l root hi first).
Proof.
  induction fuel as [|fuel IH]; intros l root Hfuel Hlen HP Hroot H1 H2.
  - simpl. split; [apply rangePerm_refl|].
    intros r c x y Hr _ Hc Hchi. destruct (decide (r = root)) as [->|Hne]; [lia|].
    by apply H1.
  - rewrite siftDownLoop_S. destruct (hi <=? 2 * root + 1)%nat eqn:Hleaf.
    + apply Nat.leb_le in Hleaf. split; [apply rangePerm_refl|].
      intros r c x y Hr _ Hc Hchi. destruct (decide (r = root)) as [->|Hne]; [lia|].
      by apply H1.
    + apply Nat.leb_gt in Hleaf.
      set (child := if ((2 * root + 1 + 1 <? hi)%nat
                        && GoSort.Less less l (first + (2 * root + 1))
                             (first + (2 * root + 1) + 1))
                    then (2 * root + 1 + 1)%nat else (2 * root + 1)%nat).
      assert (Hchild : (child = 2 * root + 1 ∨ child = 2 * root + 2)%nat ∧ (child < hi)%nat).
      { subst child. destruct (2 * root + 1 + 1 <? hi)%nat eqn:Hc2; cbn [andb].
        - apply Nat.ltb_lt in Hc2. destruct (GoSort.Less _ _ _ _); lia.
        - lia. }
      destruct Hchild as [Hchild Hchi].
      destruct (lookup_lt_is_Some_2 l (first + root)) as [vr Hvr]; [lia|].
      destruct (lookup_lt_is_Some_2 l (first + child)) as [vc Hvc]; [lia|].
      assert (HPr : P vr) by (by eapply Forall_lookup_1).
      assert (HPc : P vc) by (by eapply Forall_lookup_1).
      assert (Hlarger : ∀ c y, (c = 2 * root + 1 ∨ c = 2 * root + 2)%nat → (c < hi)%nat →
                               l !! (first + c)%nat = Some y → less vc y = false).
      { intros c y Hc Hclt Hy. assert (HPy : P y) by (by eapply Forall_lookup_1).
        destruct (decide (c = child)) as [->|Hcc].
        { rewrite Hvc in Hy. injection Hy as <-. by apply (swo_irrefl P less Hswo). }
        subst child. destruct (2 * root + 1 + 1 <? hi)%nat eqn:Hc2; cbn [andb] in *.
        - destruct (lookup_lt_is_Some_2 l (first + (2 * root + 1))) as [u0 Hu0]; [lia|].
          destruct (lookup_lt_is_Some_2 l (first + (2 * root + 1) + 1)) as [u1 Hu1];
            [apply Nat.ltb_lt in Hc2; lia|].
          rewrite (Less_lookup l _ _ u0 u1 Hu0 Hu1) in Hvc, Hcc.
          destruct (less u0 u1) eqn:Hu01.
          + assert (c = 2 * root + 1)%nat as -> by lia.
            rewrite Hu0 in Hy. injection Hy as <-.
            replace (first + (2 * root + 1 + 1))%nat
              with (first + (2 * root + 1) + 1)%nat in Hvc by lia.
            rewrite Hu1 in Hvc. injection Hvc as <-.
            apply less_asym; [by eapply Forall_lookup_1..|done].
          + assert (c = 2 * root + 1 + 1)%nat as -> by lia.
            replace (first + (2 * root + 1 + 1))%nat
              with (first + (2 * root + 1) + 1)%nat in Hy by lia.
            rewrite Hu1 in Hy. injection Hy as <-.
            rewrite Hu0 in Hvc. by injection Hvc as <-.
        - apply Nat.ltb_ge in Hc2. lia. }
      cbv zeta. fold child. rewrite (Less_lookup l _ _ vr vc Hvr Hvc).
      destruct (less vr vc) eqn:Hrc; simpl.
      * assert (Hsw : rangePerm first (first + hi) l
                        (GoSort.Swap l (first + root) (first + child)))
          by (apply Swap_rangePerm; lia).
        destruct (IH (GoSort.Swap l (first + root) (first + child)) child) as [Hrp Hheap].
        -- lia.
        -- by rewrite Swap_length.
        -- by apply (rangePerm_Forall first (first + hi) l); [lia|..].
        -- lia.
        -- intros r c x y Hr Hne Hc Hclt.
           rewrite !Swap_lookup by lia.
           destruct (decide (r = root)) as [->|Hrr].
           ++ rewrite decide_True by done. intros Hx. rewrite Hvc in Hx.
              injection Hx as <-. repeat case_decide; try lia.
              ** intros Hy. rewrite Hvr in Hy. injection Hy as <-.
                 by apply less_asym.
              ** intros Hy. by apply (Hlarger c y).
           ++ rewrite decide_False by lia. rewrite decide_False by lia. intros Hx.
              repeat case_decide; try lia.
              ** intros Hy. rewrite Hvc in Hy. injection Hy as <-.
                 apply (H2 r child x vc); try done; lia.
              ** intros Hy. apply (H1 r c x y); try done.
        -- intros g c x y Hg Hgc Hc Hclt.
           assert (g = root) as -> by lia.
           rewrite !Swap_lookup by lia. rewrite decide_True by done.
           intros Hx. rewrite Hvc in Hx. injection Hx as <-.
           repeat case_decide; try lia.
           intros Hy. apply (H1 child c vc y); try done; lia.
        -- split; [by eapply rangePerm_trans|done].
      * split; [apply rangePerm_refl|].
        intros r c x y Hr _ Hc Hclt Hx Hy.
        destruct (decide (r = root)) as [->|Hne]; [|by apply (H1 r c x y)].
        rewrite Hvr in Hx. injection Hx as <-.
        apply (swo_ntrans P less Hswo vr vc y);
          [done|done|by eapply Forall_lookup_1|done|].
        by apply (Hlarger c y).
Qed.

Lemma siftDown_func_spec first lo hi l :
  (first + hi <= length l)%nat → Forall P l →
  heapProp less (λ _, True) first (lo + 1) hi l →
  rangePerm first (first + hi) l (GoSort.siftDown_func less l lo hi first)
  ∧ heapProp less (λ _, True) first lo hi (GoSort.siftDown_func less l lo hi first).
Proof.
  intros Hlen HP Hheap. unfold GoSort.siftDown_func.
  apply siftDownLoop_spec; [lia|done|done|lia| |].
  - intros r c x y Hr Hne Hc Hclt. apply Hheap; [lia|done..].
  - intros g c x y Hg Hgc. lia.
Qed.

(** In a heap the root is not less than any node. *)
Lemma heap_root_max first k l :
  Forall P l → (first + k <= length l)%nat →
  heapProp less (λ _, True) first 0 k l →
  ∀ r x y, (r < k)%nat → l !! first = Some x → l !! (first + r)%nat = Some y →
    less x y = false.
Proof.
  intros HP Hlen Hheap r. induction r as [r IH] using lt_wf_ind.
  intros x y Hr Hx Hy.
  assert (HPx : P x) by (by eapply Forall_lookup_1).
  assert (HPy : P y) by (by eapply Forall_lookup_1).
  destruct (decide (r = 0%nat)) as [->|Hr0].
  - rewrite Nat.add_0_r, Hx in Hy. injection Hy as <-.
    by apply (swo_irrefl P less Hswo).
  - pose proof (Nat.div_mod_eq (r - 1) 2) as Hdm.
    pose proof (Nat.mod_upper_bound (r - 1) 2 ltac:(lia)) as Hmod.
    set (pr := ((r - 1) / 2)%nat) in *. clearbody pr.
    destruct (lookup_lt_is_Some_2 l (first + pr)) as [v Hv]; [lia|].
    apply (swo_ntrans P less Hswo x v y); [done|by eapply Forall_lookup_1|done| |].
    + apply (IH pr); [lia|lia|done..].
    + apply (Hheap pr r v y); [lia|done|lia|lia|done..].
Qed.

Lemma rev_seq_S (k : nat) : rev (seq 0 (S k)) = k :: rev (seq 0 k).
Proof. by rewrite seq_S, rev_unit. Qed.

Lemma heapBuild_spec first hi :
  ∀ k l, (first + hi <= length l)%nat → Forall P l →
    heapProp less (λ _, True) first k hi l →
    rangePerm first (first + hi) l
      (foldl (λ d i, GoSort.siftDown_func less d i hi first) l (rev (seq 0 k)))
    ∧ heapProp less (λ _, True) first 0 hi
        (foldl (λ d i, GoSort.siftDown_func less d i hi first) l (rev (seq 0 k))).
Proof.
  induction k as [|k IH]; intros l Hlen HP Hheap.
  - simpl. split; [apply rangePerm_refl|done].
  - rewrite rev_seq_S. simpl.
    destruct (siftDown_func_spec first k hi l Hlen HP) as [Hrp Hheap'].
    { by replace (k + 1)%nat with (S k) by lia. }
    destruct (IH (GoSort.siftDown_func less l k hi first)) as [Hrp' Hheap''].
    + destruct Hrp as (-> & _). done.
    + by apply (rangePerm_Forall first (first + hi) l); [lia|..].
    + done.
    + split; [by eapply rangePerm_trans|done].
Qed.

Lemma heapExtract_spec first hi :
  ∀ k l, (k <= hi)%nat → (first + hi <= length l)%nat → Forall P l →
    heapProp less (λ _, True) first 0 k l →
    sortedOn less (first + k) (first + hi) l →
    (∀ p q x z, (first <= p < first + k)%nat → (first + k <= q < first + hi)%nat →
                l !! p = Some x → l !! q = Some z → less z x = false) →
    rangePerm first (first + hi) l
      (foldl (λ d i, GoSort.siftDown_func less (GoSort.Swap d first (first + i)) 0 i first)
             l (rev (seq 0 k)))
    ∧ sortedOn less first (first + hi)
        (foldl (λ d i, GoSort.siftDown_func less (GoSort.Swap d first (first + i)) 0 i first)
               l (rev (seq 0 k))).
Proof.
  induction k as [|k IH]; intros l Hk Hlen HP Hheap Hsorted Hcross.
  - simpl. split; [apply rangePerm_refl|]. by rewrite Nat.add_0_r in Hsorted.
  - rewrite rev_seq_S. simpl.
    set (l1 := GoSort.Swap l first (first + k)).
    assert (Hrp1 : rangePerm first (first + hi) l l1) by (apply Swap_rangePerm; lia).
    assert (Hlen1 : length l1 = length l) by apply Swap_length.
    assert (HP1 : Forall P l1) by (by apply (rangePerm_Forall first (first + hi) l); [lia|..]).
    destruct (lookup_lt_is_Some_2 l first) as [M HM]; [lia|].
    assert (Hmax : ∀ r y, (r < S k)%nat → l !! (first + r)%nat = Some y → less M y = false).
    { intros r y Hr Hy. apply (heap_root_max first (S k) l HP ltac:(lia) Hheap r M y);
        [lia|done..]. }
    destruct (siftDown_func_spec first 0 k l1) as [Hrp2 Hheap2]; [lia|done| |].
    { intros r c x y Hr _ Hc Hclt. subst l1.
      rewrite !Swap_lookup_other by lia. apply Hheap; [lia|done|done|lia]. }
    set (l2 := GoSort.siftDown_func less l1 0 k first) in *.
    assert (Hrp2' : rangePerm first (first + hi) l1 l2)
      by (eapply rangePerm_widen; [| | |exact Hrp2]; lia).
    assert (Hlen2 : length l2 = length l) by (destruct Hrp2 as [-> _]; done).
    assert (Hold : ∀ p x, (first <= p < first + k)%nat → l1 !! p = Some x →
                          ∃ p', (first <= p' < first + S k)%nat ∧ l !! p' = Some x).
    { intros p x Hp. subst l1. rewrite Swap_lookup by lia.
      repeat case_decide; try lia; intros Hx.
      - exists (first + k)%nat. split; [lia|done].
      - exists p. split; [lia|done]. }
    destruct (IH l2) as [Hrp3 Hsorted3]; [lia|lia| | | | |].
    + by apply (rangePerm_Forall first (first + hi) l1); [lia|..].
    + done.
    + eapply sortedOn_outside; [exact Hrp2|lia|].
      intros p q x y Hp Hpq Hq. subst l1. rewrite !Swap_lookup by lia.
      repeat case_decide; try lia.
      * intros Hx Hy. apply (Hcross (first + k)%nat q x y); [lia|lia|done..].
      * intros Hx Hy. apply (Hcross first q x y); [lia|lia|done..].
      * intros Hx Hy. apply (Hsorted p q x y); [lia|lia|lia|done..].
    + assert (Hall : allOn (λ x, ∀ q z, (first + k <= q < first + hi)%nat →
                                  l1 !! q = Some z → less z x = false)
                           first (first + k) l2).
      { eapply rangePerm_allOn; [exact Hrp2|].
        intros p x Hp Hx q z Hq. destruct (Hold p x Hp Hx) as (p' & Hp' & Hx').
        subst l1. rewrite Swap_lookup by lia. repeat case_decide; try lia.
        - intros Hz. rewrite HM in Hz. injection Hz as <-.
          apply (Hmax (p' - first)%nat x); [lia|].
          by replace (first + (p' - first))%nat with p' by lia.
        - intros Hz. apply (Hcross p' q x z); [lia|lia|done..]. }
      intros p q x z Hp Hq Hx Hz. apply (Hall p x Hp Hx q z Hq).
      destruct Hrp2 as (_ & Hout & _). rewrite <- Hout; [done|lia].
    + split; [|done]. eapply rangePerm_trans; [exact Hrp1|].
      eapply rangePerm_trans; [exact Hrp2'|exact Hrp3].
Qed.

Lemma heapSort_func_spec a b l :
  (a <= b <= length l)%nat → Forall P l →
  rangePerm a b l (GoSort.heapSort_func less l a b)
  ∧ sortedOn less a b (GoSort.heapSort_func less l a b).
Proof.
  intros Hab HP. unfold GoSort.heapSort_func.
  pose proof (Nat.div_mod_eq (b - a - 1) 2) as Hdm.
  pose proof (Nat.mod_upper_bound (b - a - 1) 2 ltac:(lia)) as Hmod.
  set (m := ((b - a - 1) / 2)%nat) in *. clearbody m.
  destruct (heapBuild_spec a (b - a) (m + 1) l) as [Hrp1 Hheap]; [lia|done| |].
  { intros r c x y Hr _ Hc Hclt. lia. }
  set (l1 := foldl _ l (rev (seq 0 (m + 1)))) in *.
  assert (Hlen1 : length l1 = length l) by (by destruct Hrp1).
  destruct (heapExtract_spec a (b - a) (b - a) l1) as [Hrp2 Hsorted];
    [lia|lia| |done| | |].
  - by apply (rangePerm_Forall a (a + (b - a)) l); [lia|..].
  - intros p q x y Hp Hpq Hq. lia.
  - intros p q x z Hp Hq. lia.
  - replace (a + (b - a))%nat with b in * by lia.
    split; [by eapply rangePerm_trans|done].
Qed.

(** Two sorted halves around a pivot make a sorted range. *)
Lemma sortedOn_join a mid b l (p : A) :
  (a <= mid < b)%nat → (b <= length l)%nat → Forall P l → l !! mid = Some p →
  allOn (λ x, less x p = true) a mid l →
  allOn (λ x, less x p = false) (mid + 1) b l →
  sortedOn less a mid l → sortedOn less (mid + 1) b l →
  sortedOn less a b l.
Proof.
  intros Hmid Hlen HP Hp Hleft Hright Hsl Hsr i j x y Hi Hij Hj Hx Hy.
  assert (HPp : P p) by (by eapply Forall_lookup_1).
  assert (HPx : P x) by (by eapply Forall_lookup_1).
  assert (HPy : P y) by (by eapply Forall_lookup_1).
  destruct (decide (j < mid)%nat) as [Hjm|Hjm].
  { by apply (Hsl i j). }
  destruct (decide (mid < i)%nat) as [Him|Him].
  { apply (Hsr i j); [lia|done..]. }
  destruct (decide (i = mid)) as [->|Hne].
  { rewrite Hp in Hx. injection Hx as <-. apply (Hright j y); [lia|done]. }
  assert (Hxp : less x p = true) by (apply (Hleft i x); [lia|done]).
  destruct (decide (j = mid)) as [->|Hne'].
  { rewrite Hp in Hy. injection Hy as <-. by apply less_asym. }
  assert (Hyp : less y p = false) by (apply (Hright j y); [lia|done]).
  destruct (less y x) eqn:Hyx; [|done].
  by rewrite (swo_trans P less Hswo y x p) in Hyp.
Qed.

(** A block of elements equivalent to the pivot, which nothing in the
    range is less than, followed by a sorted rest. *)
Lemma sortedOn_join_equal a mid b l (p : A) :
  (a <= mid <= b)%nat → (b <= length l)%nat → Forall P l → P p →
  allOn (λ z, less z p = false) a b l →
  allOn (λ x, less p x = false) a mid l →
  sortedOn less mid b l →
  sortedOn less a b l.
Proof.
  intros Hmid Hlen HP HPp Hall Hleft Hsr i j x y Hi Hij Hj Hx Hy.
  destruct (decide (mid <= i)%nat) as [Him|Him].
  { apply (Hsr i j); [lia|done..]. }
  apply (swo_ntrans P less Hswo y p x);
    [by eapply Forall_lookup_1|done|by eapply Forall_lookup_1| |].
  - apply (Hall j y); [lia|done].
  - apply (Hleft i x); [lia|done].
Qed.

Lemma leftBound_outside a b c d l l' :
  rangePerm c d l l' → (b <= c ∨ (d <= a - 1 ∧ 0 < a))%nat → (0 < a → a <= b)%nat →
  leftBound less a b l → leftBound less a b l'.
Proof.
  intros Hrp Hdis Hab Hlb y Ha Hy.
  destruct Hrp as (Hlen & Hout & Hperm).
  rewrite Hout in Hy by lia.
  intros k x Hk Hx. rewrite Hout in Hx by lia.
  by apply (Hlb y Ha Hy k x).
Qed.

Lemma pdqsort_func_spec :
  ∀ fuel l a b limit wasBalanced wasPartitioned,
    (b - a < fuel)%nat → (a <= b <= length l)%nat → Forall P l →
    leftBound less a b l →
    rangePerm a b l
      (GoSort.pdqsort_func less fuel l a b limit wasBalanced wasPartitioned)
    ∧ sortedOn less a b
        (GoSort.pdqsort_func less fuel l a b limit wasBalanced wasPartitioned).
Proof.
  induction fuel as [|fuel IH]; intros l a b limit wb wp Hfuel Hab HP Hlb; [lia|].
  cbn [GoSort.pdqsort_func].
  destruct (Nat.leb_spec (b - a) 12) as [Hsmall|Hbig].
  { by apply insertionSort_spec. }
  destruct (Nat.eqb_spec limit 0) as [Hlim|Hlim].
  { by apply heapSort_func_spec. }
  generalize (if wb then limit else (limit - 1)%nat). clear limit Hlim. intros limit.
  set (l1 := if wb then l else GoSort.breakPatterns_func l a b).
  assert (Hrp1 : rangePerm a b l l1).
  { subst l1. destruct wb; [apply rangePerm_refl|by apply breakPatterns_func_rangePerm]. }
  clearbody l1.
  destruct (GoSort.choosePivot_func less l1 a b) as [pivot hint] eqn:Hcp.
  apply choosePivot_func_range in Hcp; [|lia].
  set (l2 := match hint with
             | GoSort.decreasingHint => GoSort.reverseRange_func l1 a b
             | _ => l1
             end).
  set (pivot2 := match hint with
                 | GoSort.decreasingHint => (b - 1 - (pivot - a))%nat
                 | _ => pivot
                 end).
  generalize (GoSort.isIncreasing match hint with
                                  | GoSort.decreasingHint => GoSort.increasingHint
                                  | _ => hint
                                  end).
  intros incr.
  assert (Hlen1 : length l1 = length l) by (by destruct Hrp1).
  assert (Hrp2 : rangePerm a b l1 l2).
  { subst l2. destruct hint; try apply rangePerm_refl.
    apply reverseRange_func_rangePerm. lia. }
  assert (Hpiv : (a <= pivot2 < b)%nat) by (subst pivot2; destruct hint; lia).
  clearbody l2 pivot2. clear pivot Hcp.
  assert (Hlen2 : length l2 = length l) by (destruct Hrp2 as [-> _]; done).
  assert (HP1 : Forall P l1) by (by apply (rangePerm_Forall a b l)).
  assert (HP2 : Forall P l2) by (apply (rangePerm_Forall a b l1); [lia|done..]).
  assert (Hlb2 : leftBound less a b l2).
  { eapply leftBound_rangePerm; [exact Hrp2|]. by eapply leftBound_rangePerm. }
  assert (Hrp02 : rangePerm a b l l2) by (by eapply rangePerm_trans).
  clear Hrp1 Hrp2 HP1 Hlen1 l1.
  destruct (if wb && wp && incr
            then GoSort.partialInsertionSort_func less l2 a b
            else (l2, false)) as [l3 sorted] eqn:Hpi.
  assert (Hrp3 : rangePerm a b l2 l3 ∧ (sorted = true → sortedOn less a b l3)).
  { destruct (wb && wp && incr).
    - eapply partialInsertionSort_func_spec; [| | |exact Hpi]; [lia|done..].
    - injection Hpi as <- <-. split; [apply rangePerm_refl|done]. }
  clear Hpi. destruct Hrp3 as [Hrp3 Hsorted3].
  assert (Hlen3 : length l3 = length l2) by (by destruct Hrp3).
  assert (HP3 : Forall P l3) by (apply (rangePerm_Forall a b l2); [lia|done..]).
  assert (Hlb3 : leftBound less a b l3) by (by eapply leftBound_rangePerm).
  assert (Hrp03 : rangePerm a b l l3) by (by eapply rangePerm_trans).
  clear Hrp3 Hrp02 HP2 Hlb2.
  destruct sorted; [split; [done|by apply Hsorted3]|]. clear Hsorted3.
  destruct (lookup_lt_is_Some_2 l3 pivot2) as [p Hp]; [lia|].
  assert (HPp : P p) by (by eapply Forall_lookup_1).
  destruct ((0 <? a)%nat && negb (GoSort.Less less l3 (a - 1) pivot2)) eqn:Hpe.
  - apply andb_true_iff in Hpe as [Ha Hnl]. apply Nat.ltb_lt in Ha.
    apply negb_true_iff in Hnl.
    destruct (lookup_lt_is_Some_2 l3 (a - 1)) as [y Hy]; [lia|].
    rewrite (Less_lookup _ _ _ y p Hy Hp) in Hnl.
    assert (HPy : P y) by (by eapply Forall_lookup_1).
    destruct (GoSort.partitionEqual_func less l3 a b pivot2) as [l4 mid] eqn:Hpeq.
    eapply partitionEqual_func_spec in Hpeq; [| | |exact Hp|done]; [|lia|lia].
    destruct Hpeq as (Hrp4 & Hmid & Hleft & Hright).
    assert (Hlen4 : length l4 = length l3) by (by destruct Hrp4).
    assert (HP4 : Forall P l4) by (apply (rangePerm_Forall a b l3); [lia|done..]).
    assert (Hlb4 : leftBound less a b l4) by (by eapply leftBound_rangePerm).
    assert (Hy4 : l4 !! (a - 1)%nat = Some y).
    { destruct Hrp4 as (_ & Hout & _). rewrite Hout; [done|lia]. }
    assert (Hall4 : allOn (λ z, less z p = false) a b l4).
    { intros k z Hk Hz.
      apply (swo_ntrans P less Hswo z y p); [by eapply Forall_lookup_1|done..| |done].
      by apply (Hlb4 y Ha Hy4 k z). }
    destruct (IH l4 mid b limit wb wp) as [Hrp5 Hsorted5]; [lia|lia|done| |].
    { intros w _ Hw k z Hk Hz.
      assert (Hpw : less p w = false) by (apply (Hleft (mid - 1)%nat w); [lia|done]).
      assert (Hpz : less p z = true) by (by apply (Hright k z)).
      destruct (less z w) eqn:Hzw; [|done].
      rewrite (swo_trans P less Hswo p z w) in Hpw;
        [done|done|by eapply Forall_lookup_1|by eapply Forall_lookup_1|done..]. }
    set (l5 := GoSort.pdqsort_func less fuel l4 mid b limit wb wp) in *.
    assert (Hlen5 : length l5 = length l4) by (by destruct Hrp5).
    split.
    + eapply rangePerm_trans; [exact Hrp03|].
      eapply rangePerm_trans; [exact Hrp4|].
      eapply rangePerm_widen; [| | |exact Hrp5]; lia.
    + apply (sortedOn_join_equal a mid b l5 p); [lia|lia| |done| | |done].
      * apply (rangePerm_Forall mid b l4); [lia|done..].
      * eapply rangePerm_allOn; [|exact Hall4].
        eapply rangePerm_widen; [| | |exact Hrp5]; lia.
      * eapply rangePerm_allOn_outside; [exact Hrp5|lia|done].
  - clear Hpe.
    destruct (GoSort.partition_func less l3 a b pivot2) as [[l4 mid] ap] eqn:Hpart.
    eapply partition_func_spec in Hpart; [| | |exact Hp]; [|lia|lia].
    destruct Hpart as (Hrp4 & Hmid & Hpm & Hleft & Hright).
    assert (Hlen4 : length l4 = length l3) by (by destruct Hrp4).
    assert (HP4 : Forall P l4) by (apply (rangePerm_Forall a b l3); [lia|done..]).
    assert (Hlb4 : leftBound less a b l4) by (by eapply leftBound_rangePerm).
    assert (Hrp04 : rangePerm a b l l4) by (by eapply rangePerm_trans).
    generalize ((b - a) `div` 8 <=? mid - a)%nat ((b - a) `div` 8 <=? b - mid)%nat.
    intros bal1 bal2.
    destruct (mid - a <? b - mid)%nat.
    + destruct (IH l4 a mid limit true true) as [Hrp5 Hsorted5]; [lia|lia|done| |].
      { eapply leftBound_sub; [|exact Hlb4]. lia. }
      set (l5 := GoSort.pdqsort_func less fuel l4 a mid limit true true) in *.
      assert (Hlen5 : length l5 = length l4) by (by destruct Hrp5).
      assert (HP5 : Forall P l5) by (apply (rangePerm_Forall a mid l4); [lia|done..]).
      assert (Hpm5 : l5 !! mid = Some p).
      { destruct Hrp5 as (_ & Hout & _). rewrite Hout; [done|lia]. }
      assert (Hright5 : allOn (λ x, less x p = false) (mid + 1) b l5).
      { eapply rangePerm_allOn_outside; [exact Hrp5|lia|done]. }
      destruct (IH l5 (mid + 1)%nat b limit bal1 ap) as [Hrp6 Hsorted6]; [lia|lia|done| |].
      { intros w _ Hw. replace (mid + 1 - 1)%nat with mid in Hw by lia.
        rewrite Hpm5 in Hw. injection Hw as <-. done. }
      set (l6 := GoSort.pdqsort_func less fuel l5 (mid + 1) b limit bal1 ap) in *.
      assert (Hlen6 : length l6 = length l5) by (by destruct Hrp6).
      split.
      * eapply rangePerm_trans; [exact Hrp04|].
        eapply rangePerm_trans; [eapply rangePerm_widen; [| | |exact Hrp5]; lia|].
        eapply rangePerm_widen; [| | |exact Hrp6]; lia.
      * apply (sortedOn_join a mid b l6 p); [lia|lia| | | | | |done].
        -- apply (rangePerm_Forall (mid + 1) b l5); [lia|done..].
        -- destruct Hrp6 as (_ & Hout & _). rewrite Hout; [done|lia].
        -- eapply rangePerm_allOn_outside; [exact Hrp6|lia|].
           eapply rangePerm_allOn; [exact Hrp5|done].
        -- eapply rangePerm_allOn; [exact Hrp6|done].
        -- eapply sortedOn_outside; [exact Hrp6|lia|done].
    + destruct (IH l4 (mid + 1)%nat b limit true true) as [Hrp5 Hsorted5]; [lia|lia|done| |].
      { intros w _ Hw. replace (mid + 1 - 1)%nat with mid in Hw by lia.
        rewrite Hpm in Hw. injection Hw as <-. done. }
      set (l5 := GoSort.pdqsort_func less fuel l4 (mid + 1) b limit true true) in *.
      assert (Hlen5 : length l5 = length l4) by (by destruct Hrp5).
      assert (HP5 : Forall P l5) by (apply (rangePerm_Forall (mid + 1) b l4); [lia|done..]).
      assert (Hpm5 : l5 !! mid = Some p).
      { destruct Hrp5 as (_ & Hout & _). rewrite Hout; [done|lia]. }
      assert (Hleft5 : allOn (λ x, less x p = true) a mid l5).
      { eapply rangePerm_allOn_outside; [exact Hrp5|lia|done]. }
      destruct (IH l5 a mid limit bal2 ap) as [Hrp6 Hsorted6]; [lia|lia|done| |].
      { eapply (leftBound_outside a mid (mid + 1) b l4); [exact Hrp5|lia|lia|].
        eapply leftBound_sub; [|exact Hlb4]. lia. }
      set (l6 := GoSort.pdqsort_func less fuel l5 a mid limit bal2 ap) in *.
      assert (Hlen6 : length l6 = length l5) by (by destruct Hrp6).
      split.
      * eapply rangePerm_trans; [exact Hrp04|].
        eapply rangePerm_trans; [eapply rangePerm_widen; [| | |exact Hrp5]; lia|].
        eapply rangePerm_widen; [| | |exact Hrp6]; lia.
      * apply (sortedOn_join a mid b l6 p); [lia|lia| | | | |done|].
        -- apply (rangePerm_Forall a mid l5); [lia|done..].
        -- destruct Hrp6 as (_ & Hout & _). rewrite Hout; [done|lia].
        -- eapply rangePerm_allOn; [exact Hrp6|done].
        -- eapply rangePerm_allOn_outside; [exact Hrp6|lia|].
           eapply rangePerm_allOn; [exact Hrp5|done].
        -- eapply sortedOn_outside; [exact Hrp6|lia|done].
Qed.

Lemma Slice_spec l :
  Forall P l →
  GoSort.Slice less l ≡ₚ l ∧ sortedOn less 0 (length l) (GoSort.Slice less l).
Proof.
  intros HP. unfold GoSort.Slice.
  destruct (pdqsort_func_spec (length l + 1) l 0 (length l)
              (GoSort.bitsLen (length l)) true true) as [Hrp Hs]; [lia|lia|done| |].
  { intros y Ha. lia. }
  split; [|done]. symmetry. apply (rangePerm_Permutation 0 (length l)); [lia|done].
Qed.

End SortOrder.

(** ** The sort of [multiclassNMS] *)

Lemma scoreGreater_swo :
  StrictWeakOn (λ d, F32.is_nan (score d) = false) scoreGreater.
Proof.
  split; unfold scoreGreater.
  - intros x _. apply f32_gt_irrefl.
  - intros x y z Hx Hy Hz H1 H2.
    exact (f32_lt_trans (score z) (score y) (score x) Hz Hy Hx H2 H1).
  - intros x y z Hx Hy Hz H1 H2.
    exact (f32_le_trans (score x) (score y) (score z) Hx Hy Hz H1 H2).
Qed.

Lemma predDetection_score pred ratio origW origH scoreThr d :
  predDetection pred ratio origW origH scoreThr = Some (Some d) →
  F32.lt (score d) scoreThr = false.
Proof.
  unfold predDetection. intros H.
  destruct (slice_at pred 4) as [obj|]; [|done]. simpl in H.
  destruct (F32.lt _ scoreThr) eqn:Hlt; [done|].
  destruct (slice_at pred 0); [|done]. simpl in H.
  destruct (slice_at pred 1); [|done]. simpl in H.
  destruct (slice_at pred 2); [|done]. simpl in H.
  destruct (slice_at pred 3); [|done]. simpl in H.
  destruct (clipBox _ _ _ _ _ _ _); [|done]. simpl in H.
  injection H as <-. done.
Qed.

Lemma collectDets_scores predictions ratio origW origH scoreThr :
  ∀ ds, collectDets predictions ratio origW origH scoreThr = Some ds →
    Forall (λ d, F32.lt (score d) scoreThr = false) ds.
Proof.
  induction predictions as [|pred rest IH]; intros ds H; simpl in H.
  - injection H as <-. constructor.
  - destruct (predDetection pred ratio origW origH scoreThr) as [d|] eqn:Hd; [|done].
    simpl in H.
    destruct (collectDets rest ratio origW origH scoreThr) as [ds'|]; [|done].
    simpl in H. injection H as <-. destruct d as [det|]; [|by apply IH].
    constructor; [by eapply predDetection_score|by apply IH].
Qed.

(** ** Short slices are sorted by insertion, which keeps ties in order *)

Section Stability.

Context {A : Type} (less : A → A → bool) (tied : A → A → Prop).
Hypothesis Htied : ∀ x y, tied x y → less y x = false.

Lemma Swap_orderKept l0 l (j : nat) :
  GoSort.Less less l (S j) j = true →
  orderKept tied l0 l → orderKept tied l0 (GoSort.Swap l (S j) j).
Proof.
  unfold GoSort.Less. intros Hless Hkept i1 i2 x y Hi Hx Hy Hxy.
  destruct (l !! S j) as [u|] eqn:Hu; [|done].
  destruct (l !! j) as [v|] eqn:Hv; [|done].
  assert (Hlen : (S j < length l)%nat) by (by eapply lookup_lt_Some).
  destruct (Hkept i1 i2 x y Hi Hx Hy Hxy) as (p & q & Hpq & Hp & Hq).
  set (σ := λ k : nat, if decide (k = S j) then j else if decide (k = j) then S j else k).
  assert (Hσ : ∀ k, GoSort.Swap l (S j) j !! σ k = l !! k).
  { intros k. rewrite Swap_lookup by lia. subst σ. simpl.
    repeat case_decide; subst; try done; try lia; congruence. }
  destruct (decide (p = j ∧ q = S j)) as [[-> ->]|Hne].
  { rewrite Hv in Hp. rewrite Hu in Hq. simplify_eq.
    by rewrite (Htied x y Hxy) in Hless. }
  exists (σ p), (σ q). rewrite !Hσ. split; [|done].
  subst σ. simpl. repeat case_decide; lia.
Qed.

Lemma insertionInner_orderKept l0 a :
  ∀ j l, orderKept tied l0 l → orderKept tied l0 (GoSort.insertionInner less a j l).
Proof.
  induction j as [|j IH]; intros l Hkept; [done|].
  simpl. destruct (_ && _) eqn:Hc; [|done].
  apply andb_true_iff in Hc as [_ Hless].
  apply IH. by apply Swap_orderKept.
Qed.

Lemma insertionSort_func_orderKept l0 a b :
  ∀ l, orderKept tied l0 l → orderKept tied l0 (GoSort.insertionSort_func less l a b).
Proof.
  unfold GoSort.insertionSort_func.
  generalize (seq (a + 1) (b - (a + 1))). intros js.
  induction js as [|j js IH]; intros l Hkept; [done|].
  simpl. apply IH. by apply insertionInner_orderKept.
Qed.

Lemma orderKept_refl (l : list A) : orderKept tied l l.
Proof. intros i j x y Hij Hx Hy _. by exists i, j. Qed.

Lemma Slice_short_orderKept (l : list A) :
  (length l <= 12)%nat → orderKept tied l (GoSort.Slice less l).
Proof.
  intros Hlen. unfold GoSort.Slice.
  replace (length l + 1)%nat with (S (length l)) by lia.
  cbn [GoSort.pdqsort_func].
  replace (length l - 0 <=? 12)%nat with true
    by (symmetry; apply Nat.leb_le; lia).
  apply insertionSort_func_orderKept, orderKept_refl.
Qed.

End Stability.

Lemma f32_eq_sym (x y : F32.t) : F32.eq x y = F32.eq y x.
Proof.
  unfold F32.eq, SFeqb, SFcompare.
  destruct x as [sx|sx| |sx mx ex], y as [sy|sy| |sy my ey]; try done;
    try (by destruct sx); try (by destruct sy); try (by destruct sx, sy).
  change PosDef.Pos.compare_cont with Pos.compare_cont.
  rewrite (Z.compare_antisym ex ey).
  replace (Pos.compare_cont Eq my mx) with (CompOpp (Pos.compare_cont Eq mx my))
    by (by rewrite Pos.compare_cont_antisym).
  destruct sx, sy; try done;
    destruct (ex ?= ey); simpl; try done;
    destruct (Pos.compare_cont Eq mx my); done.
Qed.

Lemma f32_eq_not_gt (x y : F32.t) : F32.eq x y = true → F32.gt x y = false.
Proof.
  unfold F32.eq, F32.gt, SFeqb, SFltb, SFcompare.
  destruct x as [sx|sx| |sx mx ex], y as [sy|sy| |sy my ey]; try done;
    try (by destruct sx); try (by destruct sy); try (by destruct sx, sy).
  change PosDef.Pos.compare_cont with Pos.compare_cont.
  rewrite (Z.compare_antisym ex ey).
  replace (Pos.compare_cont Eq my mx) with (CompOpp (Pos.compare_cont Eq mx my))
    by (by rewrite Pos.compare_cont_antisym).
  destruct sx, sy; try done;
    destruct (ex ?= ey); simpl; try done;
    destruct (Pos.compare_cont Eq mx my); done.
Qed.

(** C2 (as stated) fails on ties: of thirteen surviving detections, twelve
    of them with the score 0.5, [sort.Slice] moves the seventh in front of
    the second to the sixth. *)
Lemma sort_reorders_ties :
  ∃ ds sd,
    collectDets tiedPredictions F64.one 2000 100 scoreThr01 = Some ds
    ∧ sortedDets tiedPredictions F64.one 2000 100 scoreThr01 = Some sd
    ∧ ¬ tiesKeepOrder ds sd.
Proof.
  eexists. eexists. split; [by vm_compute|]. split; [by vm_compute|].
  intros Hkeep.
  destruct (Hkeep 2%nat 6%nat _ _ ltac:(lia) eq_refl eq_refl eq_refl)
    as (i' & j' & Hlt & Hi & Hj).
  assert (i' = 2%nat) as ->.
  { do 14 (destruct i' as [|i']; [first [discriminate Hi|reflexivity]|]).
    discriminate Hi. }
  assert (j' = 1%nat) as ->.
  { do 14 (destruct j' as [|j']; [first [discriminate Hj|reflexivity]|]).
    discriminate Hj. }
  lia.
Qed.

(** C2 (amended). When no surviving score is NaN, the slice handed to the
    suppression pass holds the surviving detections, each of score not
    below the threshold, in descending order of score; detections of equal
    score keep their original order when at most 12 detections survive. *)
Theorem sorted_by_score_descending
    (predictions : list (list F32.t)) (ratio : F64.t) (origW origH : Z)
    (scoreThr : F32.t) (ds : list detection) :
  collectDets predictions ratio origW origH scoreThr = Some ds →
  Forall (λ d, F32.is_nan (score d) = false) ds →
  ∃ sd, sortedDets predictions ratio origW origH scoreThr = Some sd
        ∧ sd ≡ₚ ds
        ∧ Forall (λ d, F32.lt (score d) scoreThr = false) sd
        ∧ descendingScores sd
        ∧ ((length ds <= 12)%nat → tiesKeepOrder ds sd).
Proof.
  intros Hds Hnan. unfold sortedDets. rewrite Hds. simpl.
  eexists. split; [done|].
  destruct (Slice_spec scoreGreater _ scoreGreater_swo ds Hnan) as [Hperm Hsorted].
  split; [done|]. split; [|split].
  - rewrite Hperm. by eapply collectDets_scores.
  - intros i j di dj Hij Hi Hj. apply (Hsorted i j di dj); [lia|done| |done..].
    apply lookup_lt_Some in Hj. by rewrite (Permutation_length Hperm) in Hj.
  - intros Hlen. apply Slice_short_orderKept; [|done].
    intros x y Hxy. unfold scoreGreater. apply f32_eq_not_gt.
    by rewrite f32_eq_sym.
Qed.

Lemma sorted_by_score_descending_witness :
  let ds := default [] (collectDets shortTiedPredictions F64.one 2000 100 scoreThr01) in
  length ds = 3%nat
  ∧ ∃ sd, sortedDets shortTiedPredictions F64.one 2000 100 scoreThr01 = Some sd
          ∧ sd ≡ₚ ds
          ∧ Forall (λ d, F32.lt (score d) scoreThr01 = false) sd
          ∧ descendingScores sd
          ∧ ((length ds <= 12)%nat → tiesKeepOrder ds sd).
Proof.
  split; [by vm_compute|].
  apply (sorted_by_score_descending shortTiedPredictions F64.one 2000 100 scoreThr01).
  - by vm_compute.
  - vm_compute. repeat constructor.
Defined.

(** ** Clipping *)

(** C3. The clipping step only raises [x1], [y1] to 0 and lowers [x2],
    [y2] to the image size: for a 10x10 prediction centred at x = 1000 and
    a 100x100 image, detection returns the box (995, 45, 100, 55), whose
    [x1] exceeds its [x2]. *)
Theorem clip_leaves_inverted_box :
  multiclassNMS outsidePrediction F64.one 100 100 nmsThr045 scoreThr01
  = Some [{| X1 := 995; Y1 := 45; X2 := 100; Y2 := 55 |}]
  ∧ clipBox (F32.of_int 1000) (F32.of_int 50) (F32.of_int 10) (F32.of_int 10)
      (float32_of_float64 F64.one) 100 100
    = Some {| X1 := 995; Y1 := 45; X2 := 100; Y2 := 55 |}.
Proof. split; by vm_compute. Qed.

(** * Further properties of the decoder and the range selector *)

Lemma scanAllowed_index output offset numClasses (cs : list Z) :
  ∀ maxIdx maxVal i m,
    scanAllowed output offset numClasses cs maxIdx maxVal = Some (i, m) →
    i = maxIdx ∨ (i ∈ cs ∧ i < numClasses).
Proof.
  induction cs as [|c rest IH]; intros maxIdx maxVal i m H; simpl in H.
  - injection H as <- <-. by left.
  - case_bool_decide as Hge.
    + destruct (IH _ _ _ _ H) as [->|[Hi Hlt]]; [by left|right].
      split; [by right|done].
    + destruct (slice_at output (GoInt.add offset c)) as [v|]; [|done]. simpl in H.
      destruct (F32.gt v maxVal).
      * destruct (IH _ _ _ _ H) as [->|[Hi Hlt]]; right.
        -- split; [by left|lia].
        -- split; [by right|done].
      * destruct (IH _ _ _ _ H) as [->|[Hi Hlt]]; [by left|right].
        split; [by right|done].
Qed.

Lemma argmaxAt_index output offset numClasses allowed i :
  argmaxAt output offset numClasses allowed = Some i →
  i = 0 ∨ (i < numClasses
           ∧ match allowed with [] => 0 < i | _ :: _ => i ∈ allowed end).
Proof.
  unfold argmaxAt. destruct allowed as [|a allowed'].
  - rewrite bool_decide_eq_false_2 by (unfold len; simpl; lia).
    destruct (slice_at output offset) as [mv|]; [|done]. simpl.
    rewrite (scanAll_scanAllowed output offset numClasses).
    2:{ apply Forall_forall. intros c Hc. apply elem_of_seqZ in Hc. lia. }
    destruct (scanAllowed _ _ _ _ _ _) as [[j m]|] eqn:Hscan; [|done].
    simpl. intros [= ->].
    destruct (scanAllowed_index _ _ _ _ _ _ _ _ Hscan) as [->|[Hi Hlt]]; [by left|right].
    apply elem_of_seqZ in Hi. lia.
  - rewrite bool_decide_eq_true_2 by (unfold len; simpl; lia).
    destruct (scanAllowed _ _ _ _ _ _) as [[j m]|] eqn:Hscan; [|done].
    simpl. intros [= ->].
    destruct (scanAllowed_index _ _ _ _ _ _ _ _ Hscan) as [->|[Hi Hlt]]; [by left|by right].
Qed.

Lemma argmaxPath_index output batchSize numClasses allowed :
  ∀ (n : nat) (t : Z) path,
    argmaxPath output batchSize numClasses allowed n t = Some path →
    length path = n
    ∧ Forall (λ i, i = 0 ∨ (i < numClasses
                ∧ match allowed with [] => 0 < i | _ :: _ => i ∈ allowed end)) path.
Proof.
  induction n as [|n IH]; intros t path H; simpl in H.
  - injection H as <-. by split.
  - destruct (argmaxAt _ _ _ _) as [i|] eqn:Hi; [|done]. simpl in H.
    destruct (argmaxPath _ _ _ _ n (t + 1)) as [rest|] eqn:Hrest; [|done].
    simpl in H. injection H as <-.
    destruct (IH _ _ Hrest) as [Hlen Hall]. split; [by rewrite <- Hlen|].
    constructor; [by eapply argmaxAt_index|done].
Qed.

Lemma collapse_sub (charsetLen : Z) (path : list Z) :
  ∀ lastIndex,
    (length (collapse charsetLen lastIndex path) <= length path)%nat
    ∧ ∀ i, i ∈ collapse charsetLen lastIndex path → i ∈ path.
Proof.
  induction path as [|j path IH]; intros lastIndex; simpl; [by split|].
  destruct (IH j) as [Hlen Hsub]. case_bool_decide; simpl.
  - split; [lia|]. intros i Hi. apply elem_of_cons in Hi as [->|Hi]; [by left|].
    right. by apply Hsub.
  - split; [lia|]. intros i Hi. right. by apply Hsub.
Qed.

Lemma decode_emitted
    (output : list F32.t) (shape : list Z) (charsets : list string)
    (charsetLen : Z) (allowed : list Z) (T B C : Z) (text : string) :
  shapeDims shape = Some (T, B, C) →
  decodeOutputFloatFast output shape charsets charsetLen allowed = Some text →
  ∃ emitted : list Z,
    textOf charsets emitted = Some text
    ∧ (length emitted <= Z.to_nat T)%nat
    ∧ Forall (emittable charsetLen C allowed) emitted.
Proof.
  intros Hshape Hdec. unfold decodeOutputFloatFast in Hdec.
  rewrite Hshape, decodeLoop_refines in Hdec.
  destruct (argmaxPath output B C allowed (Z.to_nat T) 0) as [path|] eqn:Hpath;
    [|done].
  simpl in Hdec.
  destruct (textOf charsets (collapse charsetLen (-1) path)) as [txt|] eqn:Htxt;
    [|done].
  simpl in Hdec. injection Hdec as <-.
  destruct (argmaxPath_index _ _ _ _ _ _ _ Hpath) as [Hlen Hall].
  destruct (collapse_sub charsetLen path (-1)) as [Hclen Hsub].
  exists (collapse charsetLen (-1) path). split; [done|]. split; [lia|].
  apply Forall_forall. intros i Hi.
  pose proof (collapse_emitted charsetLen path (-1)) as Hem.
  rewrite Forall_forall in Hem. destruct (Hem i Hi) as [Hne Hlt].
  rewrite Forall_forall in Hall.
  destruct (Hall i (Hsub i Hi)) as [->|[HltC Hin]]; [done|].
  by repeat split.
Qed.

(** X1. The decoded text is the concatenation of at most [timesteps]
    charset entries, each at an index that is not the blank 0, is below
    the charset length and the class count, and belongs to the allowed
    list when that list is not empty. *)
Theorem decode_emitted_indices
    (output : list F32.t) (shape : list Z) (charsets : list string)
    (charsetLen : Z) (allowed : list Z) (T B C : Z) (text : string) :
  shapeDims shape = Some (T, B, C) →
  decodeOutputFloatFast output shape charsets charsetLen allowed = Some text →
  ∃ emitted : list Z,
    textOf charsets emitted = Some text
    ∧ (length emitted <= Z.to_nat T)%nat
    ∧ Forall (emittable charsetLen C allowed) emitted.
Proof. apply decode_emitted. Qed.

Lemma decode_emitted_indices_witness :
  ∃ emitted : list Z,
    textOf [""; "a"; "b"] emitted = Some "aa"
    ∧ (length emitted <= Z.to_nat 4)%nat
    ∧ Forall (emittable 3 3 [0; 1]) emitted.
Proof.
  apply (decode_emitted_indices examplePathScores [4; 1; 3] [""; "a"; "b"] 3
           [0; 1] 4 1 3 "aa"); by vm_compute.
Defined.

(** ** The decoder stays inside its slices *)

Lemma slice_at_is_Some {A} (s : list A) (i : Z) :
  0 <= i < len s → is_Some (slice_at s i).
Proof.
  intros Hi. unfold slice_at. rewrite bool_decide_eq_true_2 by lia.
  apply lookup_lt_is_Some_2. unfold len in Hi. lia.
Qed.

Lemma scanAllowed_is_Some output offset numClasses (cs : list Z) :
  ∀ maxIdx maxVal,
    (∀ c, c ∈ cs → c < numClasses → is_Some (slice_at output (GoInt.add offset c))) →
    is_Some (scanAllowed output offset numClasses cs maxIdx maxVal).
Proof.
  induction cs as [|c rest IH]; intros maxIdx maxVal Hread; simpl; [done|].
  assert (Hrest : ∀ c', c' ∈ rest → c' < numClasses →
                        is_Some (slice_at output (GoInt.add offset c'))).
  { intros c' Hc'. apply Hread. by right. }
  case_bool_decide as Hge; [by apply IH|].
  destruct (Hread c) as [v Hv]; [by left|lia|]. rewrite Hv. simpl.
  destruct (F32.gt v maxVal); by apply IH.
Qed.

Section InBounds.

Variable output : list F32.t.
Variables T B C : Z.
Variable allowed : list Z.
Hypothesis HB : 1 <= B.
Hypothesis HC : 1 <= C.
Hypothesis Hsize : T * B * C <= len output.
Hypothesis Hlen : len output <= GoInt.max_int.
Hypothesis Hallowed : Forall (λ c, 0 <= c) allowed.

Lemma offset_in_bounds (t c : Z) :
  0 <= t < T → 0 <= c < C →
  GoInt.add (GoInt.mul (GoInt.mul t B) C) c = t * B * C + c
  ∧ 0 <= t * B * C + c < len output.
Proof.
  intros Ht Hc.
  assert (Hmax : GoInt.max_int = 9223372036854775807) by reflexivity.
  assert (Hmin : GoInt.min_int = -9223372036854775808) by reflexivity.
  assert (H1 : 0 <= t * B) by nia.
  assert (H2 : t * B + 1 <= T * B) by nia.
  assert (H3 : (t * B + 1) * C <= T * B * C) by nia.
  assert (H4 : t * B <= t * B * C) by nia.
  unfold GoInt.add, GoInt.mul.
  rewrite (wrap_small (t * B)) by lia.
  rewrite (wrap_small (t * B * C)) by nia.
  rewrite wrap_small by nia. split; [done|nia].
Qed.

Lemma argmaxAt_is_Some (t : Z) :
  0 <= t < T →
  is_Some (argmaxAt output (GoInt.mul (GoInt.mul t B) C) C allowed).
Proof.
  intros Ht. unfold argmaxAt. case_bool_decide as Hal.
  - destruct (scanAllowed_is_Some output (GoInt.mul (GoInt.mul t B) C) C allowed
                0 F32.neg_1e9) as [[i m] Hscan]; [|by rewrite Hscan].
    intros c Hc HcC. rewrite Forall_forall in Hallowed.
    destruct (offset_in_bounds t c Ht) as [-> Hin]; [by split; [apply Hallowed|]|].
    by apply slice_at_is_Some.
  - destruct (offset_in_bounds t 0 Ht ltac:(lia)) as [Heq Hin].
    assert (Hoff : GoInt.mul (GoInt.mul t B) C = t * B * C).
    { unfold GoInt.add in Heq. rewrite Z.add_0_r in Heq.
      unfold GoInt.mul in *.
      assert (Hmax : GoInt.max_int = 9223372036854775807) by reflexivity.
      assert (Hmin : GoInt.min_int = -9223372036854775808) by reflexivity.
      assert (H1 : 0 <= t * B) by nia.
      assert (H4 : t * B <= t * B * C) by nia.
      rewrite (wrap_small (t * B)) by lia. apply wrap_small. lia. }
    destruct (slice_at_is_Some output (GoInt.mul (GoInt.mul t B) C)) as [mv Hmv];
      [rewrite Hoff; lia|].
    rewrite Hmv. simpl. rewrite (scanAll_scanAllowed output _ C).
    2:{ apply Forall_forall. intros c Hc. apply elem_of_seqZ in Hc. lia. }
    destruct (scanAllowed_is_Some output (GoInt.mul (GoInt.mul t B) C) C
                (seqZ 1 (C - 1)) 0 mv) as [[i m] Hscan]; [|by rewrite Hscan].
    intros c Hc HcC. apply elem_of_seqZ in Hc.
    destruct (offset_in_bounds t c Ht) as [-> Hin']; [lia|].
    by apply slice_at_is_Some.
Qed.

Lemma argmaxPath_is_Some :
  ∀ (n : nat) (t : Z), 0 <= t → t + Z.of_nat n <= Z.max T 0 →
    is_Some (argmaxPath output B C allowed n t).
Proof.
  induction n as [|n IH]; intros t Ht Hn; simpl; [done|].
  destruct (argmaxAt_is_Some t) as [i Hi]; [lia|]. rewrite Hi. simpl.
  destruct (IH (t + 1)) as [rest Hrest]; [lia|lia|]. by rewrite Hrest.
Qed.

End InBounds.

(** X2. When the tensor holds at least [timesteps * batchSize * numClasses]
    scores, the charset holds [charsetLen] entries and no allowed index is
    negative, the decoder returns a text: it reads no score and no charset
    entry out of range. *)
Theorem decode_in_bounds
    (output : list F32.t) (shape : list Z) (charsets : list string)
    (charsetLen : Z) (allowed : list Z) (T B C : Z) :
  shapeDims shape = Some (T, B, C) →
  1 <= B → 1 <= C →
  T * B * C <= len output → len output <= GoInt.max_int →
  charsetLen <= len charsets →
  Forall (λ c, 0 <= c) allowed →
  ∃ text, decodeOutputFloatFast output shape charsets charsetLen allowed = Some text.
Proof.
  intros Hshape HB HC Hsize Hlen Hcs Hallowed. unfold decodeOutputFloatFast.
  rewrite Hshape, decodeLoop_refines.
  destruct (argmaxPath_is_Some output T B C allowed HB HC Hsize Hlen Hallowed
              (Z.to_nat T) 0) as [path Hpath]; [lia|lia|].
  rewrite Hpath. simpl.
  destruct (argmaxPath_index _ _ _ _ _ _ _ Hpath) as [_ Hall].
  assert (Hsome : is_Some (textOf charsets (collapse charsetLen (-1) path))).
  { unfold textOf. apply fmap_is_Some, mapM_is_Some, Forall_forall.
    intros i Hi. simpl.
    pose proof (collapse_emitted charsetLen path (-1)) as Hem.
    rewrite Forall_forall in Hem. destruct (Hem i Hi) as [Hne Hlt].
    destruct (collapse_sub charsetLen path (-1)) as [_ Hsub].
    rewrite Forall_forall in Hall.
    apply slice_at_is_Some.
    destruct (Hall i (Hsub i Hi)) as [->|[_ Hin]]; [done|].
    destruct allowed as [|a allowed']; [lia|].
    rewrite Forall_forall in Hallowed. specialize (Hallowed i Hin). simpl in Hallowed.
    lia. }
  destruct Hsome as [txt Htxt]. rewrite Htxt. simpl. by eexists.
Qed.

Lemma decode_in_bounds_witness :
  ∃ text, decodeOutputFloatFast examplePathScores [4; 1; 3] [""; "a"; "b"] 3 [0; 1]
          = Some text.
Proof.
  apply (decode_in_bounds examplePathScores [4; 1; 3] [""; "a"; "b"] 3 [0; 1] 4 1 3);
    try (by vm_compute); try (unfold len; simpl; lia).
  repeat constructor; lia.
Defined.

(** ** The reverse map and the range selector *)

Lemma indexCharsets_lookup (cs : list string) :
  ∀ (m : gmap string Z) (i : Z) (c : string) (k : Z),
    indexCharsets m i cs !! c = Some k
    ↔ ((∃ (j : nat), cs !! j = Some c ∧ k = i + Z.of_nat j
                     ∧ ∀ (j' : nat), (j < j')%nat → cs !! j' ≠ Some c)
       ∨ ((c ∉ cs) ∧ m !! c = Some k)).
Proof.
  induction cs as [|c0 rest IH]; intros m i c k; simpl.
  - split; [intros Hm; right; split; [apply not_elem_of_nil|done]|].
    intros [(j & Hj & _)|[_ Hm]]; [by rewrite lookup_nil in Hj|done].
  - rewrite IH. split.
    + intros [(j & Hj & -> & Hlast)|(Hnin & Hm)].
      * left. exists (S j). split; [done|]. split; [lia|].
        intros [|j'] Hj'; [lia|]. simpl. apply Hlast. lia.
      * destruct (decide (c0 = c)) as [->|Hne].
        -- rewrite lookup_insert_eq in Hm. injection Hm as <-.
           left. exists 0%nat. split; [done|]. split; [lia|].
           intros [|j'] Hj'; [lia|]. simpl. intros Hc. apply Hnin.
           by eapply list_elem_of_lookup_2.
        -- rewrite lookup_insert_ne in Hm by done. right. split; [|done].
           apply not_elem_of_cons. split; [congruence|done].
    + intros [(j & Hj & -> & Hlast)|(Hnin & Hm)].
      * destruct j as [|j]; simpl in Hj.
        -- injection Hj as ->. right. split.
           ++ intros Hin. apply list_elem_of_lookup in Hin as [j' Hj'].
              apply (Hlast (S j')); [lia|done].
           ++ rewrite lookup_insert_eq. f_equal. lia.
        -- left. exists j. split; [done|]. split; [lia|].
           intros j' Hj'. apply (Hlast (S j')). lia.
      * apply not_elem_of_cons in Hnin as [Hne Hnin]. right. split; [done|].
        by rewrite lookup_insert_ne.
Qed.

Lemma indexCharsets_is_Some (cs : list string) :
  ∀ (m : gmap string Z) (i : Z) (c : string),
    c ∈ cs ∨ is_Some (m !! c) → is_Some (indexCharsets m i cs !! c).
Proof.
  induction cs as [|c0 rest IH]; intros m i c H; simpl.
  - destruct H as [H|H]; [by apply elem_of_nil in H|done].
  - apply IH. destruct (decide (c0 = c)) as [->|Hne].
    + right. by rewrite lookup_insert_eq.
    + rewrite lookup_insert_ne by done.
      destruct H as [H|H]; [|by right]. left.
      apply elem_of_cons in H as [->|H]; done.
Qed.

Lemma indexed_lookup (d : DdddOcr) (c : string) (k : Z) :
  indexed d →
  (charIndexMap d !! c = Some k
   ↔ slice_at (charsets d) k = Some c
     ∧ ∀ k', k < k' → slice_at (charsets d) k' ≠ Some c).
Proof.
  intros [Hmap _]. rewrite Hmap, indexCharsets_lookup. unfold slice_at. split.
  - intros [(j & Hj & -> & Hlast)|[_ Hm]]; [|done].
    rewrite bool_decide_eq_true_2 by lia. rewrite Z.add_0_l, Nat2Z.id.
    split; [done|]. intros k' Hk'. rewrite bool_decide_eq_true_2 by lia.
    apply Hlast. lia.
  - intros [Hk Hlast]. case_bool_decide as Hk0; [|done].
    left. exists (Z.to_nat k). split; [done|]. split; [lia|].
    intros j' Hj'. specialize (Hlast (Z.of_nat j') ltac:(lia)).
    rewrite bool_decide_eq_true_2 in Hlast by lia. by rewrite Nat2Z.id in Hlast.
Qed.

Lemma loadedOcr_indexed (cs : list string) : indexed (loadedOcr cs).
Proof. by split. Qed.

(** X3. The reverse map built when the charset is loaded sends a string
    to the index of its last occurrence in the charset, and knows no
    other string. *)
Theorem charIndexMap_last_occurrence (cs : list string) (c : string) (k : Z) :
  charIndexMap (loadedOcr cs) !! c = Some k
  ↔ slice_at cs k = Some c ∧ ∀ k', k < k' → slice_at cs k' ≠ Some c.
Proof. apply (indexed_lookup (loadedOcr cs)), loadedOcr_indexed. Qed.

Lemma slice_at_Some_range {A} (s : list A) (i : Z) (x : A) :
  slice_at s i = Some x → 0 <= i < len s.
Proof.
  unfold slice_at, len. case_bool_decide; [|done].
  intros Hx%lookup_lt_Some. lia.
Qed.

Lemma buildIndices_spec (split : string → list string) (d : DdddOcr) (chars : string) :
  indexed d →
  ∃ idxs, buildIndices split d chars = 0 :: idxs
        ∧ Forall (λ i, 0 <= i < charsetLen d
                       ∧ ∃ ch, ch ∈ split chars ∧ slice_at (charsets d) i = Some ch) idxs
        ∧ ∀ ch, ch ∈ split chars → ch ∈ charsets d →
                ∃ i, i ∈ idxs ∧ slice_at (charsets d) i = Some ch.
Proof.
  intros Hd. unfold buildIndices. eexists. split; [done|]. split.
  - apply Forall_forall. intros i Hi.
    apply list_elem_of_omap in Hi as (ch & Hch & Hi).
    apply (indexed_lookup d ch i Hd) in Hi as [Hi _].
    split; [|by exists ch]. destruct Hd as [_ ->]. by eapply slice_at_Some_range.
  - intros ch Hch Hin.
    destruct (charIndexMap d !! ch) as [i|] eqn:Hi.
    + exists i. split; [apply list_elem_of_omap; by exists ch|].
      by apply (indexed_lookup d ch i Hd) in Hi as [Hi _].
    + exfalso. destruct Hd as [Hmap _]. rewrite Hmap in Hi.
      destruct (indexCharsets_is_Some (charsets d) ∅ 0 ch) as [k Hk]; [by left|].
      congruence.
Qed.

Lemma SetRanges_rangeChars split contains (d : DdddOcr) (val : RangeVal) (chars : string) :
  rangeChars contains d val = Some chars →
  SetRanges split contains d val = setAllowedIndices d (buildIndices split d chars).
Proof.
  destruct val as [v|v|]; simpl; [by intros [= ->]| |done].
  by intros ->.
Qed.

(** X4. After [SetRanges] with a string or a preset, [allowedIndices] is
    the blank index 0 followed by valid charset indices, each the index
    of one of the requested characters, and every requested character
    that occurs in the charset has its index in the list; the charset,
    its length and the reverse map are unchanged. *)
Theorem SetRanges_indices
    (strings_Split : string → list string)
    (strings_Contains : string → string → bool)
    (d : DdddOcr) (val : RangeVal) (chars : string) :
  indexed d →
  rangeChars strings_Contains d val = Some chars →
  let d' := SetRanges strings_Split strings_Contains d val in
  charsets d' = charsets d
  ∧ charsetLen d' = charsetLen d
  ∧ charIndexMap d' = charIndexMap d
  ∧ indexed d'
  ∧ ∃ idxs, allowedIndices d' = 0 :: idxs
      ∧ Forall (λ i, 0 <= i < charsetLen d
                     ∧ ∃ ch, ch ∈ strings_Split chars
                             ∧ slice_at (charsets d) i = Some ch) idxs
      ∧ ∀ ch, ch ∈ strings_Split chars → ch ∈ charsets d →
              ∃ i, i ∈ idxs ∧ slice_at (charsets d) i = Some ch.
Proof.
  intros Hd Hchars d'. subst d'.
  rewrite (SetRanges_rangeChars _ _ _ _ _ Hchars).
  split; [done|]. split; [done|]. split; [done|]. split; [exact Hd|].
  simpl. by apply buildIndices_spec.
Qed.

Lemma SetRanges_indices_witness :
  allowedIndices (SetRanges splitBytes containsString (loadedOcr [""; "a"; "b"])
                    (ValString "ba")) = [0; 2; 1]
  ∧ charsets (SetRanges splitBytes containsString (loadedOcr [""; "a"; "b"])
                (ValString "ba")) = [""; "a"; "b"]
  ∧ charsetLen (SetRanges splitBytes containsString (loadedOcr [""; "a"; "b"])
                  (ValString "ba")) = 3
  ∧ charIndexMap (SetRanges splitBytes containsString (loadedOcr [""; "a"; "b"])
                    (ValString "ba")) = charIndexMap (loadedOcr [""; "a"; "b"])
  ∧ indexed (SetRanges splitBytes containsString (loadedOcr [""; "a"; "b"])
               (ValString "ba"))
  ∧ ∃ idxs,
      allowedIndices (SetRanges splitBytes containsString (loadedOcr [""; "a"; "b"])
                        (ValString "ba")) = 0 :: idxs
      ∧ Forall (λ i, 0 <= i < 3
                     ∧ ∃ ch, ch ∈ splitBytes "ba"
                             ∧ slice_at [""; "a"; "b"] i = Some ch) idxs
      ∧ ∀ ch, ch ∈ splitBytes "ba" → ch ∈ [""; "a"; "b"] →
              ∃ i, i ∈ idxs ∧ slice_at [""; "a"; "b"] i = Some ch.
Proof.
  split; [by vm_compute|].
  apply (SetRanges_indices splitBytes containsString (loadedOcr [""; "a"; "b"])
           (ValString "ba") "ba"); [apply loadedOcr_indexed|reflexivity].
Defined.

Lemma mapM_pieces (charsets : list string) (allowed : string → Prop) :
  ∀ (emitted : list Z) (pieces : list string),
    mapM (slice_at charsets) emitted = Some pieces →
    Forall (λ i, ∃ ch, slice_at charsets i = Some ch ∧ allowed ch) emitted →
    Forall allowed pieces.
Proof.
  intros emitted pieces Hm%mapM_Some_1 Hall.
  induction Hm as [|i p emitted pieces Hi Hm IH]; [constructor|].
  inversion Hall as [|? ? (ch & Hch & Hok) Hall']; subst.
  constructor; [|by apply IH]. rewrite Hi in Hch. by injection Hch as <-.
Qed.

(** X5. After [SetRanges] with a string or a preset, the text that the
    decoding step of [ClassificationWithOptions] returns is a
    concatenation of requested characters, and the error is nil. *)
Theorem restricted_text_in_range
    (strings_Split : string → list string)
    (strings_Contains : string → string → bool)
    (d : DdddOcr) (val : RangeVal) (chars : string)
    (data : list F32.t) (shape : list Z) (text : string) (err : error) :
  indexed d →
  rangeChars strings_Contains d val = Some chars →
  classificationDecode (SetRanges strings_Split strings_Contains d val)
    (TensorFloat32 data shape) = Some (text, err) →
  err = None
  ∧ ∃ pieces, text = concatStrings pieces
              ∧ Forall (λ p, p ∈ strings_Split chars) pieces.
Proof.
  intros Hd Hchars. rewrite (SetRanges_rangeChars _ _ _ _ _ Hchars).
  unfold classificationDecode. simpl.
  destruct (decodeOutputFloatFast _ _ _ _ _) as [txt|] eqn:Hdec; [|done].
  simpl. intros [= <- <-]. split; [done|].
  destruct (shapeDims shape) as [[[T B] C]|] eqn:Hshape.
  - destruct (decode_emitted _ _ _ _ _ _ _ _ _ Hshape Hdec)
      as (emitted & Htext & _ & Hall).
    unfold textOf in Htext.
    destruct (mapM (slice_at (charsets d)) emitted) as [pieces|] eqn:Hm; [|done].
    simpl in Htext. injection Htext as <-. exists pieces. split; [done|].
    destruct (buildIndices_spec strings_Split d chars Hd)
      as (idxs & Hidx & Hvalid & _).
    apply (mapM_pieces (charsets d) (λ p, p ∈ strings_Split chars)
             emitted pieces Hm).
    apply Forall_forall. intros i Hi. rewrite Forall_forall in Hall.
    destruct (Hall i Hi) as (Hne & _ & _ & Hin). rewrite Hidx in Hin.
    apply elem_of_cons in Hin as [->|Hin]; [done|].
    rewrite Forall_forall in Hvalid. destruct (Hvalid i Hin) as (_ & ch & Hch & Hs).
    by exists ch.
  - unfold decodeOutputFloatFast in Hdec. rewrite Hshape in Hdec.
    injection Hdec as <-. by exists [].
Qed.

Lemma restricted_text_in_range_witness :
  classificationDecode
    (SetRanges splitBytes containsString (loadedOcr [""; "a"; "b"]) (ValString "a"))
    (TensorFloat32 examplePathScores [4; 1; 3]) = Some ("aa", None)
  ∧ (@None string = None
     ∧ ∃ pieces, "aa" = concatStrings pieces
                 ∧ Forall (λ p, p ∈ splitBytes "a") pieces).
Proof.
  split; [by vm_compute|].
  apply (restricted_text_in_range splitBytes containsString
           (loadedOcr [""; "a"; "b"]) (ValString "a") "a"
           examplePathScores [4; 1; 3] "aa" None);
    [apply loadedOcr_indexed|reflexivity|by vm_compute].
Defined.

(** * Further properties of the detection post-processor *)

(** ** [sort.Slice] permutes, whatever the comparison *)

Section SortPermutes.

Context {A : Type} (less : A → A → bool).
Implicit Types (l data : list A).

Lemma foldl_Permutation {I} (f : list A → I → list A) (xs : list I) :
  (∀ d i, f d i ≡ₚ d) → ∀ l, foldl f l xs ≡ₚ l.
Proof.
  intros Hf. induction xs as [|x xs IH]; intros l; simpl; [done|].
  by rewrite IH.
Qed.

Lemma insertionInner_Permutation a : ∀ j l, GoSort.insertionInner less a j l ≡ₚ l.
Proof.
  induction j as [|j IH]; intros l; simpl; [done|].
  destruct (_ && _); [|done]. by rewrite IH, <- Swap_Permutation.
Qed.

Lemma insertionSort_func_Permutation l a b :
  GoSort.insertionSort_func less l a b ≡ₚ l.
Proof.
  unfold GoSort.insertionSort_func. apply foldl_Permutation.
  intros d i. apply insertionInner_Permutation.
Qed.

Lemma siftDownLoop_Permutation hi first :
  ∀ fuel l root, GoSort.siftDownLoop less fuel l root hi first ≡ₚ l.
Proof.
  induction fuel as [|fuel IH]; intros l root; [done|].
  rewrite siftDownLoop_S. cbv zeta.
  destruct (hi <=? 2 * root + 1)%nat; [done|].
  destruct (negb _); [done|]. by rewrite IH, <- Swap_Permutation.
Qed.

Lemma heapSort_func_Permutation l a b : GoSort.heapSort_func less l a b ≡ₚ l.
Proof.
  unfold GoSort.heapSort_func. cbv zeta.
  rewrite foldl_Permutation.
  - apply foldl_Permutation. intros d i. apply siftDownLoop_Permutation.
  - intros d i. unfold GoSort.siftDown_func.
    by rewrite siftDownLoop_Permutation, <- Swap_Permutation.
Qed.

Lemma breakPatterns_func_Permutation l a b :
  GoSort.breakPatterns_func l a b ≡ₚ l.
Proof.
  unfold GoSort.breakPatterns_func. destruct (8 <=? b - a)%nat; [|done].
  cbv zeta. simpl. by rewrite <- !Swap_Permutation.
Qed.

Lemma reverseRange_func_Permutation l a b :
  GoSort.reverseRange_func l a b ≡ₚ l.
Proof.
  unfold GoSort.reverseRange_func. apply foldl_Permutation.
  intros d k. by rewrite <- Swap_Permutation.
Qed.

Lemma shiftLeft_Permutation : ∀ j l, GoSort.shiftLeft less j l ≡ₚ l.
Proof.
  induction j as [|j IH]; intros l; simpl; [done|].
  destruct (negb _); [done|]. by rewrite IH, <- Swap_Permutation.
Qed.

Lemma shiftRight_Permutation : ∀ n l j, GoSort.shiftRight less l j n ≡ₚ l.
Proof.
  induction n as [|n IH]; intros l j; simpl; [done|].
  destruct (negb _); [done|]. by rewrite IH, <- Swap_Permutation.
Qed.

Lemma partialInsertionLoop_Permutation a b :
  ∀ steps l i, (GoSort.partialInsertionLoop less steps l a b i).1 ≡ₚ l.
Proof.
  induction steps as [|steps IH]; intros l i; simpl; [done|].
  destruct (_ =? b)%nat; [done|]. destruct (b - a <? 50)%nat; [done|].
  rewrite IH.
  repeat match goal with |- context [if ?c then _ else _] => destruct c end;
    rewrite ?shiftRight_Permutation, ?shiftLeft_Permutation;
    by rewrite <- Swap_Permutation.
Qed.

Lemma partitionLoop_Permutation a :
  ∀ fuel l i j, (GoSort.partitionLoop less fuel l a i j).1.1 ≡ₚ l.
Proof.
  induction fuel as [|fuel IH]; intros l i j; simpl; [done|].
  destruct (_ <? _)%nat; [done|]. by rewrite IH, <- Swap_Permutation.
Qed.

Lemma partition_func_Permutation l a b pivot :
  (GoSort.partition_func less l a b pivot).1.1 ≡ₚ l.
Proof.
  unfold GoSort.partition_func. cbv zeta.
  destruct (_ <? _)%nat; simpl; [by rewrite <- !Swap_Permutation|].
  destruct (GoSort.partitionLoop _ _ _ _ _ _) as [[l' i'] j'] eqn:Hloop. simpl.
  rewrite <- Swap_Permutation.
  change l' with (l', i', j').1.1. rewrite <- Hloop.
  by rewrite partitionLoop_Permutation, <- !Swap_Permutation.
Qed.

Lemma partitionEqualLoop_Permutation a :
  ∀ fuel l i j, (GoSort.partitionEqualLoop less fuel l a i j).1 ≡ₚ l.
Proof.
  induction fuel as [|fuel IH]; intros l i j; simpl; [done|].
  destruct (_ <? _)%nat; [done|]. by rewrite IH, <- Swap_Permutation.
Qed.

Lemma partitionEqual_func_Permutation l a b pivot :
  (GoSort.partitionEqual_func less l a b pivot).1 ≡ₚ l.
Proof.
  unfold GoSort.partitionEqual_func. cbv zeta.
  by rewrite partitionEqualLoop_Permutation, <- Swap_Permutation.
Qed.

Lemma pdqsort_func_Permutation :
  ∀ fuel l a b limit wasBalanced wasPartitioned,
    GoSort.pdqsort_func less fuel l a b limit wasBalanced wasPartitioned ≡ₚ l.
Proof.
  induction fuel as [|fuel IH]; intros l a b limit wb wp; [done|].
  cbn [GoSort.pdqsort_func].
  destruct (b - a <=? 12)%nat; [apply insertionSort_func_Permutation|].
  destruct (limit =? 0)%nat; [apply heapSort_func_Permutation|].
  generalize (if wb then limit else (limit - 1)%nat). clear limit. intros limit.
  set (l1 := if wb then l else GoSort.breakPatterns_func l a b).
  assert (H1 : l1 ≡ₚ l).
  { subst l1. destruct wb; [done|apply breakPatterns_func_Permutation]. }
  clearbody l1.
  destruct (GoSort.choosePivot_func less l1 a b) as [pivot hint].
  set (l2 := match hint with
             | GoSort.decreasingHint => GoSort.reverseRange_func l1 a b
             | _ => l1
             end).
  assert (H2 : l2 ≡ₚ l).
  { subst l2. destruct hint; try done. by rewrite reverseRange_func_Permutation. }
  clearbody l2. clear H1 l1.
  generalize (match hint with
              | GoSort.decreasingHint => (b - 1 - (pivot - a))%nat
              | _ => pivot
              end).
  intros pivot2.
  generalize (GoSort.isIncreasing match hint with
                                  | GoSort.decreasingHint => GoSort.increasingHint
                                  | _ => hint
                                  end).
  intros incr.
  destruct (if wb && wp && incr
            then GoSort.partialInsertionSort_func less l2 a b
            else (l2, false)) as [l3 sorted] eqn:Hpi.
  assert (H3 : l3 ≡ₚ l).
  { change l3 with (l3, sorted).1. rewrite <- Hpi.
    destruct (wb && wp && incr); [|done].
    unfold GoSort.partialInsertionSort_func.
    by rewrite partialInsertionLoop_Permutation. }
  clear Hpi H2 l2. destruct sorted; [done|].
  destruct (_ && _).
  - destruct (GoSort.partitionEqual_func less l3 a b pivot2) as [l4 mid] eqn:Hpe.
    rewrite IH. change l4 with (l4, mid).1. rewrite <- Hpe.
    by rewrite partitionEqual_func_Permutation.
  - destruct (GoSort.partition_func less l3 a b pivot2) as [[l4 mid] ap] eqn:Hpart.
    assert (H4 : l4 ≡ₚ l).
    { change l4 with (l4, mid, ap).1.1. rewrite <- Hpart.
      by rewrite partition_func_Permutation. }
    destruct (_ <? _)%nat; by rewrite !IH.
Qed.

Lemma Slice_Permutation l : GoSort.Slice less l ≡ₚ l.
Proof. apply pdqsort_func_Permutation. Qed.

End SortPermutes.

(** ** The greedy suppression pass keeps a maximal set *)

Section SuppressionTrace.

Variable nmsThr : F32.t.
Variable dets : list detection.

Lemma suppressStep_new (i : nat) (used : list bool) (j k : nat) :
  suppressStep nmsThr dets i used j !! k = Some true →
  used !! k = Some true
  ∨ (k = j ∧ F32.gt (computeIoU (box (dets !!! i)) (box (dets !!! j))) nmsThr = true).
Proof.
  unfold suppressStep. destruct (used !!! j : bool); [by left|].
  destruct (F32.gt _ _) eqn:Hgt; [|by left].
  destruct (decide (j = k)) as [->|Hne]; [by right|].
  rewrite list_lookup_insert_ne by done. by left.
Qed.

Lemma suppress_new (i : nat) (js : list nat) :
  ∀ used (k : nat),
    foldl (suppressStep nmsThr dets i) used js !! k = Some true →
    used !! k = Some true
    ∨ (k ∈ js ∧ F32.gt (computeIoU (box (dets !!! i)) (box (dets !!! k))) nmsThr = true).
Proof.
  induction js as [|j js IH]; intros used k Hk; simpl in Hk; [by left|].
  destruct (IH _ _ Hk) as [Hk'|[Hin Hgt]].
  - destruct (suppressStep_new _ _ _ _ Hk') as [Hu|[-> Hgt]]; [by left|right].
    split; [by left|done].
  - right. split; [by right|done].
Qed.

Lemma acceptStep_trace (i : nat) (st : list BBox * list bool) :
  (i < length dets)%nat →
  nmsTrace nmsThr dets i st → nmsTrace nmsThr dets (S i) (acceptStep nmsThr dets st i).
Proof.
  destruct st as [result used]. intros Hi (Hlen & Hmarked & Hkept & Hsub).
  simpl in Hlen, Hmarked, Hkept, Hsub.
  destruct (lookup_lt_is_Some_2 dets i Hi) as [di Hdi].
  assert (Htake : take (S i) dets = take i dets ++ [di]) by (by apply take_S_r).
  assert (Hdi' : dets !!! i = di) by (by apply list_lookup_total_correct).
  unfold acceptStep. destruct (used !!! i : bool) eqn:Hu; unfold nmsTrace; simpl.
  - split; [done|]. split; [|split].
    + intros j Hj. destruct (Hmarked j Hj) as (k & dk & Hkj & Hki & Hdk & Hin & Hgt).
      exists k, dk. repeat split; try done. lia.
    + intros j d Hj Hd Hfalse. destruct (decide (j = i)) as [->|Hne].
      * apply list_lookup_total_correct in Hfalse. congruence.
      * apply (Hkept j d); [lia|done..].
    + rewrite Htake, fmap_app. by apply sublist_inserts_r.
  - destruct (suppress_spec nmsThr dets i (seq (S i) (length dets - S i)) used)
      as (Hlen' & Hkeep & _).
    { apply Forall_forall. intros j Hj. apply elem_of_seq in Hj. lia. }
    split; [by rewrite Hlen'|]. split; [|split].
    + intros j Hj. destruct (suppress_new _ _ _ _ Hj) as [Hj'|[Hin Hgt]].
      * destruct (Hmarked j Hj') as (k & dk & Hkj & Hki & Hdk & Hin & Hgt).
        exists k, dk. repeat split; try done; [lia|]. apply elem_of_app. by left.
      * apply elem_of_seq in Hin. exists i, di.
        repeat split; try done; [lia|lia| |by rewrite <- Hdi'].
        apply elem_of_app. right. rewrite Hdi'. by left.
    + intros j d Hj Hd Hfalse. apply elem_of_app.
      destruct (decide (j = i)) as [->|Hne].
      * right. rewrite Hdi in Hd. injection Hd as <-. rewrite Hdi'. by left.
      * left. apply (Hkept j d); [lia|done|].
        destruct (used !! j) as [[|]|] eqn:Huj.
        -- apply Hkeep in Huj. congruence.
        -- done.
        -- apply lookup_ge_None in Huj. apply lookup_lt_Some in Hd. lia.
    + rewrite Htake, fmap_app, Hdi'. simpl. by apply sublist_app.
Qed.

Lemma acceptLoop_trace (k : nat) :
  ∀ i st, (i + k = length dets)%nat →
    nmsTrace nmsThr dets i st →
    nmsTrace nmsThr dets (length dets) (foldl (acceptStep nmsThr dets) st (seq i k)).
Proof.
  induction k as [|k IH]; intros i st Hik Hinv; simpl.
  - by replace (length dets) with i by lia.
  - apply IH; [lia|]. apply acceptStep_trace; [lia|done].
Qed.

Lemma nmsPass_trace :
  ∃ used, nmsTrace nmsThr dets (length dets) (nmsPass nmsThr dets, used).
Proof.
  unfold nmsPass.
  pose proof (acceptLoop_trace (length dets) 0 ([], replicate (length dets) false))
    as H.
  destruct (foldl _ _ _) as [result used]. exists used. apply H; [lia|].
  unfold nmsTrace; simpl. split; [by rewrite length_replicate|]. split; [|split].
  - intros j Hj. apply lookup_replicate in Hj as [? _]. done.
  - intros j d Hj. lia.
  - apply sublist_nil_l.
Qed.

Lemma nmsPass_sublist : nmsPass nmsThr dets `sublist_of` (box <$> dets).
Proof.
  destruct nmsPass_trace as (used & _ & _ & _ & Hsub). simpl in Hsub.
  by rewrite firstn_all in Hsub.
Qed.

Lemma nmsPass_maximal (j : nat) (d : detection) :
  dets !! j = Some d →
  box d ∈ nmsPass nmsThr dets
  ∨ ∃ (k : nat) dk, (k < j)%nat ∧ dets !! k = Some dk
      ∧ box dk ∈ nmsPass nmsThr dets
      ∧ F32.gt (computeIoU (box dk) (box d)) nmsThr = true.
Proof.
  intros Hd. destruct nmsPass_trace as (used & Hlen & Hmarked & Hkept & _).
  simpl in Hlen, Hmarked, Hkept.
  pose proof (lookup_lt_Some _ _ _ Hd) as Hj.
  destruct (lookup_lt_is_Some_2 used j ltac:(lia)) as [[|] Hu].
  - right. destruct (Hmarked j Hu) as (k & dk & Hkj & _ & Hdk & Hin & Hgt).
    exists k, dk. repeat split; try done.
    by rewrite (list_lookup_total_correct _ _ _ Hd) in Hgt.
  - left. by apply (Hkept j d).
Qed.

Lemma acceptLoop_head (b : BBox) (js : list nat) :
  ∀ st, head st.1 = Some b →
        head (foldl (acceptStep nmsThr dets) st js).1 = Some b.
Proof.
  induction js as [|j js IH]; intros st Hst; simpl; [done|].
  apply IH. destruct st as [result used]. unfold acceptStep.
  destruct (used !!! j : bool); [done|]. simpl in *.
  by destruct result.
Qed.

Lemma nmsPass_head (d : detection) (ds : list detection) :
  dets = d :: ds → head (nmsPass nmsThr dets) = Some (box d).
Proof.
  intros Hdets. unfold nmsPass. rewrite Hdets. simpl length.
  change (seq 0 (S (length ds))) with (0%nat :: seq 1 (length ds)).
  rewrite <- Hdets. simpl. apply acceptLoop_head. by rewrite Hdets.
Qed.

Lemma suppressStep_other (i : nat) (used : list bool) (j k : nat) :
  k ≠ j → suppressStep nmsThr dets i used j !! k = used !! k.
Proof.
  intros Hne. unfold suppressStep. destruct (used !!! j : bool); [done|].
  destruct (F32.gt _ _); [|done]. by rewrite list_lookup_insert_ne.
Qed.

Lemma suppress_other (i : nat) (js : list nat) :
  ∀ used (k : nat), k ∉ js →
    foldl (suppressStep nmsThr dets i) used js !! k = used !! k.
Proof.
  induction js as [|j js IH]; intros used k Hk; simpl; [done|].
  apply not_elem_of_cons in Hk as [Hne Hk]. by rewrite IH, suppressStep_other.
Qed.

Lemma keptBoxes_ext (used used' : list bool) (i : nat) :
  (∀ j : nat, (j < i)%nat → used' !! j = used !! j) →
  keptBoxes dets used' i = keptBoxes dets used i.
Proof.
  intros Hext. unfold keptBoxes. apply list_omap_ext, Forall2_same_length_lookup_2.
  { done. }
  intros j x y Hx Hy. rewrite Hx in Hy. injection Hy as <-.
  apply lookup_seq in Hx as [-> Hj]. simpl.
  by rewrite !list_lookup_total_alt, (Hext j Hj).
Qed.

Lemma keptBoxes_S (used : list bool) (i : nat) :
  keptBoxes dets used (S i)
  = keptBoxes dets used i
    ++ (if (used !!! i : bool) then [] else [box (dets !!! i)]).
Proof.
  unfold keptBoxes. rewrite seq_S, omap_app. simpl.
  by destruct (used !!! i : bool).
Qed.

Lemma keptBoxes_all (used : list bool) :
  ∀ i : nat, (∀ j : nat, (j < i)%nat → used !!! j = false) → (i <= length dets)%nat →
    keptBoxes dets used i = box <$> take i dets.
Proof.
  induction i as [|i IH]; intros Hfalse Hi; [done|].
  destruct (lookup_lt_is_Some_2 dets i ltac:(lia)) as [di Hdi].
  rewrite keptBoxes_S, (take_S_r _ _ _ Hdi), fmap_app, IH by (intros; auto with lia).
  rewrite (Hfalse i) by lia. simpl.
  by rewrite (list_lookup_total_correct _ _ _ Hdi).
Qed.

Lemma acceptStep_exact (i : nat) (st : list BBox * list bool) :
  (i < length dets)%nat → length st.2 = length dets →
  st.1 = keptBoxes dets st.2 i →
  (acceptStep nmsThr dets st i).1
  = keptBoxes dets (acceptStep nmsThr dets st i).2 (S i)
  ∧ length (acceptStep nmsThr dets st i).2 = length dets.
Proof.
  destruct st as [result used]. simpl. intros Hi Hlen Hres.
  unfold acceptStep. destruct (used !!! i : bool) eqn:Hu; simpl.
  - split; [|done]. by rewrite keptBoxes_S, Hu, app_nil_r.
  - destruct (suppress_spec nmsThr dets i (seq (S i) (length dets - S i)) used)
      as (Hlen' & _ & _).
    { apply Forall_forall. intros j Hj. apply elem_of_seq in Hj. lia. }
    split; [|by rewrite Hlen'].
    assert (Hsame : ∀ j : nat, (j <= i)%nat →
              foldl (suppressStep nmsThr dets i) used
                    (seq (S i) (length dets - S i)) !! j = used !! j).
    { intros j Hj. apply suppress_other. rewrite elem_of_seq. lia. }
    rewrite keptBoxes_S.
    rewrite (keptBoxes_ext used) by (intros j Hj; apply Hsame; lia).
    assert (Hui : foldl (suppressStep nmsThr dets i) used
                        (seq (S i) (length dets - S i)) !!! i = used !!! i).
    { by rewrite !list_lookup_total_alt, (Hsame i (Nat.le_refl _)). }
    by rewrite Hui, Hu, Hres.
Qed.

Lemma acceptLoop_exact (k : nat) :
  ∀ i st, (i + k = length dets)%nat → length st.2 = length dets →
    st.1 = keptBoxes dets st.2 i →
    (foldl (acceptStep nmsThr dets) st (seq i k)).1
    = keptBoxes dets (foldl (acceptStep nmsThr dets) st (seq i k)).2 (length dets).
Proof.
  induction k as [|k IH]; intros i st Hik Hlen Hres; simpl.
  - by replace (length dets) with i by lia.
  - destruct (acceptStep_exact i st) as [Hres' Hlen']; [lia|done..|].
    apply IH; [lia|done..].
Qed.

Lemma nmsPass_exact :
  ∃ used, nmsTrace nmsThr dets (length dets) (nmsPass nmsThr dets, used)
          ∧ nmsPass nmsThr dets = keptBoxes dets used (length dets).
Proof.
  unfold nmsPass.
  pose proof (acceptLoop_trace (length dets) 0 ([], replicate (length dets) false))
    as Htrace.
  pose proof (acceptLoop_exact (length dets) 0 ([], replicate (length dets) false))
    as Hexact.
  destruct (foldl _ _ _) as [result used]. exists used. split.
  - apply Htrace; [lia|].
    unfold nmsTrace; simpl. split; [by rewrite length_replicate|]. split; [|split].
    + intros j Hj. apply lookup_replicate in Hj as [? _]. done.
    + intros j d Hj. lia.
    + apply sublist_nil_l.
  - apply Hexact; [lia|simpl; by rewrite length_replicate|done].
Qed.

Lemma nmsPass_all_kept :
  pairwiseKept nmsThr (box <$> dets) → nmsPass nmsThr dets = box <$> dets.
Proof.
  intros Hpair. destruct nmsPass_exact as (used & (Hlen & Hmarked & _) & ->).
  simpl in Hlen, Hmarked.
  assert (Hfalse : ∀ j : nat, (j < length dets)%nat → used !!! j = false).
  { intros j Hj. destruct (used !!! j) eqn:Hu; [|done].
    assert (Huj : used !! j = Some true).
    { rewrite <- Hu. apply list_lookup_lookup_total_lt. lia. }
    destruct (Hmarked j Huj) as (k & dk & Hkj & _ & Hdk & _ & Hgt).
    rewrite (Hpair k j (box dk) (box (dets !!! j))) in Hgt; [done|done| |].
    - by rewrite list_lookup_fmap, Hdk.
    - rewrite list_lookup_fmap, (list_lookup_lookup_total_lt dets j Hj). done. }
  rewrite (keptBoxes_all used (length dets)) by (done || lia).
  by rewrite firstn_all.
Qed.

End SuppressionTrace.

(** X6. Every candidate of the suppression pass is either returned or
    overlapped above the threshold by a returned box that comes earlier
    in the sorted order. *)
Theorem nms_kept_or_suppressed
    (nmsThr : F32.t) (dets : list detection) (j : nat) (d : detection) :
  dets !! j = Some d →
  box d ∈ nmsPass nmsThr dets
  ∨ ∃ (k : nat) dk, (k < j)%nat ∧ dets !! k = Some dk
      ∧ box dk ∈ nmsPass nmsThr dets
      ∧ F32.gt (computeIoU (box dk) (box d)) nmsThr = true.
Proof. apply nmsPass_maximal. Qed.

Lemma nms_kept_or_suppressed_witness :
  squareBox 1 11 ∈ nmsPass nmsThr045 overlappingDets
  ∨ ∃ (k : nat) dk, (k < 1)%nat ∧ overlappingDets !! k = Some dk
      ∧ box dk ∈ nmsPass nmsThr045 overlappingDets
      ∧ F32.gt (computeIoU (box dk) (squareBox 1 11)) nmsThr045 = true.
Proof.
  apply (nms_kept_or_suppressed nmsThr045 overlappingDets 1
           {| box := squareBox 1 11; score := half |}).
  reflexivity.
Defined.

(** X7. The suppression pass returns boxes of its candidates in the
    candidates' order, and the first candidate's box always comes first. *)
Theorem nms_result_subsequence (nmsThr : F32.t) (dets : list detection) :
  nmsPass nmsThr dets `sublist_of` (box <$> dets)
  ∧ head (nmsPass nmsThr dets) = box <$> head dets.
Proof.
  split; [apply nmsPass_sublist|].
  destruct dets as [|d ds] eqn:Hdets; [done|].
  by apply (nmsPass_head nmsThr (d :: ds) d ds).
Qed.

(** X8. When no candidate overlaps a later one above the threshold, the
    suppression pass returns every candidate's box, in order. *)
Theorem nms_keeps_all_separate (nmsThr : F32.t) (dets : list detection) :
  pairwiseKept nmsThr (box <$> dets) → nmsPass nmsThr dets = box <$> dets.
Proof. apply nmsPass_all_kept. Qed.

Lemma nms_keeps_all_separate_witness :
  nmsPass nmsThr045 separateDets = [squareBox 0 10; squareBox 20 30].
Proof.
  apply (nms_keeps_all_separate nmsThr045 separateDets).
  intros p q bp bq Hpq Hp Hq.
  destruct p as [|[|p]], q as [|[|q]]; try lia; simpl in Hp, Hq; try done.
  injection Hp as <-. injection Hq as <-. by vm_compute.
Defined.

(** ** What [multiclassNMS] returns *)

Lemma clipBox_bounds (cx cy w h ratio : F32.t) (origW origH : Z) (b : BBox) :
  clipBox cx cy w h ratio origW origH = Some b →
  0 <= X1 b ∧ 0 <= Y1 b ∧ X2 b <= origW ∧ Y2 b <= origH.
Proof.
  unfold clipBox. intros H.
  apply bind_Some in H as (x1 & _ & H). apply bind_Some in H as (y1 & _ & H).
  apply bind_Some in H as (x2 & _ & H). apply bind_Some in H as (y2 & _ & H).
  injection H as <-. simpl. repeat case_bool_decide; lia.
Qed.

Lemma predDetection_box pred ratio origW origH scoreThr d :
  predDetection pred ratio origW origH scoreThr = Some (Some d) →
  0 <= X1 (box d) ∧ 0 <= Y1 (box d) ∧ X2 (box d) <= origW ∧ Y2 (box d) <= origH.
Proof.
  unfold predDetection. intros H.
  apply bind_Some in H as (obj & _ & H).
  destruct (F32.lt _ scoreThr) eqn:Hlt; [done|].
  apply bind_Some in H as (cx & _ & H). apply bind_Some in H as (cy & _ & H).
  apply bind_Some in H as (w & _ & H). apply bind_Some in H as (h & _ & H).
  apply bind_Some in H as (b & Hb & H).
  injection H as <-. simpl. by eapply clipBox_bounds.
Qed.

Lemma collectDets_origin predictions ratio origW origH scoreThr :
  ∀ ds, collectDets predictions ratio origW origH scoreThr = Some ds →
    (length ds <= length predictions)%nat
    ∧ Forall (λ d, ∃ pred, pred ∈ predictions
                 ∧ predDetection pred ratio origW origH scoreThr = Some (Some d)) ds.
Proof.
  induction predictions as [|pred rest IH]; intros ds H; simpl in H.
  - injection H as <-. by split.
  - destruct (predDetection pred ratio origW origH scoreThr) as [d|] eqn:Hd; [|done].
    simpl in H.
    destruct (collectDets rest ratio origW origH scoreThr) as [ds'|]; [|done].
    simpl in H. injection H as <-. destruct (IH ds' eq_refl) as [Hlen Hall].
    assert (Hall' : Forall (λ d, ∃ pred0, pred0 ∈ pred :: rest
                     ∧ predDetection pred0 ratio origW origH scoreThr = Some (Some d)) ds').
    { eapply Forall_impl; [exact Hall|]. intros d0 (p0 & Hp0 & Hd0).
      exists p0. split; [by right|done]. }
    destruct d as [det|]; simpl.
    + split; [lia|]. constructor; [|done]. exists pred. split; [by left|done].
    + split; [lia|done].
Qed.

(** X9. Every box [multiclassNMS] returns is the clipped box of a
    prediction row whose score is not below the score threshold; its
    corners satisfy [0 <= x1], [0 <= y1], [x2 <= origW] and [y2 <= origH],
    and no more boxes are returned than there are rows. *)
Theorem multiclassNMS_boxes
    (predictions : list (list F32.t)) (ratio : F64.t) (origW origH : Z)
    (nmsThr scoreThr : F32.t) (result : list BBox) :
  multiclassNMS predictions ratio origW origH nmsThr scoreThr = Some result →
  (length result <= length predictions)%nat
  ∧ Forall (λ b, 0 <= X1 b ∧ 0 <= Y1 b ∧ X2 b <= origW ∧ Y2 b <= origH
                 ∧ ∃ pred d, pred ∈ predictions
                     ∧ predDetection pred ratio origW origH scoreThr = Some (Some d)
                     ∧ box d = b ∧ F32.lt (score d) scoreThr = false) result.
Proof.
  unfold multiclassNMS, sortedDets.
  destruct (collectDets predictions ratio origW origH scoreThr) as [ds|] eqn:Hds;
    [|done].
  simpl. intros [= <-].
  destruct (collectDets_origin _ _ _ _ _ _ Hds) as [Hlen Hall].
  pose proof (Slice_Permutation scoreGreater ds) as Hperm.
  pose proof (nmsPass_sublist nmsThr (GoSort.Slice scoreGreater ds)) as Hsub.
  split.
  - apply sublist_length in Hsub. rewrite length_fmap in Hsub.
    apply Permutation_length in Hperm. lia.
  - apply Forall_forall. intros b Hb.
    assert (Hin : b ∈ box <$> GoSort.Slice scoreGreater ds).
    { by apply (sublist_subseteq _ _ Hsub). }
    apply list_elem_of_fmap in Hin as (d & -> & Hd). rewrite Hperm in Hd.
    rewrite Forall_forall in Hall. destruct (Hall d Hd) as (pred & Hpred & Hpd).
    destruct (predDetection_box _ _ _ _ _ _ Hpd) as (H1 & H2 & H3 & H4).
    repeat split; try done. exists pred, d. repeat split; try done.
    by eapply predDetection_score.
Qed.

Lemma multiclassNMS_boxes_witness :
  let result :=
    default [] (multiclassNMS shortTiedPredictions F64.one 2000 100 nmsThr045 scoreThr01) in
  length result = 3%nat
  ∧ (length result <= length shortTiedPredictions)%nat
  ∧ Forall (λ b, 0 <= X1 b ∧ 0 <= Y1 b ∧ X2 b <= 2000 ∧ Y2 b <= 100
                 ∧ ∃ pred d, pred ∈ shortTiedPredictions
                     ∧ predDetection pred F64.one 2000 100 scoreThr01 = Some (Some d)
                     ∧ box d = b ∧ F32.lt (score d) scoreThr01 = false) result.
Proof.
  split; [by vm_compute|].
  apply (multiclassNMS_boxes shortTiedPredictions F64.one 2000 100 nmsThr045 scoreThr01).
  by vm_compute.
Defined.

(** X10. When no surviving score is NaN and some detection survives, the
    first box [multiclassNMS] returns belongs to a surviving detection
    whose score no other surviving detection exceeds. *)
Theorem multiclassNMS_top_score_first
    (predictions : list (list F32.t)) (ratio : F64.t) (origW origH : Z)
    (nmsThr scoreThr : F32.t) (ds : list detection) :
  collectDets predictions ratio origW origH scoreThr = Some ds →
  ds ≠ [] →
  Forall (λ d, F32.is_nan (score d) = false) ds →
  ∃ d rest,
    multiclassNMS predictions ratio origW origH nmsThr scoreThr = Some (box d :: rest)
    ∧ d ∈ ds
    ∧ ∀ d', d' ∈ ds → scoreGreater d' d = false.
Proof.
  intros Hds Hne Hnan. unfold multiclassNMS, sortedDets. rewrite Hds. simpl.
  destruct (Slice_spec scoreGreater _ scoreGreater_swo ds Hnan) as [Hperm Hsorted].
  destruct (GoSort.Slice scoreGreater ds) as [|d sds] eqn:Hsd.
  { apply Permutation_nil_l in Hperm. by subst. }
  pose proof (nmsPass_head nmsThr (d :: sds) d sds eq_refl) as Hhead.
  destruct (nmsPass nmsThr (d :: sds)) as [|b rest]; [done|].
  simpl in Hhead. injection Hhead as ->.
  exists d, rest. split; [done|]. split; [rewrite <- Hperm; by left|].
  intros d' Hd'. rewrite <- Hperm in Hd'.
  apply list_elem_of_lookup in Hd' as [j Hj]. destruct j as [|j].
  - simpl in Hj. injection Hj as <-. apply f32_gt_irrefl.
  - apply (Hsorted 0%nat (S j) d d'); [lia|lia| |done..].
    apply lookup_lt_Some in Hj. by rewrite <- (Permutation_length Hperm).
Qed.

Lemma multiclassNMS_top_score_first_witness :
  ∃ d rest,
    multiclassNMS shortTiedPredictions F64.one 2000 100 nmsThr045 scoreThr01
    = Some (box d :: rest)
    ∧ d ∈ default [] (collectDets shortTiedPredictions F64.one 2000 100 scoreThr01)
    ∧ ∀ d', d' ∈ default [] (collectDets shortTiedPredictions F64.one 2000 100 scoreThr01) →
            scoreGreater d' d = false.
Proof.
  apply (multiclassNMS_top_score_first shortTiedPredictions F64.one 2000 100
           nmsThr045 scoreThr01).
  - by vm_compute.
  - by vm_compute.
  - vm_compute. repeat constructor.
Defined.

Lemma collectDets_short_row predictions ratio origW origH scoreThr :
  (∃ pred, pred ∈ predictions ∧ (length pred < 5)%nat) →
  collectDets predictions ratio origW origH scoreThr = None.
Proof.
  induction predictions as [|pred rest IH]; intros (p & Hp & Hlen).
  - by apply elem_of_nil in Hp.
  - simpl. apply elem_of_cons in Hp as [->|Hp].
    + assert (Hnone : slice_at pred 4 = None).
      { unfold slice_at. rewrite bool_decide_eq_true_2 by lia.
        apply lookup_ge_None_2. lia. }
      unfold predDetection. by rewrite Hnone.
    + rewrite IH by (by exists p).
      by destruct (predDetection pred ratio origW origH scoreThr).
Qed.

(** X11. [multiclassNMS] does not return when a prediction row has fewer
    than five entries: reading the objectness [pred[4]] is out of range. *)
Theorem multiclassNMS_short_row
    (predictions : list (list F32.t)) (ratio : F64.t) (origW origH : Z)
    (nmsThr scoreThr : F32.t) (pred : list F32.t) :
  pred ∈ predictions → (length pred < 5)%nat →
  multiclassNMS predictions ratio origW origH nmsThr scoreThr = None.
Proof.
  intros Hpred Hlen. unfold multiclassNMS, sortedDets.
  rewrite collectDets_short_row; [done|]. by exists pred.
Qed.

Lemma multiclassNMS_short_row_witness :
  multiclassNMS [predRow 50 50 20 20 F32.one half; [F32.one; F32.one]]
    F64.one 2000 100 nmsThr045 scoreThr01 = None.
Proof.
  apply (multiclassNMS_short_row _ _ _ _ _ _ [F32.one; F32.one]).
  - right. left.
  - simpl. lia.
Defined.

(** X12. [computeIoU] does not depend on the order of its two boxes. *)
Theorem computeIoU_symmetric (a b : BBox) : computeIoU a b = computeIoU b a.
Proof. apply computeIoU_comm. Qed.

(** * Further properties of the gap locator and of [SlideComparison] *)

Lemma nonBlackRows_range (img : Image) (x y : Z) :
  y ∈ nonBlackRows img x → 0 <= y < Dy img.
Proof.
  unfold nonBlackRows. intros Hy%list_elem_of_filter. destruct Hy as [_ Hy].
  apply elem_of_seqZ in Hy. lia.
Qed.

Lemma rowAfter_range (img : Image) (cols : list Z) :
  ∀ s, s = 0 ∨ 0 < s < Dy img →
       rowAfter img cols s = 0 ∨ 0 < rowAfter img cols s < Dy img.
Proof.
  induction cols as [|x cols IH]; intros s Hs; simpl; [done|].
  apply IH. case_bool_decide; [|lia].
  destruct (nonBlackRows img x) as [|y ys] eqn:Hrows; simpl; [by left|].
  assert (Hy : 0 <= y < Dy img).
  { apply (nonBlackRows_range img x). rewrite Hrows. by left. }
  lia.
Qed.

Lemma colCount_nonneg (img : Image) (x : Z) : 0 <= colCount img x.
Proof. unfold colCount, len. lia. Qed.

(** X13. The gap column that [findGapPython] reports is 0 or lies between
    2 and the image width plus 1, so it can pass the last column by two;
    the reported row is 0 or a row of the image.  With a minimum count of
    0 or less the first column always qualifies and the column is 2. *)
Theorem findGap_result_range (img : Image) (minCount : Z) :
  Dx img <= GoInt.max_int - 2 → Dy img <= GoInt.max_int →
  ((findGapPython img minCount).1 = 0
   ∨ 2 <= (findGapPython img minCount).1 <= Dx img + 1)
  ∧ ((findGapPython img minCount).2 = 0
     ∨ 0 < (findGapPython img minCount).2 < Dy img)
  ∧ (0 < Dx img → minCount <= 0 → (findGapPython img minCount).1 = 2).
Proof.
  intros Hw Hh.
  destruct (findGapPython_cases img minCount Hw Hh)
    as [[Hnone ->]|(g & [Hg Hgfirst] & Hgc & ->)]; simpl.
  - split; [by left|]. split; [apply rowAfter_range; by left|].
    intros Hpos Hmin. specialize (Hnone 0 ltac:(lia)).
    pose proof (colCount_nonneg img 0). lia.
  - split; [right; lia|]. split; [apply rowAfter_range; by left|].
    intros Hpos Hmin. destruct (decide (g = 0)) as [->|Hne]; [done|].
    specialize (Hgfirst 0 ltac:(lia)). pose proof (colCount_nonneg img 0). lia.
Qed.

Lemma findGap_result_range_witness :
  ((findGapPython gapImageBlock 5).1 = 0
   ∨ 2 <= (findGapPython gapImageBlock 5).1 <= 4 + 1)
  ∧ ((findGapPython gapImageBlock 5).2 = 0
     ∨ 0 < (findGapPython gapImageBlock 5).2 < 8)
  ∧ (0 < 4 → 5 <= 0 → (findGapPython gapImageBlock 5).1 = 2).
Proof.
  apply (findGap_result_range gapImageBlock 5); by vm_compute.
Defined.

(** ** Filling an image pixel by pixel *)

Lemma SetRGB_dims (r : RGBAImage) (x y : Z) (c : Z * Z * Z) :
  rgbaDx (SetRGB r x y c) = rgbaDx r ∧ rgbaDy (SetRGB r x y c) = rgbaDy r.
Proof. unfold SetRGB. by case_bool_decide. Qed.

Lemma fillRow_lookup (f : Z → Z → Z * Z * Z) (g : RGBAImage → Z → Z → RGBAImage) (y : Z) :
  (∀ r x y, g r x y = SetRGB r x y (f x y)) →
  ∀ (xs : list Z) (r : RGBAImage),
    rgbaDx (foldl (λ r x, g r x y) r xs) = rgbaDx r
    ∧ rgbaDy (foldl (λ r x, g r x y) r xs) = rgbaDy r
    ∧ ∀ x0 y0,
        rgbaPix (foldl (λ r x, g r x y) r xs) !! (x0, y0)
        = if decide (y0 = y ∧ x0 ∈ xs ∧ 0 <= x0 < rgbaDx r ∧ 0 <= y < rgbaDy r)
          then Some (f x0 y) else rgbaPix r !! (x0, y0).
Proof.
  intros Hg. induction xs as [|x xs IH]; intros r; simpl.
  - split; [done|]. split; [done|]. intros x0 y0.
    rewrite decide_False; [done|]. intros (_ & H & _). by apply elem_of_nil in H.
  - destruct (IH (g r x y)) as (Hdx & Hdy & Hpix). rewrite Hg in Hdx, Hdy, Hpix.
    destruct (SetRGB_dims r x y (f x y)) as [Hsx Hsy].
    rewrite Hg. split; [congruence|]. split; [congruence|].
    intros x0 y0. rewrite Hpix, Hsx, Hsy. unfold SetRGB.
    destruct (decide (y0 = y ∧ x0 ∈ xs ∧ 0 <= x0 < rgbaDx r ∧ 0 <= y < rgbaDy r))
      as [(-> & Hin & Hx & Hy)|Hno].
    + rewrite decide_True; [done|]. repeat split; try done; try lia. by right.
    + case_bool_decide as Hb; simpl.
      * destruct (decide ((x0, y0) = (x, y))) as [[= -> ->]|Hne].
        -- rewrite lookup_insert_eq. rewrite decide_True; [done|].
           repeat split; try lia. by left.
        -- rewrite lookup_insert_ne by done. rewrite decide_False; [done|].
           intros (-> & Hin & Hx & Hy). apply elem_of_cons in Hin as [->|Hin]; [done|].
           apply Hno. repeat split; try done; lia.
      * rewrite decide_False; [done|].
        intros (-> & Hin & Hx & Hy). apply elem_of_cons in Hin as [->|Hin]; [lia|].
        apply Hno. repeat split; try done; lia.
Qed.

Lemma fill_lookup (f : Z → Z → Z * Z * Z) (g : RGBAImage → Z → Z → RGBAImage)
    (xs : list Z) :
  (∀ r x y, g r x y = SetRGB r x y (f x y)) →
  ∀ (ys : list Z) (r : RGBAImage),
    rgbaDx (foldl (λ r y, foldl (λ r x, g r x y) r xs) r ys) = rgbaDx r
    ∧ rgbaDy (foldl (λ r y, foldl (λ r x, g r x y) r xs) r ys) = rgbaDy r
    ∧ ∀ x0 y0,
        rgbaPix (foldl (λ r y, foldl (λ r x, g r x y) r xs) r ys) !! (x0, y0)
        = if decide (y0 ∈ ys ∧ x0 ∈ xs ∧ 0 <= x0 < rgbaDx r ∧ 0 <= y0 < rgbaDy r)
          then Some (f x0 y0) else rgbaPix r !! (x0, y0).
Proof.
  intros Hg. induction ys as [|y ys IH]; intros r; cbn [foldl].
  - split; [done|]. split; [done|]. intros x0 y0.
    rewrite decide_False; [done|]. intros (H & _). by apply elem_of_nil in H.
  - destruct (fillRow_lookup f g y Hg xs r) as (Hrx & Hry & Hrow).
    destruct (IH (foldl (λ r x, g r x y) r xs)) as (Hdx & Hdy & Hpix).
    split; [congruence|]. split; [congruence|].
    intros x0 y0. rewrite Hpix, Hrow, Hrx, Hry.
    destruct (decide (y0 ∈ ys ∧ x0 ∈ xs ∧ 0 <= x0 < rgbaDx r ∧ 0 <= y0 < rgbaDy r))
      as [(Hin & Hxs & Hx & Hy)|Hno].
    + rewrite decide_True; [done|]. repeat split; try done; try lia. by right.
    + destruct (decide (y0 = y ∧ x0 ∈ xs ∧ 0 <= x0 < rgbaDx r ∧ 0 <= y < rgbaDy r))
        as [(-> & Hxs & Hx & Hy)|Hno'].
      * rewrite decide_True; [done|]. repeat split; try done; try lia. by left.
      * rewrite decide_False; [done|].
        intros (Hin & Hxs & Hx & Hy). apply elem_of_cons in Hin as [->|Hin].
        -- apply Hno'. repeat split; try done; lia.
        -- apply Hno. repeat split; try done; lia.
Qed.

Lemma fill_image (f : Z → Z → Z * Z * Z) (g : RGBAImage → Z → Z → RGBAImage) (w h : Z) :
  (∀ r x y, g r x y = SetRGB r x y (f x y)) →
  rgbaDx (foldl (λ r y, foldl (λ r x, g r x y) r (seqZ 0 w)) (NewRGBA w h) (seqZ 0 h)) = w
  ∧ rgbaDy (foldl (λ r y, foldl (λ r x, g r x y) r (seqZ 0 w)) (NewRGBA w h) (seqZ 0 h)) = h
  ∧ ∀ x y,
      rgbaPix (foldl (λ r y, foldl (λ r x, g r x y) r (seqZ 0 w)) (NewRGBA w h) (seqZ 0 h))
        !! (x, y)
      = if decide (0 <= x < w ∧ 0 <= y < h) then Some (f x y) else None.
Proof.
  intros Hg.
  destruct (fill_lookup f g (seqZ 0 w) Hg (seqZ 0 h) (NewRGBA w h)) as (Hdx & Hdy & Hpix).
  split; [done|]. split; [done|]. intros x y. rewrite Hpix.
  change (rgbaDx (NewRGBA w h)) with w. change (rgbaDy (NewRGBA w h)) with h.
  change (rgbaPix (NewRGBA w h)) with (∅ : gmap (Z * Z) (Z * Z * Z)).
  rewrite lookup_empty.
  destruct (decide (0 <= x < w ∧ 0 <= y < h)) as [[Hx Hy]|Hno].
  - rewrite decide_True; [done|]. rewrite !elem_of_seqZ. lia.
  - rewrite decide_False; [done|]. rewrite !elem_of_seqZ. lia.
Qed.

(** ** 8-bit channels *)

Lemma uint8_shr8_range (v : Z) : 0 <= uint8_shr8 v <= 255.
Proof.
  unfold uint8_shr8.
  replace (Z.land (v ≫ 8) 255) with ((v ≫ 8) mod 256)
    by (change 255 with (Z.ones 8); by rewrite Z.land_ones by lia).
  pose proof (Z.mod_pos_bound (v ≫ 8) 256 ltac:(lia)). lia.
Qed.

Lemma uint8_shr8_stored (c : Z) : 0 <= c <= 255 → uint8_shr8 (c * 257) = c.
Proof.
  intros Hc. unfold uint8_shr8. change 255 with (Z.ones 8). rewrite Z.land_ones by lia.
  rewrite Z.shiftr_div_pow2 by lia. change (2 ^ 8) with 256.
  replace (c * 257) with (c + c * 256) by lia.
  rewrite Z.div_add by lia. rewrite (Z.div_small c) by lia.
  apply Z.mod_small. lia.
Qed.

Lemma absDiff_abs (a b : Z) :
  0 <= a <= 255 → 0 <= b <= 255 → absDiff a b = Z.abs (a - b).
Proof.
  intros Ha Hb. unfold absDiff, uint8.
  case_bool_decide; rewrite Z.mod_small by lia; lia.
Qed.

Lemma pixel8_range (img : Image) (x y : Z) :
  0 <= (pixel8 img x y).1.1 <= 255 ∧ 0 <= (pixel8 img x y).1.2 <= 255
  ∧ 0 <= (pixel8 img x y).2 <= 255.
Proof.
  unfold pixel8. destruct (RGBA img x y) as [[r g] b]. simpl.
  by repeat split; apply uint8_shr8_range.
Qed.

Lemma pixel8_readRGBA (img : RGBAImage) (x y : Z) (r g b : Z) :
  rgbaPix img !! (x, y) = Some (r, g, b) →
  0 <= r <= 255 → 0 <= g <= 255 → 0 <= b <= 255 →
  pixel8 (readRGBA img) x y = (r, g, b).
Proof.
  intros Hpix Hr Hg Hb. unfold pixel8, readRGBA. simpl. rewrite Hpix.
  by rewrite !uint8_shr8_stored.
Qed.

Lemma pixel8_readRGBA_unset (img : RGBAImage) (x y : Z) :
  rgbaPix img !! (x, y) = None → pixel8 (readRGBA img) x y = (0, 0, 0).
Proof. intros Hpix. unfold pixel8, readRGBA. simpl. by rewrite Hpix. Qed.

Lemma nonBlack_pixel8 (img : Image) (x y : Z) :
  nonBlack img x y = true ↔ exceeds 0 (pixel8 img x y).
Proof.
  unfold nonBlack, pixel8, exceeds. destruct (RGBA img x y) as [[r g] b]. simpl.
  pose proof (uint8_shr8_range r). pose proof (uint8_shr8_range g).
  pose proof (uint8_shr8_range b).
  rewrite !orb_true_iff, !negb_true_iff, !Z.eqb_neq. lia.
Qed.

(** ** The difference image, its binarization and the scan *)

Lemma imageDifferenceRGB_spec (img1 img2 : Image) :
  rgbaDx (imageDifferenceRGB img1 img2) = Z.min (Dx img1) (Dx img2)
  ∧ rgbaDy (imageDifferenceRGB img1 img2) = Z.min (Dy img1) (Dy img2)
  ∧ ∀ x y,
      pixel8 (readRGBA (imageDifferenceRGB img1 img2)) x y
      = if decide (0 <= x < Z.min (Dx img1) (Dx img2)
                   ∧ 0 <= y < Z.min (Dy img1) (Dy img2))
        then channelDiffs img1 img2 x y else (0, 0, 0).
Proof.
  unfold imageDifferenceRGB. cbv zeta.
  set (w := if bool_decide (Dx img2 < Dx img1) then Dx img2 else Dx img1).
  set (h := if bool_decide (Dy img2 < Dy img1) then Dy img2 else Dy img1).
  assert (Hw : w = Z.min (Dx img1) (Dx img2)) by (subst w; case_bool_decide; lia).
  assert (Hh : h = Z.min (Dy img1) (Dy img2)) by (subst h; case_bool_decide; lia).
  rewrite <- Hw, <- Hh. clearbody w h.
  set (f := λ x y : Z,
         let '(r1, g1, b1) := pixel8 img1 x y in
         let '(r2, g2, b2) := pixel8 img2 x y in
         (absDiff r1 r2, absDiff g1 g2, absDiff b1 b2)).
  destruct (fill_image f
              (λ result x y,
                 let '(r1, g1, b1) := pixel8 img1 x y in
                 let '(r2, g2, b2) := pixel8 img2 x y in
                 SetRGB result x y (absDiff r1 r2, absDiff g1 g2, absDiff b1 b2)) w h)
    as (Hdx & Hdy & Hpix).
  { intros r x y. subst f. simpl.
    by destruct (pixel8 img1 x y) as [[? ?] ?], (pixel8 img2 x y) as [[? ?] ?]. }
  split; [exact Hdx|]. split; [exact Hdy|]. intros x y.
  destruct (decide (0 <= x < w ∧ 0 <= y < h)) as [Hin|Hout].
  - specialize (Hpix x y). rewrite decide_True in Hpix by done.
    pose proof (pixel8_range img1 x y) as (Hr1 & Hg1 & Hb1).
    pose proof (pixel8_range img2 x y) as (Hr2 & Hg2 & Hb2).
    subst f. unfold channelDiffs. simpl in Hpix.
    destruct (pixel8 img1 x y) as [[r1 g1] b1], (pixel8 img2 x y) as [[r2 g2] b2].
    simpl in *.
    rewrite <- !absDiff_abs by done.
    apply (pixel8_readRGBA _ x y); [exact Hpix|..]; rewrite absDiff_abs by done; lia.
  - specialize (Hpix x y). rewrite decide_False in Hpix by done.
    by apply pixel8_readRGBA_unset.
Qed.

Lemma binarize8_range (t c : Z) : 0 <= binarize8 t c <= 255.
Proof. unfold binarize8. case_bool_decide; lia. Qed.

Lemma binarizeRGB_spec (img : Image) (t : Z) :
  rgbaDx (binarizeRGB img t) = Dx img
  ∧ rgbaDy (binarizeRGB img t) = Dy img
  ∧ ∀ x y,
      rgbaPix (binarizeRGB img t) !! (x, y)
      = if decide (0 <= x < Dx img ∧ 0 <= y < Dy img)
        then Some (binarize8 t (pixel8 img x y).1.1, binarize8 t (pixel8 img x y).1.2,
                   binarize8 t (pixel8 img x y).2)
        else None.
Proof.
  unfold binarizeRGB.
  destruct (fill_image
              (λ x y, (binarize8 t (pixel8 img x y).1.1, binarize8 t (pixel8 img x y).1.2,
                       binarize8 t (pixel8 img x y).2))
              (λ result x y,
                 let '(r8, g8, b8) := pixel8 img x y in
                 SetRGB result x y
                   (binarize8 t r8, binarize8 t g8, binarize8 t b8)) (Dx img) (Dy img))
    as (Hdx & Hdy & Hpix).
  { intros r x y. by destruct (pixel8 img x y) as [[? ?] ?]. }
  split; [exact Hdx|]. split; [exact Hdy|]. exact Hpix.
Qed.

Lemma binarizeRGB_pixel8 (img : Image) (t x y : Z) :
  pixel8 (readRGBA (binarizeRGB img t)) x y
  = if decide (0 <= x < Dx img ∧ 0 <= y < Dy img)
    then (binarize8 t (pixel8 img x y).1.1, binarize8 t (pixel8 img x y).1.2,
          binarize8 t (pixel8 img x y).2)
    else (0, 0, 0).
Proof.
  destruct (binarizeRGB_spec img t) as (_ & _ & Hpix). specialize (Hpix x y).
  case_decide.
  - apply (pixel8_readRGBA _ x y); [exact Hpix|apply binarize8_range..].
  - by apply pixel8_readRGBA_unset.
Qed.

(** X14. The difference image has the smaller width and the smaller
    height of the two images, and each of its pixels holds, channel by
    channel, the absolute difference of the 8-bit values of the two
    images: the [uint8] subtraction of [absDiff] never wraps. *)
Theorem imageDifference_pixels (img1 img2 : Image) (x y : Z) :
  let diff := readRGBA (imageDifferenceRGB img1 img2) in
  Dx diff = Z.min (Dx img1) (Dx img2)
  ∧ Dy diff = Z.min (Dy img1) (Dy img2)
  ∧ (0 <= x < Dx diff → 0 <= y < Dy diff →
     pixel8 diff x y = channelDiffs img1 img2 x y).
Proof.
  destruct (imageDifferenceRGB_spec img1 img2) as (Hdx & Hdy & Hpix).
  simpl. split; [done|]. split; [done|]. intros Hx Hy.
  rewrite Hpix, decide_True; [done|]. rewrite <- Hdx, <- Hdy. done.
Qed.

Lemma imageDifference_pixels_witness :
  pixel8 (readRGBA (imageDifferenceRGB slideBackground slideTarget)) 1 0 = (100, 0, 0).
Proof.
  apply (imageDifference_pixels slideBackground slideTarget 1 0); by vm_compute.
Defined.

(** X15. Binarization keeps the size of the image and turns every channel
    into 255 when its 8-bit value exceeds the threshold and into 0
    otherwise, so a pixel of the result is non-black exactly when one of
    its channels exceeded the threshold. *)
Theorem binarize_pixels (img : Image) (t x y : Z) :
  let bin := readRGBA (binarizeRGB img t) in
  Dx bin = Dx img ∧ Dy bin = Dy img
  ∧ (0 <= x < Dx img → 0 <= y < Dy img →
     pixel8 bin x y
     = (binarize8 t (pixel8 img x y).1.1, binarize8 t (pixel8 img x y).1.2,
        binarize8 t (pixel8 img x y).2)
     ∧ (0 <= t → (nonBlack bin x y = true ↔ exceeds t (pixel8 img x y)))).
Proof.
  destruct (binarizeRGB_spec img t) as (Hdx & Hdy & _).
  simpl. split; [done|]. split; [done|]. intros Hx Hy.
  assert (Hpix := binarizeRGB_pixel8 img t x y).
  rewrite decide_True in Hpix by done. split; [exact Hpix|].
  intros Ht. rewrite nonBlack_pixel8, Hpix. unfold exceeds, binarize8. simpl.
  repeat case_bool_decide; lia.
Qed.

Lemma binarize_pixels_witness :
  pixel8 (readRGBA (binarizeRGB slideBackground 80)) 1 0 = (255, 0, 0)
  ∧ (0 <= 80 →
     (nonBlack (readRGBA (binarizeRGB slideBackground 80)) 1 0 = true
      ↔ exceeds 80 (pixel8 slideBackground 1 0))).
Proof.
  apply (binarize_pixels slideBackground 80 1 0); by vm_compute.
Defined.

(** X16. Binarizing a binarized image changes nothing when the threshold
    is a [uint8] below 255. *)
Theorem binarize_idempotent (img : Image) (t : Z) :
  0 <= t < 255 →
  binarizeRGB (readRGBA (binarizeRGB img t)) t = binarizeRGB img t.
Proof.
  intros Ht.
  destruct (binarizeRGB_spec img t) as (Hdx & Hdy & Hpix).
  destruct (binarizeRGB_spec (readRGBA (binarizeRGB img t)) t) as (Hdx' & Hdy' & Hpix').
  simpl in Hdx', Hdy', Hpix'.
  destruct (binarizeRGB (readRGBA (binarizeRGB img t)) t) as [w' h' pix'].
  destruct (binarizeRGB img t) as [w h pix] eqn:Hb. simpl in *. subst.
  f_equal. apply map_eq. intros [x y]. rewrite Hpix', Hpix.
  case_decide; [|done]. f_equal.
  assert (Hp := binarizeRGB_pixel8 img t x y). rewrite Hb in Hp.
  rewrite decide_True in Hp by done. rewrite Hp. simpl.
  unfold binarize8. repeat case_bool_decide; try reflexivity; lia.
Qed.

Lemma binarize_idempotent_witness :
  binarizeRGB (readRGBA (binarizeRGB slideBackground 80)) 80
  = binarizeRGB slideBackground 80.
Proof. apply binarize_idempotent. lia. Defined.

Lemma slideComparison_mask (background target : Image) (x y : Z) :
  nonBlack (readRGBA (binarizeRGB (readRGBA (imageDifferenceRGB background target)) 80)) x y
  = true
  ↔ (0 <= x < Z.min (Dx background) (Dx target)
     ∧ 0 <= y < Z.min (Dy background) (Dy target))
    ∧ exceeds 80 (channelDiffs background target x y).
Proof.
  destruct (imageDifferenceRGB_spec background target) as (Hdx & Hdy & Hpix).
  rewrite nonBlack_pixel8, binarizeRGB_pixel8. simpl. rewrite Hdx, Hdy.
  case_decide as Hin.
  - rewrite Hpix, decide_True by done.
    unfold exceeds, binarize8. simpl. repeat case_bool_decide; lia.
  - unfold exceeds. simpl. split; [lia|]. intros [Hin' _]. done.
Qed.

Lemma all_black_scan (img : Image) :
  Dx img <= GoInt.max_int - 2 → Dy img <= GoInt.max_int →
  (∀ x y, nonBlack img x y = false) → findGapPython img 5 = (0, 0).
Proof.
  intros Hw Hh Hblack.
  assert (Hrows : ∀ x, nonBlackRows img x = []).
  { intros x. unfold nonBlackRows.
    destruct (filter _ _) as [|y ys] eqn:Hf; [done|].
    assert (Hy : y ∈ filter (λ y, nonBlack img x y = true) (seqZ 0 (Dy img))).
    { rewrite Hf. by left. }
    apply list_elem_of_filter in Hy as [Hy _]. by rewrite Hblack in Hy. }
  assert (Hcount : ∀ x, colCount img x = 0).
  { intros x. unfold colCount. by rewrite Hrows. }
  destruct (findGapPython_cases img 5 Hw Hh)
    as [[_ ->]|(g & _ & Hgc & _)].
  - f_equal. apply rowAfter_black, Forall_forall. intros x _. apply Hrows.
  - rewrite Hcount in Hgc. lia.
Qed.

(** X17. In [SlideComparison] a pixel survives the difference and the
    binarization exactly when it lies in the common rectangle of the two
    images and one of its channels differs by more than 80; when no pixel
    does, the reported target is [0, 0]. *)
Theorem slideComparison_threshold (background target : Image) :
  Z.min (Dx background) (Dx target) <= GoInt.max_int - 2 →
  Z.min (Dy background) (Dy target) <= GoInt.max_int →
  (∀ x y,
     nonBlack (readRGBA (binarizeRGB (readRGBA (imageDifferenceRGB background target)) 80))
       x y = true
     ↔ (0 <= x < Z.min (Dx background) (Dx target)
        ∧ 0 <= y < Z.min (Dy background) (Dy target))
       ∧ exceeds 80 (channelDiffs background target x y))
  ∧ ((∀ x y, 0 <= x < Z.min (Dx background) (Dx target) →
             0 <= y < Z.min (Dy background) (Dy target) →
             ¬ exceeds 80 (channelDiffs background target x y)) →
     slideComparisonTarget background target = (0, 0)).
Proof.
  intros Hw Hh. split; [apply slideComparison_mask|].
  intros Hclose. unfold slideComparisonTarget. cbv zeta.
  destruct (imageDifferenceRGB_spec background target) as (Hdx & Hdy & _).
  destruct (binarizeRGB_spec (readRGBA (imageDifferenceRGB background target)) 80)
    as (Hbx & Hby & _).
  simpl in Hbx, Hby.
  apply all_black_scan.
  - simpl. rewrite Hbx, Hdx. done.
  - simpl. rewrite Hby, Hdy. done.
  - intros x y. apply not_true_is_false. intros Hnb.
    apply slideComparison_mask in Hnb as [[Hx Hy] Hex]. by apply (Hclose x y).
Qed.

Lemma slideComparison_threshold_witness :
  slideComparisonTarget slideTarget slideTarget = (0, 0).
Proof.
  apply (slideComparison_threshold slideTarget slideTarget); [by vm_compute..|].
  intros x y Hx Hy. assert (y = 0) as -> by (simpl in Hy; lia).
  assert (x = 0 ∨ x = 1) as [-> | ->] by (simpl in Hx; lia);
    unfold exceeds; vm_compute; intuition congruence.
Defined.

(** * Further properties of the grid decode *)

Lemma bind_length_const {A B} (l : list A) (f : A → list B) (k : nat) :
  (∀ x, length (f x) = k) → length (l ≫= f) = (length l * k)%nat.
Proof.
  intros Hf. induction l as [|x l IH]; [done|].
  change ((x :: l) ≫= f) with (f x ++ (l ≫= f)).
  rewrite length_app, Hf, IH. simpl. lia.
Qed.

Lemma grid_cells_length {B} (a b : Z) (c : Z → Z → B) :
  Z.of_nat (length (y ← seqZ 0 a; x ← seqZ 0 b; [c x y])) = Z.max 0 a * Z.max 0 b.
Proof.
  rewrite (bind_length_const _ _ (Z.to_nat b)).
  - rewrite length_seqZ. lia.
  - intros y. rewrite (bind_length_const _ _ 1%nat) by done.
    rewrite length_seqZ. lia.
Qed.

Lemma demoGrids_length (imgSize0 imgSize1 : Z) :
  len (demoGrids imgSize0 imgSize1) = anchorCount imgSize0 imgSize1.
Proof.
  unfold len, demoGrids, anchorCount.
  change ([8; 16; 32] ≫= ?f) with (f 8 ++ f 16 ++ f 32 ++ []).
  rewrite !length_app, !Nat2Z.inj_add.
  rewrite (grid_cells_length _ _ (λ x y, [F32.of_int x; F32.of_int y])).
  rewrite (grid_cells_length _ _ (λ x y, [F32.of_int x; F32.of_int y])).
  rewrite (grid_cells_length _ _ (λ x y, [F32.of_int x; F32.of_int y])).
  simpl. lia.
Qed.

Lemma demoStrides_length (imgSize0 imgSize1 : Z) :
  len (demoStrides imgSize0 imgSize1) = anchorCount imgSize0 imgSize1.
Proof.
  unfold len, demoStrides, anchorCount.
  change ([8; 16; 32] ≫= ?f) with (f 8 ++ f 16 ++ f 32 ++ []).
  rewrite !length_app, !Nat2Z.inj_add.
  rewrite (grid_cells_length _ _ (λ _ _, F32.of_int 8)).
  rewrite (grid_cells_length _ _ (λ _ _, F32.of_int 16)).
  rewrite (grid_cells_length _ _ (λ _ _, F32.of_int 32)).
  simpl. lia.
Qed.

Lemma demoGrids_cells (imgSize0 imgSize1 : Z) :
  Forall (λ g, ∃ gx gy, g = [gx; gy]) (demoGrids imgSize0 imgSize1).
Proof.
  apply Forall_forall. intros g Hg. unfold demoGrids in Hg.
  apply list_elem_of_bind in Hg as (stride & Hg & _).
  apply list_elem_of_bind in Hg as (y & Hg & _).
  apply list_elem_of_bind in Hg as (x & Hg & _).
  apply list_elem_of_singleton in Hg as ->. by eexists _, _.
Qed.

Lemma mapM_seqZ_Some {B} (f : Z → option B) (m n : Z) :
  (∀ j, m <= j < m + n → is_Some (f j)) →
  ∃ l, mapM f (seqZ m n) = Some l
       ∧ len l = Z.max 0 n
       ∧ ∀ j, m <= j < m + n → slice_at l (j - m) = f j.
Proof.
  intros Hf.
  destruct (mapM_is_Some_2 f (seqZ m n)) as [l Hl].
  { apply Forall_forall. intros j Hj. apply elem_of_seqZ in Hj. by apply Hf. }
  exists l. split; [done|]. apply mapM_Some_1 in Hl.
  pose proof (Forall2_length _ _ _ Hl) as Hlen. rewrite length_seqZ in Hlen.
  split; [unfold len; lia|]. intros j Hj. unfold slice_at.
  rewrite bool_decide_eq_true_2 by lia.
  destruct (Forall2_lookup_l _ _ _ (Z.to_nat (j - m)) j Hl) as (y & Hy & Hfy).
  { apply lookup_seqZ. lia. }
  by rewrite Hy, Hfy.
Qed.

Section DemoRows.

Variable math_Exp : F64.t → F64.t.
Variable outputs : list F32.t.
Variables imgSize0 imgSize1 : Z.

Let A := anchorCount imgSize0 imgSize1.
Let n := len outputs `quot` A.

Hypothesis Hlen : len outputs <= GoInt.max_int.

Lemma demo_numClasses :
  0 < A → GoInt.add 5 (GoInt.sub (len outputs `quot` A) 5) = n.
Proof.
  intros HA. subst n. unfold GoInt.add, GoInt.sub.
  assert (Hmax : GoInt.max_int = 9223372036854775807) by reflexivity.
  assert (Hmin : GoInt.min_int = -9223372036854775808) by reflexivity.
  assert (Hq : 0 <= len outputs `quot` A <= len outputs).
  { unfold len. split; [apply Z.quot_pos; lia|].
    rewrite Z.quot_div_nonneg by lia. apply Z.div_le_upper_bound; nia. }
  rewrite (wrap_small (_ - 5)) by lia. rewrite wrap_small by lia. lia.
Qed.

Lemma demo_rows_fit : 0 < A → A * n <= len outputs.
Proof.
  intros HA. subst n. rewrite Z.quot_div_nonneg by (unfold len; lia).
  apply Z.mul_div_le. lia.
Qed.

Lemma demoPred_row (i : Z) :
  0 < A → 4 <= n → 0 <= i < A →
  ∃ row,
    demoPred math_Exp outputs (demoGrids imgSize0 imgSize1)
      (demoStrides imgSize0 imgSize1) (GoInt.sub (len outputs `quot` A) 5) i
    = Some row
    ∧ len row = n
    ∧ ∀ j, 4 <= j < n → slice_at row j = slice_at outputs (i * n + j).
Proof.
  intros HA Hn Hi. unfold demoPred. rewrite (demo_numClasses HA).
  rewrite bool_decide_eq_false_2 by lia.
  pose proof (demo_rows_fit HA) as Hfit.
  assert (Hmax : GoInt.max_int = 9223372036854775807) by reflexivity.
  assert (Hmin : GoInt.min_int = -9223372036854775808) by reflexivity.
  assert (Hrow : (i + 1) * n <= len outputs) by nia.
  assert (Hbase : GoInt.mul i n = i * n).
  { unfold GoInt.mul. apply wrap_small. nia. }
  rewrite Hbase.
  assert (Hadd : ∀ j, 0 <= j < n → GoInt.add (i * n) j = i * n + j).
  { intros j Hj. unfold GoInt.add. apply wrap_small. nia. }
  assert (Hout : ∀ j, 0 <= j < n → is_Some (slice_at outputs (GoInt.add (i * n) j))).
  { intros j Hj. rewrite Hadd by done. apply slice_at_is_Some. nia. }
  destruct (slice_at_is_Some (demoGrids imgSize0 imgSize1) i) as [grid Hgrid].
  { rewrite demoGrids_length. fold A. lia. }
  assert (Hcell : ∃ gx gy, grid = [gx; gy]).
  { pose proof (demoGrids_cells imgSize0 imgSize1) as Hcells.
    rewrite Forall_forall in Hcells. apply Hcells.
    unfold slice_at in Hgrid. case_bool_decide; [|done].
    by eapply list_elem_of_lookup_2. }
  destruct Hcell as (gx & gy & ->).
  destruct (slice_at_is_Some (demoStrides imgSize0 imgSize1) i) as [stride Hstride].
  { rewrite demoStrides_length. fold A. lia. }
  rewrite Hgrid, Hstride. simpl.
  destruct (Hout 0 ltac:(lia)) as [o0 Ho0]. destruct (Hout 1 ltac:(lia)) as [o1 Ho1].
  destruct (Hout 2 ltac:(lia)) as [o2 Ho2]. destruct (Hout 3 ltac:(lia)) as [o3 Ho3].
  rewrite Ho0, Ho1, Ho2, Ho3. simpl.
  destruct (mapM_seqZ_Some (λ j, slice_at outputs (GoInt.add (i * n) j)) 4 (n - 4))
    as (rest & Hrest & Hrlen & Hrget).
  { intros j Hj. apply Hout. lia. }
  rewrite Hrest. simpl. eexists. split; [done|]. split.
  - unfold len in *. simpl. lia.
  - intros j Hj. rewrite <- (Hadd j) by lia. rewrite <- (Hrget j) by lia.
    unfold slice_at. rewrite !bool_decide_eq_true_2 by lia.
    replace (Z.to_nat j) with (4 + Z.to_nat (j - 4))%nat by lia. done.
Qed.

Lemma demoPostprocess_rows_aux :
  0 < A → 4 <= n →
  ∃ preds,
    demoPostprocess math_Exp outputs imgSize0 imgSize1 = Some preds
    ∧ len preds = A
    ∧ ∀ i row, slice_at preds i = Some row →
        len row = n
        ∧ ∀ j, 4 <= j < n → slice_at row j = slice_at outputs (i * n + j).
Proof.
  intros HA Hn. unfold demoPostprocess. cbv zeta.
  rewrite demoGrids_length. fold A.
  rewrite bool_decide_eq_false_2 by lia.
  destruct (mapM_seqZ_Some
              (demoPred math_Exp outputs (demoGrids imgSize0 imgSize1)
                 (demoStrides imgSize0 imgSize1) (GoInt.sub (len outputs `quot` A) 5))
              0 A) as (preds & Hpreds & Hplen & Hpget).
  { intros i Hi. destruct (demoPred_row i HA Hn) as (row & Hrow & _); [lia|].
    by rewrite Hrow. }
  exists preds. split; [done|]. split; [lia|].
  intros i row Hrow. pose proof (slice_at_Some_range _ _ _ Hrow) as Hi.
  specialize (Hpget i ltac:(lia)). rewrite Z.sub_0_r, Hrow in Hpget.
  destruct (demoPred_row i HA Hn) as (row' & Hrow' & Hspec); [lia|].
  rewrite Hrow' in Hpget. by injection Hpget as ->.
Qed.

Lemma demoPostprocess_fails :
  A <= 0 ∨ n < 4 → demoPostprocess math_Exp outputs imgSize0 imgSize1 = None.
Proof.
  intros Hcase. unfold demoPostprocess. cbv zeta.
  rewrite demoGrids_length. fold A.
  assert (HA0 : 0 <= A).
  { subst A. rewrite <- demoGrids_length. unfold len. lia. }
  case_bool_decide as HA; [done|].
  destruct Hcase as [HA'|Hn]; [lia|].
  assert (HApos : 0 < A) by lia.
  apply mapM_None_2, Exists_exists. exists 0. split.
  - apply elem_of_seqZ. lia.
  - unfold demoPred. rewrite (demo_numClasses HApos).
    by rewrite bool_decide_eq_true_2 by lia.
Qed.

End DemoRows.

Lemma quot_ge_4 (l a : Z) : 0 <= l → 0 < a → (4 <= l `quot` a ↔ 4 * a <= l).
Proof.
  intros Hl Ha. rewrite Z.quot_div_nonneg by lia. split.
  - intros H. pose proof (Z.mul_div_le l a Ha). nia.
  - intros H. apply Z.div_le_lower_bound; lia.
Qed.

(** X18. [demoPostprocess] returns exactly when the image size gives at
    least one grid cell and the output holds at least four values per
    cell; otherwise it panics, on the division by the cell count or on
    the row it cannot fill. *)
Theorem demoPostprocess_returns
    (math_Exp : F64.t → F64.t) (outputs : list F32.t) (imgSize0 imgSize1 : Z) :
  len outputs <= GoInt.max_int →
  (is_Some (demoPostprocess math_Exp outputs imgSize0 imgSize1)
   ↔ 0 < anchorCount imgSize0 imgSize1
     ∧ 4 * anchorCount imgSize0 imgSize1 <= len outputs).
Proof.
  intros Hlen. split.
  - intros Hsome.
    destruct (decide (0 < anchorCount imgSize0 imgSize1)) as [HA|HA].
    + split; [done|]. apply quot_ge_4; [unfold len; lia|done|].
      destruct (decide (4 <= len outputs `quot` anchorCount imgSize0 imgSize1));
        [done|].
      rewrite demoPostprocess_fails in Hsome by (done || lia).
      by destruct Hsome.
    + rewrite demoPostprocess_fails in Hsome by (done || lia). by destruct Hsome.
  - intros [HA H4]. apply quot_ge_4 in H4; [|unfold len; lia|done].
    destruct (demoPostprocess_rows_aux math_Exp outputs imgSize0 imgSize1 Hlen HA H4)
      as (preds & -> & _). done.
Qed.

Lemma demoPostprocess_returns_witness :
  is_Some (demoPostprocess constExp oneCellOutput 8 8)
  ↔ 0 < anchorCount 8 8 ∧ 4 * anchorCount 8 8 <= len oneCellOutput.
Proof. apply demoPostprocess_returns. by vm_compute. Defined.

(** X19. When [demoPostprocess] returns, it gives one row per grid cell;
    every row has [len(outputs) / cells] entries, and its entries from
    index 4 on, the objectness and the class scores, are the output's
    values unchanged. *)
Theorem demoPostprocess_rows
    (math_Exp : F64.t → F64.t) (outputs : list F32.t) (imgSize0 imgSize1 : Z)
    (preds : list (list F32.t)) :
  len outputs <= GoInt.max_int →
  demoPostprocess math_Exp outputs imgSize0 imgSize1 = Some preds →
  len preds = anchorCount imgSize0 imgSize1
  ∧ ∀ i row, slice_at preds i = Some row →
      len row = len outputs `quot` anchorCount imgSize0 imgSize1
      ∧ ∀ j, 4 <= j < len row →
             slice_at row j
             = slice_at outputs
                 (i * (len outputs `quot` anchorCount imgSize0 imgSize1) + j).
Proof.
  intros Hlen Hpreds.
  destruct (decide (0 < anchorCount imgSize0 imgSize1)) as [HA|HA].
  2:{ rewrite demoPostprocess_fails in Hpreds by (done || lia). done. }
  destruct (decide (4 <= len outputs `quot` anchorCount imgSize0 imgSize1)) as [H4|H4].
  2:{ rewrite demoPostprocess_fails in Hpreds by (done || lia). done. }
  destruct (demoPostprocess_rows_aux math_Exp outputs imgSize0 imgSize1 Hlen HA H4)
    as (preds' & Hpreds' & Hplen & Hrows).
  rewrite Hpreds' in Hpreds. injection Hpreds as <-. split; [done|].
  intros i row Hrow. destruct (Hrows i row Hrow) as [Hrlen Hcopy].
  split; [done|]. intros j Hj. apply Hcopy. lia.
Qed.

Lemma demoPostprocess_rows_witness :
  ∃ row, demoPostprocess constExp oneCellOutput 8 8 = Some [row]
         ∧ len row = 6 ∧ slice_at row 4 = Some F32.one ∧ slice_at row 5 = Some half.
Proof.
  destruct (demoPostprocess constExp oneCellOutput 8 8) as [preds|] eqn:Hp;
    [|by vm_compute in Hp].
  destruct (demoPostprocess_rows constExp oneCellOutput 8 8 preds) as [Hlen Hrows];
    [by vm_compute|done|].
  destruct preds as [|row [|row' preds]]; try (by vm_compute in Hlen).
  exists row. split; [done|].
  destruct (Hrows 0 row eq_refl) as [Hrlen Hcopy].
  split; [exact Hrlen|]. split.
  - rewrite (Hcopy 4); [done|]. rewrite Hrlen. by vm_compute.
  - rewrite (Hcopy 5); [done|]. rewrite Hrlen. by vm_compute.
Defined.

(** X20. When the output holds four values per grid cell but not five,
    [demoPostprocess] returns rows of four entries, and [multiclassNMS]
    then fails on them: the detection post-processing reads the
    objectness [pred[4]] out of range. *)
Theorem short_output_breaks_detection
    (math_Exp : F64.t → F64.t) (outputs : list F32.t) (imgSize0 imgSize1 : Z) :
  len outputs <= GoInt.max_int →
  0 < anchorCount imgSize0 imgSize1 →
  4 * anchorCount imgSize0 imgSize1 <= len outputs < 5 * anchorCount imgSize0 imgSize1 →
  ∃ preds,
    demoPostprocess math_Exp outputs imgSize0 imgSize1 = Some preds
    ∧ Forall (λ row, len row = 4) preds
    ∧ ∀ ratio origW origH nmsThr scoreThr,
        multiclassNMS preds ratio origW origH nmsThr scoreThr = None.
Proof.
  intros Hlen HA [H4 H5].
  assert (Hn : len outputs `quot` anchorCount imgSize0 imgSize1 = 4).
  { rewrite Z.quot_div_nonneg by (unfold len; lia).
    symmetry. apply (Z.div_unique _ _ 4 (len outputs - 4 * anchorCount imgSize0 imgSize1)); lia. }
  destruct (demoPostprocess_rows_aux math_Exp outputs imgSize0 imgSize1 Hlen HA)
    as (preds & Hpreds & Hplen & Hrows); [lia|].
  exists preds. split; [done|].
  assert (Hall : Forall (λ row, len row = 4) preds).
  { apply Forall_forall. intros row Hrow.
    apply list_elem_of_lookup in Hrow as [i Hi].
    destruct (Hrows (Z.of_nat i) row) as [Hrlen _]; [|lia].
    unfold slice_at. rewrite bool_decide_eq_true_2 by lia. by rewrite Nat2Z.id. }
  split; [done|]. intros ratio origW origH nmsThr scoreThr.
  unfold multiclassNMS, sortedDets.
  rewrite collectDets_short_row; [done|].
  destruct preds as [|row preds']; [unfold len in Hplen; simpl in Hplen; lia|].
  exists row. split; [by left|].
  inversion Hall as [|? ? Hrow _]; subst. unfold len in Hrow. lia.
Qed.

Lemma short_output_breaks_detection_witness :
  ∃ preds,
    demoPostprocess constExp shortCellOutput 8 8 = Some preds
    ∧ Forall (λ row, len row = 4) preds
    ∧ ∀ ratio origW origH nmsThr scoreThr,
        multiclassNMS preds ratio origW origH nmsThr scoreThr = None.
Proof.
  apply (short_output_breaks_detection constExp shortCellOutput 8 8); by vm_compute.
Defined.

(** * The probabilities ([softmax]) *)




Section SoftmaxLoops.

Variable math_Exp : F64.t → F64.t.






End SoftmaxLoops.




